(** * Nexus: the podcast generation pipeline, embedded and verified

    The development follows the TypeScript sources:
    - [types.ts]            the data model (scripts, episodes, topics, state);
    - [utils/audioUtils.ts] the script chunker and the WAV codec;
    - [services/gemini.ts]  the audio synthesis call with its retry loop;
    - [utils/rssUtils.ts]   the validation of feed candidates and the selection
                            of the news items;
    - [App.tsx]             the generation session controller and the topic
                            registry controller.

    Pure functions are Rocq functions.  Loops whose termination depends on
    an argument carry fuel and return [None] when it runs out.  The
    asynchronous controllers are small-step machines: every [await] is a
    suspension point, and an event of the environment (a user action or the
    settlement of a pending remote call) runs the code up to the next
    suspension point. *)

From stdpp Require Import base option list strings gmap sorting.
From Stdlib Require Import ZArith Lia.

Local Open Scope nat_scope.

(** ** types.ts *)

Record ScriptLine := {
  speaker : string;
  text : string
}.

Record PodcastScript := {
  title : string;
  topic : string;
  summary : string;
  digest : string;
  lines : list ScriptLine
}.

(** The object spread [{ ...script, lines: ls }]. *)
Definition with_lines (script : PodcastScript) (ls : list ScriptLine) : PodcastScript :=
  {| title := title script; topic := topic script; summary := summary script;
     digest := digest script; lines := ls |}.

(** A persisted generation result.  [id] stands for the value drawn from
    [crypto.randomUUID()] (the [n]-th draw is [n]) and [createdAt] for the
    reading of the clock. *)
Module Episode.
Record t := {
  id : nat;
  script : PodcastScript;
  audioSegments : list string;
  createdAt : nat;
  category : string;
  customImage : option string
}.
End Episode.
Abbreviation PodcastEpisode := Episode.t.

(** A selectable topic ([icon], a render node, is left out). *)
Module Topic.
Record t := {
  id : string;
  name : string;
  description : option string;
  rssUrls : list string;
  isCustom : bool;
  isLoading : option bool;
  color : option string;
  customImage : option string
}.
End Topic.
Abbreviation NewsTopic := Topic.t.

Module Status.
Inductive t := idle | scripting | synthesizing | complete | error.
End Status.
Abbreviation GenerationStatus := Status.t.

(** The application state.  The fields [view], [previousView], [inputText],
    [sourceFile], [upcomingEvents] and [isEventsLoading] belong to handlers
    that are not modelled; every update below spreads [prev], so they are
    carried along unchanged and left out. *)
Module App.
Record t := {
  script : option PodcastScript;
  audioSegments : list string;
  isGeneratingAudio : bool;
  status : GenerationStatus;
  error : option string;
  notification : option string;
  currentEpisodeId : option nat;
  activeCategory : option string;
  customCoverUrl : option string;
  library : list PodcastEpisode;
  topics : list NewsTopic
}.
End App.
Abbreviation AppState := App.t.

(** The state [App] starts from, with an empty topic list in place of the
    built-in topics. *)
Definition empty_state : AppState :=
  {| App.script := None; App.audioSegments := []; App.isGeneratingAudio := false;
     App.status := Status.idle; App.error := None; App.notification := None;
     App.currentEpisodeId := None; App.activeCategory := Some "custom";
     App.customCoverUrl := None; App.library := []; App.topics := [] |}.

(** A script of [n] lines, for examples. *)
Definition demo_script (n : nat) : PodcastScript :=
  {| title := "Openings"; topic := "chess"; summary := ""; digest := "";
     lines := replicate n {| speaker := "Alex"; text := "hi" |} |}.

(** JavaScript truthiness of an optional string: absent and empty are falsy. *)
Definition truthy (s : option string) : bool :=
  match s with
  | Some s' => negb (String.eqb s' "")
  | None => false
  end.

(** ** utils/audioUtils.ts: chunkScript *)

(** [Array.prototype.slice(b, e)] for [0 <= b <= e]. *)
Definition slice {A} (l : list A) (b e : nat) : list A := take (e - b) (drop b l).

(** The [for (let i = 0; i < lines.length; i += linesPerChunk)] loop.  The
    fuel bounds the number of iterations; [None] stands for a loop that is
    still running when the fuel is spent ([linesPerChunk = 0]). *)
Fixpoint chunkScript_loop (fuel : nat) (script : PodcastScript) (linesPerChunk i : nat)
    (chunks : list PodcastScript) : option (list PodcastScript) :=
  if decide (i < length (lines script)) then
    match fuel with
    | O => None
    | S fuel' =>
        chunkScript_loop fuel' script linesPerChunk (i + linesPerChunk)
          (chunks ++ [with_lines script (slice (lines script) i (i + linesPerChunk))])
    end
  else Some chunks.

Definition chunkScript (script : PodcastScript) (linesPerChunk : nat)
    : option (list PodcastScript) :=
  chunkScript_loop (length (lines script)) script linesPerChunk 0 [].

(** ceil(L / K) on naturals. *)
Definition ceil_div (L K : nat) : nat := (L + K - 1) / K.

Section ChunkScript.

Variable script : PodcastScript.
Variable K : nat.
Hypothesis K_pos : 0 < K.

Let L := length (lines script).

Lemma ceil_div_step i :
  i < L -> ceil_div (L - i) K = S (ceil_div (L - (i + K)) K).
Proof using K_pos.
  intros Hi. unfold ceil_div.
  destruct (decide (i + K <= L)) as [Hle|Hgt].
  - replace (L - i + K - 1) with ((L - (i + K) + K - 1) + 1 * K) by lia.
    rewrite Nat.div_add by lia. lia.
  - replace (L - (i + K)) with 0 by lia.
    rewrite (Nat.div_small (0 + K - 1)) by lia.
    symmetry. apply (Nat.div_unique _ _ 1 (L - i - 1)); lia.
Qed.

Lemma ceil_div_done i : L <= i -> ceil_div (L - i) K = 0.
Proof using K_pos.
  intros Hi. unfold ceil_div. replace (L - i) with 0 by lia.
  apply Nat.div_small. lia.
Qed.

(** What the loop appends when it is entered at index [i]. *)
Definition rest_ok (i : nat) (rest : list PodcastScript) : Prop :=
  length rest = ceil_div (L - i) K /\
  concat (map lines rest) = drop i (lines script) /\
  (forall j c, rest !! j = Some c ->
     c = with_lines script (slice (lines script) (i + j * K) (i + j * K + K))).

Lemma chunkScript_loop_spec fuel : forall i chunks,
  L - i <= fuel ->
  exists rest, chunkScript_loop fuel script K i chunks = Some (chunks ++ rest)
               /\ rest_ok i rest.
Proof using K_pos.
  induction fuel as [|fuel IH]; intros i chunks Hfuel; simpl;
    fold L; destruct (decide (i < L)) as [Hlt|Hge]; try lia.
  - exists []. rewrite app_nil_r. split; [done|]. repeat split.
    + simpl. symmetry. apply ceil_div_done. lia.
    + simpl. rewrite drop_ge; [done | fold L; lia].
    + intros j c H. done.
  - destruct (IH (i + K)
               (chunks ++ [with_lines script (slice (lines script) i (i + K))]))
      as (rest & Hrun & Hlen & Hcat & Hnth); [lia|].
    exists (with_lines script (slice (lines script) i (i + K)) :: rest).
    split; [rewrite Hrun, <- app_assoc; done|]. repeat split.
    + simpl. rewrite Hlen. symmetry. apply ceil_div_step. done.
    + simpl. rewrite Hcat. unfold slice.
      replace (i + K - i) with K by lia.
      rewrite <- (take_drop K (drop i (lines script))) at 2.
      rewrite drop_drop. done.
    + intros [|j] c Hj; simpl in Hj.
      * inversion Hj; subst. do 2 f_equal; lia.
      * apply Hnth in Hj. rewrite Hj. do 2 f_equal; lia.
  - exists []. rewrite app_nil_r. split; [done|]. repeat split.
    + simpl. symmetry. apply ceil_div_done. lia.
    + simpl. rewrite drop_ge; [done | fold L; lia].
    + intros j c H. done.
Qed.

Lemma chunkScript_spec :
  exists chunks, chunkScript script K = Some chunks /\ rest_ok 0 chunks.
Proof using K_pos.
  destruct (chunkScript_loop_spec L 0 []) as (rest & Hrun & Hok); [lia|].
  exists rest. split; [exact Hrun | exact Hok].
Qed.

End ChunkScript.

(** The count [ceil_div L K] is the least [n] with [L <= n * K]. *)
Lemma ceil_div_char (L K : nat) :
  0 < K -> L <= ceil_div L K * K /\ (0 < L -> (ceil_div L K - 1) * K < L).
Proof.
  intros HK. unfold ceil_div.
  pose proof (Nat.div_mod (L + K - 1) K ltac:(lia)) as Hdm.
  pose proof (Nat.mod_upper_bound (L + K - 1) K ltac:(lia)) as Hub.
  set (q := (L + K - 1) / K) in *. set (r := (L + K - 1) mod K) in *.
  split; [nia|]. intros HL. destruct q as [|q]; [nia|].
  simpl. rewrite Nat.sub_0_r. nia.
Qed.

(** C5.  For a positive chunk size [K], [chunkScript] terminates with exactly
    ceil(L/K) sub-scripts (none when there is no line); the [j]-th one holds
    the lines [j*K .. j*K+K) of the parent, between 1 and [K] of them, under
    the parent's title, topic, summary and digest; and the line lists of the
    sub-scripts, concatenated in order, are the parent's lines. *)
Theorem chunkScript_partition (script : PodcastScript) (K : nat) :
  0 < K ->
  exists chunks,
    chunkScript script K = Some chunks /\
    length chunks = ceil_div (length (lines script)) K /\
    (length (lines script) <= length chunks * K /\
     (0 < length (lines script) -> (length chunks - 1) * K < length (lines script))) /\
    (lines script = [] -> chunks = []) /\
    concat (map lines chunks) = lines script /\
    (forall j c, chunks !! j = Some c ->
       title c = title script /\ topic c = topic script /\
       summary c = summary script /\ digest c = digest script /\
       lines c = slice (lines script) (j * K) (j * K + K) /\
       0 < length (lines c) <= K).
Proof.
  intros HK.
  destruct (chunkScript_spec script K HK) as (chunks & Hrun & Hlen & Hcat & Hnth).
  rewrite Nat.sub_0_r in Hlen. rewrite drop_0 in Hcat.
  pose proof (ceil_div_char (length (lines script)) K HK) as [Hup Hlow].
  exists chunks. rewrite <- Hlen in Hup, Hlow.
  assert (length (lines script) = 0 -> chunks = []) as Hempty.
  { intros Hnil. rewrite Hnil in Hlen.
    unfold ceil_div in Hlen. rewrite Nat.div_small in Hlen by lia.
    by destruct chunks. }
  split; [done|]. split; [done|]. split; [done|].
  split; [intros Hnil; apply Hempty; by rewrite Hnil|].
  split; [done|].
  intros j c Hj. pose proof (lookup_lt_Some _ _ _ Hj) as Hjlt.
  apply Hnth in Hj. simpl in Hj. subst c. simpl.
  do 5 (split; [done|]).
  unfold slice. rewrite length_take, length_drop.
  assert (0 < length (lines script)) as Hpos.
  { destruct (length (lines script)); [|lia].
    rewrite Hempty in Hjlt by done. simpl in Hjlt. lia. }
  assert (j * K < length (lines script)) by nia. lia.
Qed.

Lemma chunkScript_partition_witness :
  exists chunks,
    chunkScript (with_lines {| title := "t"; topic := "s"; summary := "";
                               digest := ""; lines := [] |}
                   (replicate 9 {| speaker := "Alex"; text := "hi" |})) 6 = Some chunks
    /\ length chunks = 2.
Proof.
  destruct (chunkScript_partition
              (with_lines {| title := "t"; topic := "s"; summary := "";
                             digest := ""; lines := [] |}
                 (replicate 9 {| speaker := "Alex"; text := "hi" |})) 6 ltac:(lia))
    as (chunks & Hrun & Hlen & _).
  exists chunks. split; [exact Hrun | exact Hlen].
Defined.

(** ** utils/audioUtils.ts: the WAV codec *)

(** Bytes are integers in [0, 256); an [ArrayBuffer] or [Uint8Array] is the
    list of its bytes, a [DataView] the buffer it was created over. *)
Definition new_ArrayBuffer (n : nat) : list Z := replicate n 0%Z.

(** [DataView.prototype.setUint8/16/32]: the value is reduced modulo the
    field width (ToUint8/16/32) and stored byte by byte; an offset past the
    end of the buffer raises a RangeError ([None]). *)
Definition setUint8 (view : list Z) (byteOffset : nat) (value : Z) : option (list Z) :=
  if byteOffset + 1 <=? length view
  then Some (<[byteOffset := (value mod 2 ^ 8)%Z]> view)
  else None.

Definition setUint16 (view : list Z) (byteOffset : nat) (value : Z) (littleEndian : bool)
    : option (list Z) :=
  if byteOffset + 2 <=? length view then
    let v := (value mod 2 ^ 16)%Z in
    let lo := Z.land v 255 in
    let hi := Z.land (Z.shiftr v 8) 255 in
    Some (if littleEndian
          then <[byteOffset + 1 := hi]> (<[byteOffset := lo]> view)
          else <[byteOffset + 1 := lo]> (<[byteOffset := hi]> view))
  else None.

Definition setUint32 (view : list Z) (byteOffset : nat) (value : Z) (littleEndian : bool)
    : option (list Z) :=
  if byteOffset + 4 <=? length view then
    let v := (value mod 2 ^ 32)%Z in
    let b0 := Z.land v 255 in
    let b1 := Z.land (Z.shiftr v 8) 255 in
    let b2 := Z.land (Z.shiftr v 16) 255 in
    let b3 := Z.land (Z.shiftr v 24) 255 in
    Some (if littleEndian
          then <[byteOffset + 3 := b3]> (<[byteOffset + 2 := b2]>
                 (<[byteOffset + 1 := b1]> (<[byteOffset := b0]> view)))
          else <[byteOffset + 3 := b0]> (<[byteOffset + 2 := b1]>
                 (<[byteOffset + 1 := b2]> (<[byteOffset := b3]> view))))
  else None.

(** [string.charCodeAt(i)] for the ASCII strings the codec writes. *)
Definition charCode (c : Ascii.ascii) : Z := Z.of_nat (Ascii.nat_of_ascii c).

(** [for (let i = 0; i < string.length; i++) view.setUint8(offset + i, ...)] *)
Fixpoint writeString_loop (view : list Z) (offset : nat) (chars : list Ascii.ascii) (i : nat)
    : option (list Z) :=
  match chars with
  | [] => Some view
  | c :: chars' =>
      view' ← setUint8 view (offset + i) (charCode c);
      writeString_loop view' offset chars' (S i)
  end.

Definition writeString (view : list Z) (offset : nat) (s : string) : option (list Z) :=
  writeString_loop view offset (String.list_ascii_of_string s) 0.

(** [createWavBlob]: the blob is the list of its bytes, header then payload.
    [sampleRate] is an integer, so the JavaScript number arithmetic of the
    derived fields is exact integer arithmetic. *)
Definition createWavBlob (pcmData : list Z) (sampleRate : Z) : option (list Z) :=
  let numChannels := 1%Z in
  let bitsPerSample := 16%Z in
  let byteRate := ((sampleRate * numChannels * bitsPerSample) / 8)%Z in
  let blockAlign := ((numChannels * bitsPerSample) / 8)%Z in
  let dataSize := Z.of_nat (length pcmData) in
  let fileSize := (36 + dataSize)%Z in
  let header := new_ArrayBuffer 44 in
  view ← writeString header 0 "RIFF";
  view ← setUint32 view 4 fileSize true;
  view ← writeString view 8 "WAVE";
  view ← writeString view 12 "fmt ";
  view ← setUint32 view 16 16 true;
  view ← setUint16 view 20 1 true;
  view ← setUint16 view 22 numChannels true;
  view ← setUint32 view 24 sampleRate true;
  view ← setUint32 view 28 byteRate true;
  view ← setUint16 view 32 blockAlign true;
  view ← setUint16 view 34 bitsPerSample true;
  view ← writeString view 36 "data";
  view ← setUint32 view 40 dataSize true;
  Some (view ++ pcmData).

(** *** The container format, as the format description gives it *)

(** The [n]-byte little-endian encoding of [v], and the value of a
    little-endian byte string. *)
Definition le_byte (v : Z) (k : nat) : Z := ((v / 2 ^ (8 * Z.of_nat k)) mod 2 ^ 8)%Z.

Definition le_bytes (n : nat) (v : Z) : list Z := map (le_byte v) (seq 0 n).

Definition le_value (bs : list Z) : Z := foldr (fun b acc => (b + 256 * acc)%Z) 0%Z bs.

Definition codes (s : string) : list Z := map charCode (String.list_ascii_of_string s).

Definition wav_header (dataSize sampleRate : Z) : list Z :=
  codes "RIFF" ++ le_bytes 4 (36 + dataSize) ++ codes "WAVE" ++
  codes "fmt " ++ le_bytes 4 16 ++ le_bytes 2 1 ++ le_bytes 2 1 ++
  le_bytes 4 sampleRate ++ le_bytes 4 (sampleRate * 2) ++
  le_bytes 2 2 ++ le_bytes 2 16 ++
  codes "data" ++ le_bytes 4 dataSize.

(** *** Bytes and little-endian fields *)

Lemma land_shiftr_mod (v w sh : Z) (k : nat) :
  (sh = 8 * Z.of_nat k)%Z -> (sh + 8 <= w)%Z ->
  Z.land (Z.shiftr (v mod 2 ^ w) sh) 255 = le_byte v k.
Proof.
  intros -> Hw. unfold le_byte. change 255%Z with (Z.ones 8).
  rewrite Z.land_ones by lia. rewrite Z.shiftr_div_pow2 by lia.
  apply Z.bits_inj'. intros i Hi.
  destruct (Z.ltb_spec i 8).
  - rewrite !Z.mod_pow2_bits_low by lia. rewrite !Z.div_pow2_bits by lia.
    rewrite Z.mod_pow2_bits_low by lia. done.
  - rewrite !Z.mod_pow2_bits_high by lia. done.
Qed.

Lemma land_mod_low (v w : Z) :
  (8 <= w)%Z -> Z.land (v mod 2 ^ w) 255 = le_byte v 0.
Proof.
  intros Hw. rewrite <- (Z.shiftr_0_r (v mod 2 ^ w)).
  apply land_shiftr_mod; simpl; lia.
Qed.

Lemma le_value_seq (v : Z) (n s : nat) :
  le_value (map (le_byte v) (seq s n))
  = ((v / 2 ^ (8 * Z.of_nat s)) mod 2 ^ (8 * Z.of_nat n))%Z.
Proof.
  revert s. induction n as [|n IH]; intros s.
  - simpl. by rewrite Z.mod_1_r.
  - cbn [seq map le_value foldr]. fold (le_value (map (le_byte v) (seq (S s) n))).
    rewrite IH. unfold le_byte.
    replace (8 * Z.of_nat (S n))%Z with (8 + 8 * Z.of_nat n)%Z by lia.
    rewrite Z.pow_add_r by lia.
    rewrite Z.rem_mul_r by (try apply Z.pow_pos_nonneg; lia).
    replace (8 * Z.of_nat (S s))%Z with (8 * Z.of_nat s + 8)%Z by lia.
    rewrite Z.pow_add_r by lia.
    rewrite Z.div_div by (try apply Z.pow_pos_nonneg; lia).
    done.
Qed.

(** Reading a little-endian field back gives the value modulo the width. *)
Lemma le_value_le_bytes (n : nat) (v : Z) :
  le_value (le_bytes n v) = (v mod 2 ^ (8 * Z.of_nat n))%Z.
Proof.
  unfold le_bytes. rewrite le_value_seq. simpl. by rewrite Z.div_1_r.
Qed.

Lemma le_value_le_bytes_small (n : nat) (v : Z) :
  (0 <= v < 2 ^ (8 * Z.of_nat n))%Z -> le_value (le_bytes n v) = v.
Proof. intros Hv. rewrite le_value_le_bytes. by apply Z.mod_small. Qed.

Ltac header_byte :=
  first [ apply land_shiftr_mod; [reflexivity | lia]
        | apply land_mod_low; lia
        | reflexivity ].

(** The code builds exactly the header of the format description. *)
Lemma createWavBlob_eq (pcmData : list Z) (sampleRate : Z) :
  createWavBlob pcmData sampleRate
  = Some (wav_header (Z.of_nat (length pcmData)) sampleRate ++ pcmData).
Proof.
  unfold createWavBlob.
  replace (sampleRate * 1 * 16 / 8)%Z with (sampleRate * 2)%Z
    by (replace (sampleRate * 1 * 16)%Z with (sampleRate * 2 * 8)%Z by lia;
        by rewrite Z.div_mul).
  generalize (Z.of_nat (length pcmData)). intros dataSize.
  cbv [writeString writeString_loop String.list_ascii_of_string mbind option_bind
       setUint8 setUint16 setUint32 new_ArrayBuffer replicate length Nat.leb Nat.add
       insert list_insert wav_header codes le_bytes map seq app].
  f_equal.
  repeat (apply (f_equal2 (@cons Z)); [header_byte|]).
  reflexivity.
Qed.

Lemma wav_header_length (dataSize sampleRate : Z) :
  length (wav_header dataSize sampleRate) = 44.
Proof. reflexivity. Qed.

(** C6.  For every PCM buffer and sample rate, [createWavBlob] returns a
    44-byte header immediately followed by the unmodified payload; the header
    holds "RIFF", fileSize = 36 + N, "WAVE", "fmt ", 16, 1, 1, the sample
    rate, the byte rate R * 2, block align 2, 16 bits per sample, "data" and
    the data size N at the offsets of the format description, every number
    as the little-endian bytes of its field; read back, the four size and
    rate fields give 36 + N, R, R * 2 and N whenever these fit 32 bits. *)
Theorem createWavBlob_layout (pcmData : list Z) (sampleRate : Z) :
  let N := Z.of_nat (length pcmData) in
  exists header,
    createWavBlob pcmData sampleRate = Some (header ++ pcmData) /\
    length header = 44 /\
    drop 44 (header ++ pcmData) = pcmData /\
    slice header 0 4 = [82; 73; 70; 70]%Z /\
    slice header 4 8 = le_bytes 4 (36 + N) /\
    slice header 8 12 = [87; 65; 86; 69]%Z /\
    slice header 12 16 = [102; 109; 116; 32]%Z /\
    slice header 16 20 = [16; 0; 0; 0]%Z /\
    slice header 20 22 = [1; 0]%Z /\
    slice header 22 24 = [1; 0]%Z /\
    slice header 24 28 = le_bytes 4 sampleRate /\
    slice header 28 32 = le_bytes 4 (sampleRate * 2) /\
    slice header 32 34 = [2; 0]%Z /\
    slice header 34 36 = [16; 0]%Z /\
    slice header 36 40 = [100; 97; 116; 97]%Z /\
    slice header 40 44 = le_bytes 4 N /\
    ((36 + N < 2 ^ 32)%Z ->
       le_value (slice header 4 8) = (36 + N)%Z /\
       le_value (slice header 40 44) = N) /\
    ((0 <= sampleRate)%Z -> (sampleRate * 2 < 2 ^ 32)%Z ->
       le_value (slice header 24 28) = sampleRate /\
       le_value (slice header 28 32) = (sampleRate * 2)%Z).
Proof.
  intros N. exists (wav_header N sampleRate).
  split; [apply createWavBlob_eq|].
  split; [reflexivity|].
  split; [reflexivity|].
  do 13 (split; [reflexivity|]).
  split.
  - intros HN.
    change (slice (wav_header N sampleRate) 4 8) with (le_bytes 4 (36 + N)).
    change (slice (wav_header N sampleRate) 40 44) with (le_bytes 4 N).
    split; apply le_value_le_bytes_small; simpl; lia.
  - intros HR0 HR.
    change (slice (wav_header N sampleRate) 24 28) with (le_bytes 4 sampleRate).
    change (slice (wav_header N sampleRate) 28 32) with (le_bytes 4 (sampleRate * 2)).
    split; apply le_value_le_bytes_small; simpl; lia.
Qed.

(** A three-byte buffer at 24 kHz, byte for byte. *)
Example createWavBlob_24k :
  createWavBlob [1; 2; 3]%Z 24000
  = Some [82; 73; 70; 70; 39; 0; 0; 0; 87; 65; 86; 69; 102; 109; 116; 32;
          16; 0; 0; 0; 1; 0; 1; 0; 192; 93; 0; 0; 128; 187; 0; 0; 2; 0; 16; 0;
          100; 97; 116; 97; 3; 0; 0; 0; 1; 2; 3]%Z.
Proof. reflexivity. Qed.

(** ** utils/audioUtils.ts: mergeAudioSegments *)

(** [new Uint8Array(n)] and [target.set(source, offset)]; the latter raises a
    RangeError when the source does not fit. *)
Definition new_Uint8Array (n : nat) : list Z := replicate n 0%Z.

Definition Uint8Array_set (target source : list Z) (offset : nat) : option (list Z) :=
  if offset + length source <=? length target
  then Some (take offset target ++ source ++ drop (offset + length source) target)
  else None.

(** [buffers.map(buffer => ...)], which also accumulates [totalLength]. *)
Fixpoint strip_headers (headerSize : nat) (buffers : list (list Z)) (totalLength : nat)
    : list (list Z) * nat :=
  match buffers with
  | [] => ([], totalLength)
  | buffer :: buffers' =>
      if length buffer <=? headerSize then
        let '(pcmChunks, total) := strip_headers headerSize buffers' totalLength in
        (new_Uint8Array 0 :: pcmChunks, total)
      else
        let pcm := drop headerSize buffer in
        let '(pcmChunks, total) :=
          strip_headers headerSize buffers' (totalLength + length pcm) in
        (pcm :: pcmChunks, total)
  end.

(** [for (const chunk of pcmChunks) { mergedPcm.set(chunk, offset); ... }] *)
Fixpoint copy_chunks (mergedPcm : list Z) (pcmChunks : list (list Z)) (offset : nat)
    : option (list Z) :=
  match pcmChunks with
  | [] => Some mergedPcm
  | chunk :: pcmChunks' =>
      mergedPcm' ← Uint8Array_set mergedPcm chunk offset;
      copy_chunks mergedPcm' pcmChunks' (offset + length chunk)
  end.

(** [fetch] gives the bytes behind a segment URL, or fails; [Promise.all]
    fails as soon as one fetch does. *)
Definition mergeAudioSegments (fetch : string -> option (list Z)) (segmentUrls : list string)
    : option (list Z) :=
  buffers ← mapM fetch segmentUrls;
  let headerSize := 44 in
  let '(pcmChunks, totalLength) := strip_headers headerSize buffers 0 in
  mergedPcm ← copy_chunks (new_Uint8Array totalLength) pcmChunks 0;
  createWavBlob mergedPcm 24000.

(** What one fetched segment contributes, in the words of the contract. *)
Definition pcm_payload (segment : list Z) : list Z :=
  if decide (45 <= length segment) then drop 44 segment else [].

Lemma strip_headers_spec (buffers : list (list Z)) : forall total,
  strip_headers 44 buffers total
  = (map pcm_payload buffers, total + length (concat (map pcm_payload buffers))).
Proof.
  induction buffers as [|b bs IH]; intros total; simpl.
  - f_equal. lia.
  - unfold pcm_payload at 1 3. destruct (Nat.leb_spec (length b) 44);
      destruct (decide (45 <= length b)); try lia; rewrite IH; simpl.
    + done.
    + rewrite length_app. f_equal. lia.
Qed.

Lemma copy_chunks_spec (pcmChunks : list (list Z)) : forall filled blank,
  length blank = length (concat pcmChunks) ->
  copy_chunks (filled ++ blank) pcmChunks (length filled)
  = Some (filled ++ concat pcmChunks).
Proof.
  induction pcmChunks as [|c cs IH]; intros filled blank Hlen; simpl in *.
  - destruct blank; [done|discriminate].
  - rewrite length_app in Hlen. unfold Uint8Array_set.
    rewrite length_app.
    destruct (Nat.leb_spec (length filled + length c) (length filled + length blank));
      [|lia]. simpl.
    rewrite take_app_length.
    rewrite drop_app_add'; [|done].
    rewrite (app_assoc filled c), <- (length_app filled c).
    rewrite IH; [by rewrite <- !app_assoc|].
    rewrite length_drop. lia.
Qed.

Lemma pcm_payload_long (segment : list Z) :
  45 <= length segment ->
  pcm_payload segment = drop 44 segment /\ length (pcm_payload segment) = length segment - 44.
Proof.
  intros H. unfold pcm_payload. destruct (decide (45 <= length segment)); [|lia].
  split; [done|]. by rewrite length_drop.
Qed.

Lemma pcm_payload_short (segment : list Z) :
  length segment <= 44 -> pcm_payload segment = [].
Proof.
  intros H. unfold pcm_payload. destruct (decide (45 <= length segment)); [lia|done].
Qed.

Lemma payloads_long (buffers : list (list Z)) :
  Forall (fun b => 45 <= length b) buffers ->
  concat (map pcm_payload buffers) = concat (map (drop 44) buffers) /\
  length (concat (map pcm_payload buffers)) = sum_list (map (fun b => length b - 44) buffers).
Proof.
  induction 1 as [|b bs Hb _ [IH1 IH2]]; simpl; [done|].
  destruct (pcm_payload_long b Hb) as [Hp Hl].
  rewrite length_app, Hl, IH2, Hp, IH1. done.
Qed.

(** C7.  When every segment is fetched, [mergeAudioSegments] returns the
    container, at 24000 Hz, of the segments' payloads concatenated in input
    order, where a segment of at least 45 bytes contributes its bytes from
    offset 44 on and a shorter one contributes nothing.  When all segments
    have at least 45 bytes, the payload is the concatenation of the stripped
    segments and the data-size field holds the sum of their lengths. *)
Theorem mergeAudioSegments_spec
    (fetch : string -> option (list Z)) (segmentUrls : list string)
    (buffers : list (list Z)) :
  mapM fetch segmentUrls = Some buffers ->
  let merged := concat (map pcm_payload buffers) in
  (forall b, 45 <= length b -> pcm_payload b = drop 44 b) /\
  (forall b, length b <= 44 -> pcm_payload b = []) /\
  mergeAudioSegments fetch segmentUrls = createWavBlob merged 24000 /\
  mergeAudioSegments fetch segmentUrls
  = Some (wav_header (Z.of_nat (length merged)) 24000 ++ merged) /\
  (Forall (fun b => 45 <= length b) buffers ->
     let total := sum_list (map (fun b => length b - 44) buffers) in
     mergeAudioSegments fetch segmentUrls
     = Some (wav_header (Z.of_nat total) 24000 ++ concat (map (drop 44) buffers)) /\
     slice (wav_header (Z.of_nat total) 24000) 40 44 = le_bytes 4 (Z.of_nat total) /\
     ((Z.of_nat total < 2 ^ 32)%Z ->
        le_value (slice (wav_header (Z.of_nat total) 24000) 40 44) = Z.of_nat total)).
Proof.
  intros Hfetch merged.
  assert (mergeAudioSegments fetch segmentUrls = createWavBlob merged 24000) as Hrun.
  { unfold mergeAudioSegments. rewrite Hfetch. simpl.
    rewrite strip_headers_spec. simpl.
    pose proof (copy_chunks_spec (map pcm_payload buffers) []
                  (new_Uint8Array (length (concat (map pcm_payload buffers))))) as Hcopy.
    simpl in Hcopy. rewrite Hcopy; [done|]. apply length_replicate. }
  split; [intros b Hb; by apply pcm_payload_long|].
  split; [apply pcm_payload_short|].
  split; [done|].
  split; [by rewrite Hrun, createWavBlob_eq|].
  intros Hlong total.
  destruct (payloads_long buffers Hlong) as [Hcat Hlen].
  split; [rewrite Hrun, createWavBlob_eq; subst merged total; by rewrite Hlen, Hcat|].
  split; [reflexivity|].
  intros Hfit.
  change (slice (wav_header (Z.of_nat total) 24000) 40 44)
    with (le_bytes 4 (Z.of_nat total)).
  apply le_value_le_bytes_small. simpl. lia.
Qed.

Lemma mergeAudioSegments_spec_witness :
  mergeAudioSegments
    (fun url => if decide (url = "a") then createWavBlob [1; 2]%Z 24000
                else if decide (url = "b") then createWavBlob [3]%Z 24000
                else Some [0]%Z)
    ["a"; "b"; "c"]
  = Some (wav_header 3 24000 ++ [1; 2; 3]%Z).
Proof.
  pose proof (mergeAudioSegments_spec
    (fun url => if decide (url = "a") then createWavBlob [1; 2]%Z 24000
                else if decide (url = "b") then createWavBlob [3]%Z 24000
                else Some [0]%Z)
    ["a"; "b"; "c"]
    [wav_header 2 24000 ++ [1; 2]%Z; wav_header 1 24000 ++ [3]%Z; [0]%Z]
    eq_refl) as H.
  simpl in H. destruct H as (_ & _ & _ & H & _). exact H.
Defined.

(** ** services/gemini.ts: generateAudio *)

(** [base64ToUint8Array]: [window.atob] gives the binary string or throws. *)
Definition base64ToUint8Array (atob : string -> option string) (base64 : string)
    : option (list Z) :=
  binaryString ← atob base64;
  Some (map charCode (String.list_ascii_of_string binaryString)).

(** What one call of the text-to-speech service comes back with: a rejection
    with [Error(e)], or a response, of which the code reads
    [candidates?.[0]?.content?.parts?.[0]?.inlineData?.data] ([None] when a
    link of the chain is missing). *)
Inductive TtsResponse :=
| TtsRejected (e : string)
| TtsResolved (base64Audio : option string).

(** What a run of [generateAudio] did: its settlement ([inr url], or [inl e]
    for the error thrown), the number of service calls made, and the delays
    it slept through, in milliseconds. *)
Record AudioRun := {
  settled : string + string;
  calls : nat;
  delays : list Z
}.

Section GenerateAudio.

Variable atob : string -> option string.
Variable createObjectURL : list Z -> string.
(** The response to the call made in attempt number [attempt]. *)
Variable generateContent : nat -> TtsResponse.

Definition maxRetries : nat := 3.

(** The body of the [try] block: [inr url] when it returns, [inl e] when it
    throws. *)
Definition try_synthesize (response : TtsResponse) : string + string :=
  match response with
  | TtsRejected e => inl e
  | TtsResolved base64Audio =>
      if negb (truthy base64Audio) then inl "No audio data generated"
      else
        match base64ToUint8Array atob (default "" base64Audio) with
        | None => inl "InvalidCharacterError"
        | Some pcmData =>
            match createWavBlob pcmData 24000 with
            | Some wavBlob => inr (createObjectURL wavBlob)
            | None => inl "RangeError"
            end
        end
  end.

(** [for (let attempt = 0; attempt <= maxRetries; attempt++) { try ... }]
    followed by [throw lastError || new Error(...)]. *)
Fixpoint generateAudio_loop (fuel attempt : nat) (lastError : option string)
    (slept : list Z) : option AudioRun :=
  if decide (attempt <= maxRetries) then
    match fuel with
    | O => None
    | S fuel' =>
        match try_synthesize (generateContent attempt) with
        | inr url => Some {| settled := inr url; calls := S attempt; delays := slept |}
        | inl e =>
            let slept' :=
              if decide (attempt < maxRetries)
              then slept ++ [(1000 * 2 ^ Z.of_nat attempt)%Z]
              else slept in
            generateAudio_loop fuel' (S attempt) (Some e) slept'
        end
    end
  else
    Some {| settled := inl (default "Failed to generate audio after retries" lastError);
            calls := attempt; delays := slept |}.

Definition generateAudio : option AudioRun :=
  generateAudio_loop (S maxRetries) 0 None [].

(** C9.  [generateAudio] settles after at most 4 service calls; before each
    retry it sleeps 1s, 2s, 4s in this order; every call before the last one
    failed; it resolves with the result of the first call that succeeds, and
    it throws only when all 4 calls failed, and then the error of the last.
    A call fails when it rejects, when the response carries no audio data or
    the empty string, or when the decoding throws. *)
Theorem generateAudio_retries :
  exists run,
    generateAudio = Some run /\
    1 <= calls run <= 4 /\
    delays run = take (calls run - 1) [1000; 2000; 4000]%Z /\
    (forall k, k < calls run - 1 -> exists e, try_synthesize (generateContent k) = inl e) /\
    match settled run with
    | inr url => try_synthesize (generateContent (calls run - 1)) = inr url
    | inl e => calls run = 4 /\ try_synthesize (generateContent 3) = inl e
    end.
Proof.
  unfold generateAudio. simpl.
  destruct (try_synthesize (generateContent 0)) as [e0|u0] eqn:H0;
    [destruct (try_synthesize (generateContent 1)) as [e1|u1] eqn:H1;
     [destruct (try_synthesize (generateContent 2)) as [e2|u2] eqn:H2;
      [destruct (try_synthesize (generateContent 3)) as [e3|u3] eqn:H3|]|]|];
    (eexists; split; [reflexivity|]; simpl;
     split; [lia|]; split; [reflexivity|];
     split; [intros [|[|[|k]]] Hk; try lia; eauto | auto]).
Qed.

(** Responses without audio data, or with the empty string for it, are
    failed attempts like any other: four of them use up the retries. *)
Lemma generateAudio_without_data :
  (forall k, k <= maxRetries ->
     exists base64Audio,
       generateContent k = TtsResolved base64Audio /\ truthy base64Audio = false) ->
  generateAudio
  = Some {| settled := inl "No audio data generated"; calls := 4;
            delays := [1000; 2000; 4000]%Z |}.
Proof.
  intros Hnone.
  assert (forall k, k <= maxRetries ->
            try_synthesize (generateContent k) = inl "No audio data generated") as Hfail.
  { intros k Hk. destruct (Hnone k Hk) as (data & -> & Hdata).
    unfold try_synthesize. by rewrite Hdata. }
  unfold generateAudio, maxRetries in *. simpl.
  rewrite !Hfail by lia. reflexivity.
Qed.

End GenerateAudio.

(** ** Running a machine over a list of events *)

(** [step w e] is the state after the handler or continuation triggered by
    [e] has run to its next suspension point, and [None] when [e] cannot
    occur in [w] (no such call is pending). *)
Fixpoint run {W E : Type} (step : W -> E -> option W) (w : W) (events : list E)
    : option W :=
  match events with
  | [] => Some w
  | e :: events' => w' ← step w e; run step w' events'
  end.

Lemma run_app {W E : Type} (step : W -> E -> option W) (w : W) (es1 es2 : list E) :
  run step w (es1 ++ es2) = w' ← run step w es1; run step w' es2.
Proof.
  revert w. induction es1 as [|e es1 IH]; intros w; simpl; [done|].
  destruct (step w e) as [w'|]; simpl; [apply IH | done].
Qed.

Lemma run_snoc {W E : Type} (step : W -> E -> option W) (w w2 : W) (es : list E) (e : E) :
  run step w (es ++ [e]) = Some w2 <->
  exists w1, run step w es = Some w1 /\ step w1 e = Some w2.
Proof.
  rewrite run_app. split.
  - destruct (run step w es) as [w1|]; simpl; [|done].
    destruct (step w1 e) as [w'|] eqn:Hs; simpl; [|done].
    intros [= <-]. eauto.
  - intros (w1 & -> & Hs). simpl. by rewrite Hs.
Qed.

(** ** services/gemini.ts: generateCoverImage *)

(** The image service rejects, or answers with content parts, some of which
    carry inline data. *)
Inductive ImageResponse :=
| ImageRejected
| ImageParts (parts : list (option string)).

(** [for (const part of parts) if (part.inlineData) return ...] *)
Fixpoint first_inlineData (parts : list (option string)) : option string :=
  match parts with
  | [] => None
  | Some data :: _ => Some data
  | None :: parts' => first_inlineData parts'
  end.

(** Every failure, the missing image data included, is caught and turned
    into the empty string: the promise never rejects. *)
Definition generateCoverImage (response : ImageResponse) : string :=
  match response with
  | ImageRejected => ""
  | ImageParts parts =>
      match first_inlineData parts with
      | Some data => "data:image/png;base64," +:+ data
      | None => ""
      end
  end.

(** ** App.tsx: the topic registry controller *)

Inductive Promise (A : Type) :=
| Pending
| Fulfilled (v : A)
| Rejected.
Arguments Pending {A}.
Arguments Fulfilled {A} v.
Arguments Rejected {A}.

Definition set_topics (f : list NewsTopic -> list NewsTopic) (prev : AppState) : AppState :=
  {| App.script := App.script prev;
     App.audioSegments := App.audioSegments prev;
     App.isGeneratingAudio := App.isGeneratingAudio prev;
     App.status := App.status prev;
     App.error := App.error prev;
     App.notification := App.notification prev;
     App.currentEpisodeId := App.currentEpisodeId prev;
     App.activeCategory := App.activeCategory prev;
     App.customCoverUrl := App.customCoverUrl prev;
     App.library := App.library prev;
     App.topics := f (App.topics prev) |}.

Module Registry.

(** The two promises of one [handleAddTopic] activation, and whether
    [Promise.all] over them has settled (so that its [then] or [catch]
    handler has run). *)
Record Enrichment := {
  rssPromise : Promise (list string);
  imagePromise : Promise string;
  allSettled : bool
}.

Record World := {
  state : AppState;
  enrichments : gmap string Enrichment
}.

Inductive Event :=
| AddTopic (uuid name description : string) (color : option string)
| RssSettled (id : string) (validUrls : option (list string))
| ImageSettled (id : string) (response : ImageResponse)
| UpdateTopic (id newName : string) (newRssUrls : list string) (newColor : option string)
| DeleteTopic (id : string).

Definition newTopic (uuid name description : string) (color : option string) : NewsTopic :=
  {| Topic.id := uuid;
     Topic.name := name;
     Topic.description := Some description;
     Topic.rssUrls := [];
     Topic.isCustom := true;
     Topic.isLoading := Some true;
     Topic.color := if truthy color then color else Some "slate";
     Topic.customImage := None |}.

(** [{ ...t, rssUrls: validUrls, customImage: generatedImage, isLoading: false }] *)
Definition enriched (validUrls : list string) (generatedImage : string) (t : NewsTopic)
    : NewsTopic :=
  {| Topic.id := Topic.id t; Topic.name := Topic.name t;
     Topic.description := Topic.description t;
     Topic.rssUrls := validUrls;
     Topic.isCustom := Topic.isCustom t;
     Topic.isLoading := Some false;
     Topic.color := Topic.color t;
     Topic.customImage := Some generatedImage |}.

(** [{ ...t, isLoading: false }] *)
Definition loaded (t : NewsTopic) : NewsTopic :=
  {| Topic.id := Topic.id t; Topic.name := Topic.name t;
     Topic.description := Topic.description t;
     Topic.rssUrls := Topic.rssUrls t;
     Topic.isCustom := Topic.isCustom t;
     Topic.isLoading := Some false;
     Topic.color := Topic.color t;
     Topic.customImage := Topic.customImage t |}.

(** [{ ...t, name: newName, rssUrls: newRssUrls, color: newColor }] *)
Definition renamed (newName : string) (newRssUrls : list string) (newColor : option string)
    (t : NewsTopic) : NewsTopic :=
  {| Topic.id := Topic.id t; Topic.name := newName;
     Topic.description := Topic.description t;
     Topic.rssUrls := newRssUrls;
     Topic.isCustom := Topic.isCustom t;
     Topic.isLoading := Topic.isLoading t;
     Topic.color := newColor;
     Topic.customImage := Topic.customImage t |}.

(** [topics.map(t => t.id === id ? f(t) : t)] *)
Definition map_topic (id : string) (f : NewsTopic -> NewsTopic) (topics : list NewsTopic)
    : list NewsTopic :=
  map (fun t => if decide (Topic.id t = id) then f t else t) topics.

(** [Promise.all([rssPromise, imagePromise]).then(...).catch(...)]: once a
    promise has settled, the [catch] handler runs at the first rejection and
    the [then] handler when both are fulfilled; either runs at most once. *)
Definition promise_all (id : string) (e : Enrichment) (w : World) : World :=
  if allSettled e then
    {| state := state w; enrichments := <[id := e]> (enrichments w) |}
  else
    match rssPromise e, imagePromise e with
    | Rejected, _ | _, Rejected =>
        {| state := set_topics (map_topic id loaded) (state w);
           enrichments :=
             <[id := {| rssPromise := rssPromise e; imagePromise := imagePromise e;
                        allSettled := true |}]> (enrichments w) |}
    | Fulfilled validUrls, Fulfilled generatedImage =>
        {| state := set_topics (map_topic id (enriched validUrls generatedImage)) (state w);
           enrichments :=
             <[id := {| rssPromise := rssPromise e; imagePromise := imagePromise e;
                        allSettled := true |}]> (enrichments w) |}
    | _, _ =>
        {| state := state w; enrichments := <[id := e]> (enrichments w) |}
    end.

(** [handleAddTopic] up to the creation of the two promises; [uuid] is the
    value drawn from [crypto.randomUUID()]. *)
Definition handleAddTopic (uuid name description : string) (color : option string)
    (w : World) : World :=
  {| state := set_topics (fun topics => topics ++ [newTopic uuid name description color])
                (state w);
     enrichments := <[uuid := {| rssPromise := Pending; imagePromise := Pending;
                                 allSettled := false |}]> (enrichments w) |}.

Definition handleUpdateTopic (id newName : string) (newRssUrls : list string)
    (newColor : option string) (w : World) : World :=
  {| state := set_topics (map_topic id (renamed newName newRssUrls newColor)) (state w);
     enrichments := enrichments w |}.

Definition handleDeleteTopic (id : string) (w : World) : World :=
  {| state := set_topics (filter (fun t => Topic.id t <> id)) (state w);
     enrichments := enrichments w |}.

(** [crypto.randomUUID()] never returns an identifier in use: [AddTopic]
    cannot occur with one.  A promise settles once. *)
Definition step (w : World) (ev : Event) : option World :=
  match ev with
  | AddTopic uuid name description color =>
      if decide (uuid ∈ map Topic.id (App.topics (state w))
                 \/ is_Some (enrichments w !! uuid))
      then None
      else Some (handleAddTopic uuid name description color w)
  | RssSettled id validUrls =>
      match enrichments w !! id with
      | Some e =>
          match rssPromise e with
          | Pending =>
              Some (promise_all id
                      {| rssPromise := match validUrls with
                                       | Some urls => Fulfilled urls
                                       | None => Rejected
                                       end;
                         imagePromise := imagePromise e;
                         allSettled := allSettled e |} w)
          | _ => None
          end
      | None => None
      end
  | ImageSettled id response =>
      match enrichments w !! id with
      | Some e =>
          match imagePromise e with
          | Pending =>
              Some (promise_all id
                      {| rssPromise := rssPromise e;
                         imagePromise := Fulfilled (generateCoverImage response);
                         allSettled := allSettled e |} w)
          | _ => None
          end
      | None => None
      end
  | UpdateTopic id newName newRssUrls newColor =>
      Some (handleUpdateTopic id newName newRssUrls newColor w)
  | DeleteTopic id => Some (handleDeleteTopic id w)
  end.

End Registry.

(** *** Enrichment of a new topic *)

Module RegistryFacts.
Import Registry.

(** The events that edit or remove the topic [uuid] by hand. *)
Definition touches (uuid : string) (ev : Event) : bool :=
  match ev with
  | UpdateTopic id _ _ _ | DeleteTopic id => bool_decide (id = uuid)
  | _ => false
  end.

(** The first settlement of each promise of [uuid] among the events. *)
Fixpoint rss_seen (uuid : string) (evs : list Event) : option (option (list string)) :=
  match evs with
  | [] => None
  | RssSettled id r :: evs' =>
      if decide (id = uuid) then Some r else rss_seen uuid evs'
  | _ :: evs' => rss_seen uuid evs'
  end.

Fixpoint image_seen (uuid : string) (evs : list Event) : option ImageResponse :=
  match evs with
  | [] => None
  | ImageSettled id response :: evs' =>
      if decide (id = uuid) then Some response else image_seen uuid evs'
  | _ :: evs' => image_seen uuid evs'
  end.

(** The topic as the settlements seen so far leave it. *)
Definition topic_after (rs : option (option (list string))) (im : option ImageResponse)
    (t0 : NewsTopic) : NewsTopic :=
  match rs, im with
  | Some None, _ => loaded t0
  | Some (Some validUrls), Some response =>
      enriched validUrls (generateCoverImage response) t0
  | _, _ => t0
  end.

Definition enrichment_after (rs : option (option (list string)))
    (im : option ImageResponse) : Enrichment :=
  {| rssPromise := match rs with
                   | None => Pending
                   | Some None => Rejected
                   | Some (Some urls) => Fulfilled urls
                   end;
     imagePromise := match im with
                     | None => Pending
                     | Some response => Fulfilled (generateCoverImage response)
                     end;
     allSettled := match rs, im with
                   | Some None, _ | Some (Some _), Some _ => true
                   | _, _ => false
                   end |}.

Definition mine (uuid : string) (w : World) : list NewsTopic :=
  filter (fun t => Topic.id t = uuid) (App.topics (state w)).

Definition enriching (uuid : string) (t0 : NewsTopic)
    (rs : option (option (list string))) (im : option ImageResponse) (w : World) : Prop :=
  enrichments w !! uuid = Some (enrichment_after rs im) /\
  mine uuid w = [topic_after rs im t0].

Lemma first_seen_None_r {A} (x : option A) : x ∪ None = x.
Proof. by destruct x. Qed.

Lemma first_seen_None_l {A} (x : option A) : None ∪ x = x.
Proof. by destruct x. Qed.

Lemma filter_id_fresh (uuid : string) (topics : list NewsTopic) :
  uuid ∉ map Topic.id topics -> filter (fun t => Topic.id t = uuid) topics = [].
Proof.
  induction topics as [|t ts IH]; simpl; [done|]. intros Hnotin.
  rewrite not_elem_of_cons in Hnotin. destruct Hnotin as [Hne Hrest].
  rewrite filter_cons. destruct (decide (Topic.id t = uuid)); [congruence|]. auto.
Qed.

Lemma filter_map_topic_ne (uuid id : string) (f : NewsTopic -> NewsTopic)
    (topics : list NewsTopic) :
  (forall t, Topic.id (f t) = Topic.id t) -> id <> uuid ->
  filter (fun t => Topic.id t = uuid) (map_topic id f topics)
  = filter (fun t => Topic.id t = uuid) topics.
Proof.
  intros Hid Hne. induction topics as [|t ts IH]; simpl; [done|].
  rewrite !filter_cons.
  destruct (decide (Topic.id t = id)) as [Heq|Hneq].
  - rewrite Hid. destruct (decide (Topic.id t = uuid)); [congruence|]. exact IH.
  - destruct (decide (Topic.id t = uuid)); [by f_equal|]. exact IH.
Qed.

Lemma filter_map_topic_eq (uuid : string) (f : NewsTopic -> NewsTopic)
    (topics : list NewsTopic) :
  (forall t, Topic.id (f t) = Topic.id t) ->
  filter (fun t => Topic.id t = uuid) (map_topic uuid f topics)
  = map f (filter (fun t => Topic.id t = uuid) topics).
Proof.
  intros Hid. induction topics as [|t ts IH]; simpl; [done|].
  rewrite !filter_cons.
  destruct (decide (Topic.id t = uuid)) as [Heq|Hneq].
  - rewrite Hid. destruct (decide (Topic.id t = uuid)); [|done]. simpl. by f_equal.
  - destruct (decide (Topic.id t = uuid)); [done|]. exact IH.
Qed.

Lemma filter_delete_ne (uuid id : string) (topics : list NewsTopic) :
  id <> uuid ->
  filter (fun t => Topic.id t = uuid) (filter (fun t => Topic.id t <> id) topics)
  = filter (fun t => Topic.id t = uuid) topics.
Proof.
  intros Hne. induction topics as [|t ts IH]; simpl; [done|].
  rewrite !filter_cons.
  destruct (decide (Topic.id t <> id)) as [Hk|Hk].
  - rewrite filter_cons. destruct (decide (Topic.id t = uuid)); [by f_equal|]. exact IH.
  - destruct (decide (Topic.id t = uuid)); [|exact IH].
    exfalso. apply Hk. congruence.
Qed.

(** [promise_all] on the activation of another topic leaves [uuid] alone. *)
Lemma promise_all_other (uuid id : string) (t0 : NewsTopic) rs im (e : Enrichment)
    (w : World) :
  id <> uuid -> enriching uuid t0 rs im w -> enriching uuid t0 rs im (promise_all id e w).
Proof.
  intros Hne [Hlook Hmine]. unfold promise_all, enriching, mine.
  destruct (allSettled e); [|destruct (rssPromise e), (imagePromise e)]; simpl;
    rewrite lookup_insert_ne by done;
    try rewrite filter_map_topic_ne by done; done.
Qed.

Lemma step_enriching (uuid : string) (t0 : NewsTopic) rs im (w w' : World) (ev : Event) :
  enriching uuid t0 rs im w ->
  touches uuid ev = false ->
  step w ev = Some w' ->
  enriching uuid t0 (rs ∪ rss_seen uuid [ev]) (im ∪ image_seen uuid [ev]) w'.
Proof.
  intros Hinv Htouch Hstep. pose proof Hinv as [Hlook Hmine].
  destruct ev as [u n d c | id r | id resp | id n urls c | id];
    unfold handleAddTopic, handleUpdateTopic, handleDeleteTopic in *; simpl in *.
  - (* AddTopic *)
    destruct (decide _) as [|Hfresh]; [done|]. injection Hstep as <-.
    rewrite !first_seen_None_r.
    assert (u <> uuid) as Hne.
    { intros ->. apply Hfresh. right. by rewrite Hlook. }
    split; simpl.
    + by rewrite lookup_insert_ne.
    + unfold mine in *. simpl. rewrite filter_app, Hmine.
      rewrite filter_cons. simpl. destruct (decide (u = uuid)); [done|].
      by rewrite filter_nil.
  - (* RssSettled *)
    destruct (decide (id = uuid)) as [->|Hne].
    + rewrite Hlook in Hstep. destruct rs as [r0|]; simpl in Hstep.
      { destruct r0; done. }
      injection Hstep as <-. rewrite first_seen_None_l, first_seen_None_r.
      unfold enriching, mine in *.
      destruct r as [urls|], im as [resp|]; simpl in *;
        rewrite ?lookup_insert_eq, ?filter_map_topic_eq, ?Hmine by done; done.
    + rewrite !first_seen_None_r.
      destruct (enrichments w !! id) as [e|]; [|done].
      destruct (rssPromise e); try done. injection Hstep as <-.
      by apply promise_all_other.
  - (* ImageSettled *)
    destruct (decide (id = uuid)) as [->|Hne].
    + rewrite Hlook in Hstep. destruct im as [resp0|]; simpl in Hstep; [done|].
      injection Hstep as <-. rewrite first_seen_None_l, first_seen_None_r.
      unfold enriching, mine in *.
      destruct rs as [[urls|]|]; simpl in *;
        rewrite ?lookup_insert_eq, ?filter_map_topic_eq, ?Hmine by done; done.
    + rewrite !first_seen_None_r.
      destruct (enrichments w !! id) as [e|]; [|done].
      destruct (imagePromise e); try done. injection Hstep as <-.
      by apply promise_all_other.
  - (* UpdateTopic *)
    injection Hstep as <-. rewrite !first_seen_None_r.
    apply bool_decide_eq_false in Htouch.
    split; [done|]. unfold mine in *. simpl.
    by rewrite filter_map_topic_ne.
  - (* DeleteTopic *)
    injection Hstep as <-. rewrite !first_seen_None_r.
    apply bool_decide_eq_false in Htouch.
    split; [done|]. unfold mine in *. simpl.
    by rewrite filter_delete_ne.
Qed.

Lemma first_seen_assoc {A} (x y z : option A) : (x ∪ y) ∪ z = x ∪ (y ∪ z).
Proof. by destruct x, y, z. Qed.

Lemma rss_seen_cons (uuid : string) (ev : Event) (evs : list Event) :
  rss_seen uuid (ev :: evs) = rss_seen uuid [ev] ∪ rss_seen uuid evs.
Proof.
  destruct ev; simpl; rewrite ?first_seen_None_l; try done.
  destruct (decide _); [by destruct (rss_seen uuid evs) | by rewrite first_seen_None_l].
Qed.

Lemma image_seen_cons (uuid : string) (ev : Event) (evs : list Event) :
  image_seen uuid (ev :: evs) = image_seen uuid [ev] ∪ image_seen uuid evs.
Proof.
  destruct ev; simpl; rewrite ?first_seen_None_l; try done.
  destruct (decide _); [by destruct (image_seen uuid evs) | by rewrite first_seen_None_l].
Qed.

Lemma run_enriching (uuid : string) (t0 : NewsTopic) (evs : list Event) :
  forall rs im (w w' : World),
    enriching uuid t0 rs im w ->
    Forall (fun ev => touches uuid ev = false) evs ->
    run step w evs = Some w' ->
    enriching uuid t0 (rs ∪ rss_seen uuid evs) (im ∪ image_seen uuid evs) w'.
Proof.
  induction evs as [|ev evs IH]; intros rs im w w' Hinv Hallowed Hrun.
  - simpl in *. injection Hrun as <-. by rewrite !first_seen_None_r.
  - simpl in Hrun. destruct (step w ev) as [w1|] eqn:Hstep; [|done]. simpl in Hrun.
    inversion Hallowed as [|? ? Hev Hevs]; subst.
    rewrite rss_seen_cons, image_seen_cons, <- !first_seen_assoc.
    eapply IH; [|done|done]. by eapply step_enriching.
Qed.

(** C8, as the code has it.  [handleAddTopic] appends the topic at once, with
    [isLoading = true] and no feed.  Whatever else happens afterwards, short
    of an edit or a removal of that topic by hand, the registry keeps exactly
    one topic of that id, and it is the inserted topic updated in place:
    - once the feed promise has been fulfilled and the image promise has
      settled, with [rssUrls] set to the validated feeds, [customImage] to
      what [generateCoverImage] returned and [isLoading = false];
    - once the feed promise has been rejected, with [isLoading = false] only;
    - unchanged before that. *)
Theorem addTopic_enrichment (w w1 w2 : World) (uuid name description : string)
    (color : option string) (evs : list Event) :
  step w (AddTopic uuid name description color) = Some w1 ->
  run step w1 evs = Some w2 ->
  Forall (fun ev => touches uuid ev = false) evs ->
  let t0 := newTopic uuid name description color in
  App.topics (state w1) = App.topics (state w) ++ [t0] /\
  Topic.isLoading t0 = Some true /\ Topic.rssUrls t0 = [] /\
  exists t,
    filter (fun t => Topic.id t = uuid) (App.topics (state w2)) = [t] /\
    match rss_seen uuid evs, image_seen uuid evs with
    | Some None, _ =>
        t = loaded t0 /\ Topic.isLoading t = Some false /\
        Topic.rssUrls t = [] /\ Topic.customImage t = None
    | Some (Some validUrls), Some response =>
        t = enriched validUrls (generateCoverImage response) t0 /\
        Topic.isLoading t = Some false /\ Topic.rssUrls t = validUrls /\
        Topic.customImage t = Some (generateCoverImage response)
    | _, _ => t = t0
    end.
Proof.
  intros Hadd Hrun Hallowed t0. simpl in Hadd. unfold handleAddTopic in Hadd.
  destruct (decide _) as [|Hfresh]; [done|]. injection Hadd as <-.
  split; [done|]. split; [done|]. split; [done|].
  assert (enriching uuid t0 None None
            {| state := set_topics (fun topics => topics ++ [t0]) (state w);
               enrichments := <[uuid := enrichment_after None None]> (enrichments w) |})
    as Hinv.
  { split; simpl; [by rewrite lookup_insert_eq|].
    unfold mine. simpl. rewrite filter_app, filter_id_fresh by tauto.
    rewrite filter_cons. simpl. destruct (decide (uuid = uuid)); done. }
  pose proof (run_enriching uuid t0 evs None None _ _ Hinv Hallowed Hrun) as [_ Hmine].
  rewrite !first_seen_None_l in Hmine. unfold mine in Hmine.
  eexists. split; [exact Hmine|].
  unfold topic_after.
  destruct (rss_seen uuid evs) as [[urls|]|], (image_seen uuid evs) as [resp|]; done.
Qed.

Definition empty_world : World := {| state := empty_state; enrichments := ∅ |}.

Lemma addTopic_enrichment_witness :
  exists w1 w2,
    step empty_world (AddTopic "u1" "Chess" "chess news" None) = Some w1 /\
    run step w1 [ImageSettled "u1" (ImageParts [Some "AAAA"]);
                 RssSettled "u1" (Some ["https://feed.example/rss"])] = Some w2 /\
    exists t,
      filter (fun t => Topic.id t = "u1") (App.topics (state w2)) = [t] /\
      Topic.isLoading t = Some false /\
      Topic.rssUrls t = ["https://feed.example/rss"] /\
      Topic.customImage t = Some "data:image/png;base64,AAAA".
Proof.
  eexists _, _. split; [reflexivity|]. split; [reflexivity|].
  destruct (addTopic_enrichment empty_world _ _ "u1" "Chess" "chess news" None
              [ImageSettled "u1" (ImageParts [Some "AAAA"]);
               RssSettled "u1" (Some ["https://feed.example/rss"])]
              eq_refl eq_refl ltac:(repeat constructor))
    as (_ & _ & _ & t & Hmine & Ht).
  simpl in Ht. destruct Ht as (_ & Hload & Hurls & Himg).
  exists t. split; [exact Hmine|]. split; [exact Hload|]. split; [exact Hurls|].
  exact Himg.
Defined.

(** C8 as stated fails when feed discovery rejects although an image was
    produced: the [catch] handler runs, the image is never stored. *)
Lemma addTopic_image_dropped :
  exists w2,
    run step empty_world
      [AddTopic "u1" "Chess" "chess news" None;
       ImageSettled "u1" (ImageParts [Some "AAAA"]);
       RssSettled "u1" None] = Some w2 /\
    generateCoverImage (ImageParts [Some "AAAA"]) = "data:image/png;base64,AAAA" /\
    map Topic.isLoading (App.topics (state w2)) = [Some false] /\
    map Topic.customImage (App.topics (state w2)) = [None] /\
    ~ map Topic.customImage (App.topics (state w2))
      = [Some (generateCoverImage (ImageParts [Some "AAAA"]))].
Proof.
  eexists. split; [reflexivity|]. repeat split; try reflexivity. discriminate.
Qed.

End RegistryFacts.

(** ** App.tsx: the generation session controller *)

Module Session.

(** *** The state updates passed to [setState] *)

(** Start of [handleGenerationFlow]. *)
Definition reset_state (category : string) (customImage : option string) (prev : AppState)
    : AppState :=
  {| App.script := None;
     App.audioSegments := [];
     App.isGeneratingAudio := false;
     App.status := Status.scripting;
     App.error := None;
     App.notification := App.notification prev;
     App.currentEpisodeId := None;
     App.activeCategory := Some category;
     App.customCoverUrl := customImage;
     App.library := App.library prev;
     App.topics := App.topics prev |}.

(** [{ ...prev, status, isGeneratingAudio, error }], shared by the updates
    that only move the status. *)
Definition set_status (status : GenerationStatus) (isGeneratingAudio : bool)
    (error : option string) (prev : AppState) : AppState :=
  {| App.script := App.script prev;
     App.audioSegments := App.audioSegments prev;
     App.isGeneratingAudio := isGeneratingAudio;
     App.status := status;
     App.error := error;
     App.notification := App.notification prev;
     App.currentEpisodeId := App.currentEpisodeId prev;
     App.activeCategory := App.activeCategory prev;
     App.customCoverUrl := App.customCoverUrl prev;
     App.library := App.library prev;
     App.topics := App.topics prev |}.

(** [{ ...prev, script, status: 'synthesizing', isGeneratingAudio: true }] *)
Definition set_script (script : PodcastScript) (prev : AppState) : AppState :=
  {| App.script := Some script;
     App.audioSegments := App.audioSegments prev;
     App.isGeneratingAudio := true;
     App.status := Status.synthesizing;
     App.error := App.error prev;
     App.notification := App.notification prev;
     App.currentEpisodeId := App.currentEpisodeId prev;
     App.activeCategory := App.activeCategory prev;
     App.customCoverUrl := App.customCoverUrl prev;
     App.library := App.library prev;
     App.topics := App.topics prev |}.

(** [{ ...prev, audioSegments: f(prev.audioSegments) }] *)
Definition set_audioSegments (f : list string -> list string) (prev : AppState) : AppState :=
  {| App.script := App.script prev;
     App.audioSegments := f (App.audioSegments prev);
     App.isGeneratingAudio := App.isGeneratingAudio prev;
     App.status := App.status prev;
     App.error := App.error prev;
     App.notification := App.notification prev;
     App.currentEpisodeId := App.currentEpisodeId prev;
     App.activeCategory := App.activeCategory prev;
     App.customCoverUrl := App.customCoverUrl prev;
     App.library := App.library prev;
     App.topics := App.topics prev |}.

(** [{ ...prev, customCoverUrl: generatedUrl }] *)
Definition set_customCoverUrl (generatedUrl : string) (prev : AppState) : AppState :=
  {| App.script := App.script prev;
     App.audioSegments := App.audioSegments prev;
     App.isGeneratingAudio := App.isGeneratingAudio prev;
     App.status := App.status prev;
     App.error := App.error prev;
     App.notification := App.notification prev;
     App.currentEpisodeId := App.currentEpisodeId prev;
     App.activeCategory := App.activeCategory prev;
     App.customCoverUrl := Some generatedUrl;
     App.library := App.library prev;
     App.topics := App.topics prev |}.

(** The update of [addToLibrary]. *)
Definition push_episode (newEpisode : PodcastEpisode) (category : string)
    (customImage : option string) (prev : AppState) : AppState :=
  {| App.script := App.script prev;
     App.audioSegments := App.audioSegments prev;
     App.isGeneratingAudio := App.isGeneratingAudio prev;
     App.status := App.status prev;
     App.error := App.error prev;
     App.notification := Some "Episode saved to Library";
     App.currentEpisodeId := Some (Episode.id newEpisode);
     App.activeCategory := Some category;
     App.customCoverUrl := customImage;
     App.library := newEpisode :: App.library prev;
     App.topics := App.topics prev |}.

(** *** Activations of [handleGenerationFlow] *)

(** The arguments that steer the flow ([input], [type] and [options] only
    travel to the script service) and the epoch captured on entry. *)
Record Args := {
  currentGenId : nat;
  category : string;
  customImage : option string;
  shouldGenerateImage : bool
}.

(** The variables of the closure once the script is there.
    [imagePending] tells whether [imageGenPromise] is still pending. *)
Record Locals := {
  script : PodcastScript;
  scriptChunks : list PodcastScript;
  audioUrls : list string;
  finalCoverUrl : option string;
  imagePending : bool
}.

(** The [await] at which the main flow (with its trailing background loop)
    is suspended. *)
Inductive Point :=
| AwaitFirstAudio
| AwaitChunk (i : nat)
| AwaitImageGen
| Returned.

Inductive Activation :=
| AwaitScript (a : Args)
| Running (a : Args) (l : Locals) (p : Point)
| Ended (a : Args).

(** What the controller does that can be observed from outside: the calls
    it issues, the settlements it receives and the episodes it commits, each
    tagged with the epoch of the activation. *)
Inductive Action :=
| Begin (sid : nat) (category : string) (customImage : option string)
    (shouldGenerateImage : bool)
| ScriptSettled (sid : nat) (r : option string + PodcastScript)
| CallImage (sid : nat) (topic : string)
| ImageSettled (sid : nat) (generatedUrl : string)
| CallAudio (sid i : nat) (chunk : PodcastScript)
| AudioSettled (sid i : nat) (r : option string)
| Commit (sid : nat) (newEpisode : PodcastEpisode).

Record World := {
  generationIdRef : nat;
  state : AppState;
  activations : gmap nat Activation;
  trace : list Action;
  uuids : nat;
  clock : nat
}.

Definition setState (f : AppState -> AppState) (w : World) : World :=
  {| generationIdRef := generationIdRef w; state := f (state w);
     activations := activations w; trace := trace w;
     uuids := uuids w; clock := clock w |}.

Definition record (act : Action) (w : World) : World :=
  {| generationIdRef := generationIdRef w; state := state w;
     activations := activations w; trace := trace w ++ [act];
     uuids := uuids w; clock := clock w |}.

Definition suspend (sid : nat) (act : Activation) (w : World) : World :=
  {| generationIdRef := generationIdRef w; state := state w;
     activations := <[sid := act]> (activations w); trace := trace w;
     uuids := uuids w; clock := clock w |}.

Definition tick (w : World) : World :=
  {| generationIdRef := generationIdRef w; state := state w;
     activations := activations w; trace := trace w;
     uuids := uuids w; clock := S (clock w) |}.

Definition with_audioUrls (audioUrls' : list string) (l : Locals) : Locals :=
  {| script := script l; scriptChunks := scriptChunks l; audioUrls := audioUrls';
     finalCoverUrl := finalCoverUrl l; imagePending := imagePending l |}.

Definition with_finalCoverUrl (url : option string) (l : Locals) : Locals :=
  {| script := script l; scriptChunks := scriptChunks l; audioUrls := audioUrls l;
     finalCoverUrl := url; imagePending := imagePending l |}.

Definition image_settled (l : Locals) : Locals :=
  {| script := script l; scriptChunks := scriptChunks l; audioUrls := audioUrls l;
     finalCoverUrl := finalCoverUrl l; imagePending := false |}.

(** *** The handlers *)

Definition addToLibrary (sid : nat) (script : PodcastScript) (audioSegments : list string)
    (category : string) (customImage : option string) (w : World) : World :=
  let newEpisode :=
    {| Episode.id := uuids w; Episode.script := script;
       Episode.audioSegments := audioSegments; Episode.createdAt := clock w;
       Episode.category := category; Episode.customImage := customImage |} in
  record (Commit sid newEpisode)
    {| generationIdRef := generationIdRef w;
       state := push_episode newEpisode category customImage (state w);
       activations := activations w; trace := trace w;
       uuids := S (uuids w); clock := clock w |}.

Definition handleStopGeneration (w : World) : World :=
  {| generationIdRef := generationIdRef w + 1;
     state := set_status Status.idle false None (state w);
     activations := activations w; trace := trace w;
     uuids := uuids w; clock := clock w |}.

(** [handleGenerationFlow] up to [await generateScript(...)]. *)
Definition handleGenerationFlow (category : string) (customImage : option string)
    (shouldGenerateImage : bool) (w : World) : World :=
  let currentGenId := generationIdRef w + 1 in
  let a := {| currentGenId := currentGenId; category := category;
              customImage := customImage;
              shouldGenerateImage := shouldGenerateImage |} in
  {| generationIdRef := currentGenId;
     state := reset_state category customImage (state w);
     activations := <[currentGenId := AwaitScript a]> (activations w);
     trace := trace w ++ [Begin currentGenId category customImage shouldGenerateImage];
     uuids := uuids w; clock := clock w |}.

(** After [await imageGenPromise]: the epoch check, the final status and the
    commit. *)
Definition finish (a : Args) (l : Locals) (w : World) : World :=
  let w' :=
    if decide (generationIdRef w = currentGenId a) then
      addToLibrary (currentGenId a) (script l) (audioUrls l) (category a) (finalCoverUrl l)
        (setState (set_status Status.complete false (App.error (state w))) w)
    else w in
  suspend (currentGenId a) (Running a l Returned) w'.

(** [await imageGenPromise]: no suspension when the promise has settled. *)
Definition after_loop (a : Args) (l : Locals) (w : World) : World :=
  if imagePending l
  then suspend (currentGenId a) (Running a l AwaitImageGen) w
  else finish a l w.

(** The head of the background loop at index [i]: the bound, the epoch
    check, and the request for chunk [i]. *)
Definition loop_from (i : nat) (a : Args) (l : Locals) (w : World) : World :=
  match scriptChunks l !! i with
  | Some chunk =>
      if decide (generationIdRef w <> currentGenId a) then after_loop a l w
      else suspend (currentGenId a) (Running a l (AwaitChunk i))
             (record (CallAudio (currentGenId a) i chunk) w)
  | None => after_loop a l w
  end.

(** The flow resumes from [await generateScript(...)]. *)
Definition on_script (a : Args) (r : option string + PodcastScript) (w : World)
    : option World :=
  let sid := currentGenId a in
  match r with
  | inl e =>
      Some (suspend sid (Ended a)
              (if decide (generationIdRef w = sid)
               then setState (set_status Status.error false
                                (Some (default "An unexpected error occurred." e))) w
               else w))
  | inr script =>
      if decide (generationIdRef w <> sid) then Some (suspend sid (Ended a) w)
      else
        let wantsImage := shouldGenerateImage a && negb (truthy (customImage a)) in
        let w1 := if wantsImage then record (CallImage sid (topic script)) w else w in
        let w2 := setState (set_script script) w1 in
        scriptChunks ← chunkScript script 6;
        let l := {| script := script; scriptChunks := scriptChunks; audioUrls := [];
                    finalCoverUrl := customImage a; imagePending := wantsImage |} in
        match scriptChunks with
        | chunk0 :: _ =>
            Some (suspend sid (Running a l AwaitFirstAudio)
                    (record (CallAudio sid 0 chunk0) w2))
        | [] => Some (loop_from 1 a l w2)
        end
  end.

(** The flow resumes from [await generateAudio(scriptChunks[0])]. *)
Definition on_first_audio (a : Args) (l : Locals) (r : option string) (w : World) : World :=
  let sid := currentGenId a in
  match r with
  | Some firstAudio =>
      if decide (generationIdRef w <> sid) then suspend sid (Running a l Returned) w
      else
        let l' := with_audioUrls (audioUrls l ++ [firstAudio]) l in
        loop_from 1 a l' (setState (set_audioSegments (fun _ => audioUrls l')) w)
  | None =>
      suspend sid (Running a l Returned)
        (setState (set_status Status.error false (Some "Failed to generate audio.")) w)
  end.

(** The background loop resumes from [await generateAudio(scriptChunks[i])]. *)
Definition on_chunk_audio (i : nat) (a : Args) (l : Locals) (r : option string) (w : World)
    : World :=
  match r with
  | Some audio =>
      if decide (generationIdRef w <> currentGenId a) then after_loop a l w
      else
        let l' := with_audioUrls (audioUrls l ++ [audio]) l in
        loop_from (S i) a l'
          (setState (set_audioSegments (fun prev => prev ++ [audio])) w)
  | None => loop_from (S i) a l w
  end.

(** The image task resumes from [await generateCoverImage(script.topic)],
    settles [imageGenPromise], and the main flow goes on if it was waiting
    for it. *)
Definition on_image (a : Args) (l : Locals) (p : Point) (generatedUrl : string) (w : World)
    : World :=
  let stored :=
    bool_decide (generationIdRef w = currentGenId a) && truthy (Some generatedUrl) in
  let l1 := if stored then with_finalCoverUrl (Some generatedUrl) l else l in
  let w1 := if stored then setState (set_customCoverUrl generatedUrl) w else w in
  let l2 := image_settled l1 in
  match p with
  | AwaitImageGen => finish a l2 w1
  | _ => suspend (currentGenId a) (Running a l2 p) w1
  end.

Inductive Event :=
| StartGeneration (category : string) (customImage : option string)
    (shouldGenerateImage : bool)
| StopGeneration
| ScriptDone (sid : nat) (r : option string + PodcastScript)
| ImageDone (sid : nat) (response : ImageResponse)
| AudioDone (sid : nat) (r : option string).

Definition step (w : World) (ev : Event) : option World :=
  tick <$>
  match ev with
  | StartGeneration category customImage shouldGenerateImage =>
      Some (handleGenerationFlow category customImage shouldGenerateImage w)
  | StopGeneration => Some (handleStopGeneration w)
  | ScriptDone sid r =>
      match activations w !! sid with
      | Some (AwaitScript a) => on_script a r (record (ScriptSettled sid r) w)
      | _ => None
      end
  | ImageDone sid response =>
      match activations w !! sid with
      | Some (Running a l p) =>
          if imagePending l
          then Some (on_image a l p (generateCoverImage response)
                       (record (ImageSettled sid (generateCoverImage response)) w))
          else None
      | _ => None
      end
  | AudioDone sid r =>
      match activations w !! sid with
      | Some (Running a l AwaitFirstAudio) =>
          Some (on_first_audio a l r (record (AudioSettled sid 0 r) w))
      | Some (Running a l (AwaitChunk i)) =>
          Some (on_chunk_audio i a l r (record (AudioSettled sid i r) w))
      | _ => None
      end
  end.

(** The application as it boots: epoch 0, nothing in flight. *)
Definition boot (st : AppState) : World :=
  {| generationIdRef := 0; state := st; activations := ∅; trace := [];
     uuids := 0; clock := 0 |}.

End Session.

(** *** What the trace of one activation looks like *)

Module SessionFacts.
Import Session.

Definition sid_of (act : Action) : nat :=
  match act with
  | Begin sid _ _ _ | ScriptSettled sid _ | CallImage sid _ | ImageSettled sid _
  | CallAudio sid _ _ | AudioSettled sid _ _ | Commit sid _ => sid
  end.

(** The actions of the activation [sid], in the order they happened. *)
Definition proj (sid : nat) (tr : list Action) : list Action :=
  filter (fun act => sid_of act = sid) tr.

Inductive AudioAct :=
| ACall (i : nat) (chunk : PodcastScript)
| ARet (i : nat) (r : option string).

Definition audio_act (act : Action) : option AudioAct :=
  match act with
  | CallAudio _ i chunk => Some (ACall i chunk)
  | AudioSettled _ i r => Some (ARet i r)
  | _ => None
  end.

Inductive ImageAct :=
| ICall (topic : string)
| IRet (generatedUrl : string).

Definition image_act (act : Action) : option ImageAct :=
  match act with
  | CallImage _ topic => Some (ICall topic)
  | ImageSettled _ generatedUrl => Some (IRet generatedUrl)
  | _ => None
  end.

Definition commit_act (act : Action) : option PodcastEpisode :=
  match act with
  | Commit _ newEpisode => Some newEpisode
  | _ => None
  end.

Definition audio_trace (tr : list Action) : list AudioAct := omap audio_act tr.
Definition image_trace (tr : list Action) : list ImageAct := omap image_act tr.
Definition commits (tr : list Action) : list PodcastEpisode := omap commit_act tr.

(** Strictly sequential synthesis: chunk [i] is requested, its attempt
    settles with [rs !! i], and only then chunk [i + 1] is requested. *)
Fixpoint alt (i : nat) (chunks : list PodcastScript) (rs : list (option string))
    : list AudioAct :=
  match chunks, rs with
  | chunk :: chunks', r :: rs' => ACall i chunk :: ARet i r :: alt (S i) chunks' rs'
  | _, _ => []
  end.

(** The first attempt, if it has settled, succeeded. *)
Definition first_ok (rs : list (option string)) : Prop :=
  match rs with
  | None :: _ => False
  | _ => True
  end.

Definition begin_of (a : Args) : Action :=
  Begin (currentGenId a) (category a) (customImage a) (shouldGenerateImage a).

Definition wants_image (a : Args) : bool :=
  shouldGenerateImage a && negb (truthy (customImage a)).

(** The cover image available after the actions [body]: the generated one
    if the image call has come back with one, else the preset one. *)
Definition cover (a : Args) (body : list Action) : option string :=
  match image_trace body with
  | [ICall _; IRet generatedUrl] =>
      if truthy (Some generatedUrl) then Some generatedUrl else customImage a
  | _ => customImage a
  end.

Definition image_ok (g : nat) (a : Args) (l : Locals) (body : list Action) : Prop :=
  (currentGenId a = g -> finalCoverUrl l = cover a body) /\
  ((image_trace body = [] /\ wants_image a = false /\ imagePending l = false) \/
   (image_trace body = [ICall (topic (script l))] /\ wants_image a = true /\
    imagePending l = true) \/
   (exists generatedUrl,
      image_trace body = [ICall (topic (script l)); IRet generatedUrl] /\
      wants_image a = true /\ imagePending l = false)).

Definition episode_of (a : Args) (l : Locals) (rs : list (option string))
    (body : list Action) (ep : PodcastEpisode) : Prop :=
  Episode.script ep = script l /\
  Episode.audioSegments ep = omap id rs /\
  Episode.category ep = category a /\
  Episode.customImage ep = cover a body.

Definition point_ok (g : nat) (a : Args) (l : Locals) (p : Point) (body : list Action)
    : Prop :=
  exists rs : list (option string),
    (currentGenId a = g -> audioUrls l = omap id rs) /\
    match p with
    | AwaitFirstAudio =>
        rs = [] /\ commits body = [] /\
        exists chunk, scriptChunks l !! 0 = Some chunk /\ audio_trace body = [ACall 0 chunk]
    | AwaitChunk i =>
        length rs = i /\ 1 <= i /\ first_ok rs /\ commits body = [] /\
        exists chunk, scriptChunks l !! i = Some chunk /\
          audio_trace body = alt 0 (scriptChunks l) rs ++ [ACall i chunk]
    | AwaitImageGen =>
        audio_trace body = alt 0 (scriptChunks l) rs /\
        length rs <= length (scriptChunks l) /\ first_ok rs /\
        (currentGenId a = g -> length rs = length (scriptChunks l)) /\
        imagePending l = true /\ commits body = []
    | Returned =>
        audio_trace body = alt 0 (scriptChunks l) rs /\
        length rs <= length (scriptChunks l) /\
        ((commits body = [] /\ (first_ok rs \/ rs = [None]) /\
          (currentGenId a = g -> rs = [None])) \/
         (exists body' ep,
            body = body' ++ [Commit (currentGenId a) ep] /\ commits body' = [] /\
            imagePending l = false /\ length rs = length (scriptChunks l) /\
            first_ok rs /\ episode_of a l rs body' ep))
    end.

(** The invariant of one activation: [tr] is its part of the trace and [g]
    the current epoch. *)
Definition sess_inv (g sid : nat) (act : Activation) (tr : list Action) : Prop :=
  match act with
  | AwaitScript a => currentGenId a = sid /\ tr = [begin_of a]
  | Ended a => currentGenId a = sid /\ exists r, tr = [begin_of a; ScriptSettled sid r]
  | Running a l p =>
      currentGenId a = sid /\
      chunkScript (script l) 6 = Some (scriptChunks l) /\
      exists body,
        tr = begin_of a :: ScriptSettled sid (inr (script l)) :: body /\
        image_ok g a l body /\ point_ok g a l p body
  end.

Section Invariant.

(** The library the application held when it booted. *)
Variable library0 : list PodcastEpisode.

Record winv (w : World) : Prop := {
  inv_sessions : forall sid act,
    activations w !! sid = Some act ->
    1 <= sid <= generationIdRef w /\
    sess_inv (generationIdRef w) sid act (proj sid (trace w));
  inv_trace : forall act, act ∈ trace w -> is_Some (activations w !! sid_of act);
  inv_library : App.library (state w) = rev (commits (trace w)) ++ library0;
  inv_script : forall a l p,
    activations w !! generationIdRef w = Some (Running a l p) ->
    App.script (state w) = Some (script l)
}.

End Invariant.

Lemma alt_snoc (chunks : list PodcastScript) : forall i rs r chunk,
  chunks !! length rs = Some chunk ->
  alt i chunks (rs ++ [r])
  = alt i chunks rs ++ [ACall (i + length rs) chunk; ARet (i + length rs) r].
Proof.
  induction chunks as [|c cs IH]; intros i rs r chunk Hlook; [done|].
  destruct rs as [|r0 rs]; simpl in *.
  - injection Hlook as ->. rewrite Nat.add_0_r. by destruct cs.
  - rewrite (IH (S i) rs r chunk Hlook).
    by replace (S i + length rs) with (i + S (length rs)) by lia.
Qed.

Lemma alt_length (chunks : list PodcastScript) : forall i rs,
  length rs <= length chunks -> length (alt i chunks rs) = 2 * length rs.
Proof.
  induction chunks as [|c cs IH]; intros i [|r rs] Hlen; simpl in *; try done; try lia.
  rewrite IH by lia. lia.
Qed.

Lemma proj_app (sid : nat) (tr1 tr2 : list Action) :
  proj sid (tr1 ++ tr2) = proj sid tr1 ++ proj sid tr2.
Proof. apply filter_app. Qed.

Lemma proj_snoc_eq (sid : nat) (tr : list Action) (act : Action) :
  sid_of act = sid -> proj sid (tr ++ [act]) = proj sid tr ++ [act].
Proof.
  intros H. rewrite proj_app. f_equal. unfold proj.
  rewrite filter_cons, filter_nil. by destruct (decide _).
Qed.

Lemma proj_snoc_ne (sid : nat) (tr : list Action) (act : Action) :
  sid_of act <> sid -> proj sid (tr ++ [act]) = proj sid tr.
Proof.
  intros H. rewrite proj_app. unfold proj at 2.
  rewrite filter_cons, filter_nil. destruct (decide _); [done|]. by rewrite app_nil_r.
Qed.

Lemma audio_trace_snoc (tr : list Action) (act : Action) :
  audio_trace (tr ++ [act]) = audio_trace tr ++ option_list (audio_act act).
Proof. unfold audio_trace. rewrite omap_app. simpl. by destruct (audio_act act). Qed.

Lemma image_trace_snoc (tr : list Action) (act : Action) :
  image_trace (tr ++ [act]) = image_trace tr ++ option_list (image_act act).
Proof. unfold image_trace. rewrite omap_app. simpl. by destruct (image_act act). Qed.

Lemma commits_snoc (tr : list Action) (act : Action) :
  commits (tr ++ [act]) = commits tr ++ option_list (commit_act act).
Proof. unfold commits. rewrite omap_app. simpl. by destruct (commit_act act). Qed.

Lemma cover_snoc_other (a : Args) (body : list Action) (act : Action) :
  image_act act = None -> cover a (body ++ [act]) = cover a body.
Proof. intros H. unfold cover. by rewrite image_trace_snoc, H, app_nil_r. Qed.

Lemma image_ok_snoc_other (g : nat) (a : Args) (l l' : Locals) (body : list Action)
    (act : Action) :
  image_act act = None ->
  script l' = script l -> finalCoverUrl l' = finalCoverUrl l ->
  imagePending l' = imagePending l ->
  image_ok g a l body -> image_ok g a l' (body ++ [act]).
Proof.
  intros Hact Hs Hc Hp [Hcover Hshape]. unfold image_ok.
  rewrite cover_snoc_other, image_trace_snoc, Hact, app_nil_r, Hs, Hc, Hp by done.
  done.
Qed.

Lemma image_ok_locals (g : nat) (a : Args) (l l' : Locals) (body : list Action) :
  script l' = script l -> finalCoverUrl l' = finalCoverUrl l ->
  imagePending l' = imagePending l ->
  image_ok g a l body -> image_ok g a l' body.
Proof.
  intros Hs Hc Hp [Hcover Hshape]. unfold image_ok. by rewrite Hs, Hc, Hp.
Qed.

(** The background flow between two awaits: the results [rs] are in, no
    audio call is pending, nothing is committed. *)
Definition mid (w : World) (a : Args) (l : Locals) (rs : list (option string)) : Prop :=
  chunkScript (script l) 6 = Some (scriptChunks l) /\
  exists body,
    proj (currentGenId a) (trace w)
    = begin_of a :: ScriptSettled (currentGenId a) (inr (script l)) :: body /\
    image_ok (generationIdRef w) a l body /\
    audio_trace body = alt 0 (scriptChunks l) rs /\
    length rs <= length (scriptChunks l) /\ first_ok rs /\
    (currentGenId a = generationIdRef w -> audioUrls l = omap id rs) /\
    commits body = [].

Definition settled_as (sid : nat) (w' : World) : Prop :=
  exists act',
    activations w' !! sid = Some act' /\
    sess_inv (generationIdRef w') sid act' (proj sid (trace w')).

Lemma finish_inv (w : World) (a : Args) (l : Locals) (rs : list (option string)) :
  mid w a l rs ->
  (currentGenId a = generationIdRef w -> length rs = length (scriptChunks l)) ->
  imagePending l = false ->
  settled_as (currentGenId a) (finish a l w).
Proof.
  intros (Hchunks & body & Hproj & Himg & Haudio & Hlen & Hfirst & Hurls & Hcommits)
    Hall Hpend.
  exists (Running a l Returned). unfold finish.
  destruct (decide (generationIdRef w = currentGenId a)) as [Hcur|Hstale];
    cbn [activations suspend addToLibrary record setState trace generationIdRef].
  - rewrite lookup_insert_eq. split; [done|].
    rewrite proj_snoc_eq, Hproj by done. cbn [sess_inv].
    split; [done|]. split; [done|]. eexists. split; [rewrite <- !app_comm_cons; done|].
    split; [by apply (image_ok_snoc_other _ _ l)|].
    exists rs. split; [done|].
    rewrite audio_trace_snoc, app_nil_r. split; [done|]. split; [done|].
    right. eexists _, _. split; [done|]. split; [done|]. split; [done|].
    split; [auto|]. split; [done|].
    destruct Himg as [Hcover _]. repeat split; simpl; auto.
  - rewrite lookup_insert_eq. split; [done|]. rewrite Hproj. cbn [sess_inv].
    split; [done|]. split; [done|]. eexists. split; [done|]. split; [done|].
    exists rs. split; [done|]. split; [done|]. split; [done|].
    left. split; [done|]. split; [by left|]. intros Hc. by rewrite Hc in Hstale.
Qed.

Lemma after_loop_inv (w : World) (a : Args) (l : Locals) (rs : list (option string)) :
  mid w a l rs ->
  (currentGenId a = generationIdRef w -> length rs = length (scriptChunks l)) ->
  settled_as (currentGenId a) (after_loop a l w).
Proof.
  intros Hmid Hall. unfold after_loop.
  destruct (imagePending l) eqn:Hpend; [|by eapply finish_inv].
  destruct Hmid as
    (Hchunks & body & Hproj & Himg & Haudio & Hlen & Hfirst & Hurls & Hcommits).
  exists (Running a l AwaitImageGen).
  cbn [activations suspend trace generationIdRef].
  rewrite lookup_insert_eq. split; [done|]. rewrite Hproj. cbn [sess_inv].
  split; [done|]. split; [done|]. eexists. split; [done|]. split; [done|].
  exists rs. done.
Qed.

Lemma loop_from_inv (i : nat) (w : World) (a : Args) (l : Locals)
    (rs : list (option string)) :
  mid w a l rs -> 1 <= i -> length rs <= i ->
  i `min` length (scriptChunks l) <= length rs ->
  settled_as (currentGenId a) (loop_from i a l w).
Proof.
  intros Hmid Hpos Hi Hi'. unfold loop_from.
  destruct (scriptChunks l !! i) as [chunk|] eqn:Hlook.
  - pose proof (lookup_lt_Some _ _ _ Hlook) as Hlt.
    assert (length rs = i) as Hrs by lia.
    destruct (decide (generationIdRef w <> currentGenId a)) as [Hstale|Hcur].
    + eapply after_loop_inv; [done|]. intros Hc. by rewrite Hc in Hstale.
    + destruct Hmid as
        (Hchunks & body & Hproj & Himg & Haudio & Hlen & Hfirst & Hurls & Hcommits).
      exists (Running a l (AwaitChunk i)).
      cbn [activations suspend record trace generationIdRef].
      rewrite lookup_insert_eq. split; [done|].
      rewrite proj_snoc_eq, Hproj by done. cbn [sess_inv].
      split; [done|]. split; [done|].
      eexists. split; [rewrite <- !app_comm_cons; done|].
      split; [by apply (image_ok_snoc_other _ _ l)|].
      exists rs. split; [done|]. split; [done|]. split; [done|]. split; [done|].
      split; [by rewrite commits_snoc, app_nil_r|].
      exists chunk. split; [done|]. by rewrite audio_trace_snoc, Haudio.
  - eapply after_loop_inv; [done|]. intros _.
    apply lookup_ge_None in Hlook. destruct Hmid as (_ & body & _ & _ & _ & Hlen & _).
    lia.
Qed.

Lemma on_first_audio_inv (w0 : World) (a : Args) (l : Locals) (r : option string) :
  sess_inv (generationIdRef w0) (currentGenId a) (Running a l AwaitFirstAudio)
    (proj (currentGenId a) (trace w0)) ->
  settled_as (currentGenId a)
    (on_first_audio a l r (record (AudioSettled (currentGenId a) 0 r) w0)).
Proof.
  intros (_ & Hchunks & body & Hproj & Himg & rs & Hurls & -> & Hcommits & chunk &
          Hlook & Haudio).
  destruct (scriptChunks l) as [|c cs] eqn:Hcs; [done|]. injection Hlook as ->.
  unfold on_first_audio. destruct r as [firstAudio|].
  - cbn [generationIdRef record].
    destruct (decide (generationIdRef w0 <> currentGenId a)) as [Hstale|Hcur].
    + exists (Running a l Returned). cbn [activations suspend record trace generationIdRef].
      rewrite lookup_insert_eq. split; [done|].
      rewrite proj_snoc_eq, Hproj by done. cbn [sess_inv].
      split; [done|]. split; [congruence|].
      eexists. split; [rewrite <- !app_comm_cons; done|].
      split; [by apply (image_ok_snoc_other _ _ l)|].
      exists [Some firstAudio]. split; [intros Hc; by rewrite Hc in Hstale|].
      rewrite audio_trace_snoc, Haudio, Hcs. split; [by destruct cs|].
      split; [simpl; lia|]. left. rewrite commits_snoc, app_nil_r.
      split; [done|]. split; [by left|]. intros Hc. by rewrite Hc in Hstale.
    + apply (loop_from_inv 1 _ _ _ [Some firstAudio]); [|lia|simpl; lia|cbn [length]; lia].
      split; [simpl; congruence|]. cbn [trace setState record generationIdRef].
      rewrite proj_snoc_eq, Hproj by done.
      eexists. split; [rewrite <- !app_comm_cons; done|].
      split; [by apply (image_ok_snoc_other _ _ l)|].
      rewrite audio_trace_snoc, Haudio, commits_snoc, app_nil_r.
      cbn [scriptChunks with_audioUrls audioUrls]. rewrite Hcs.
      split; [by destruct cs|]. split; [simpl; lia|]. split; [done|].
      split; [|done]. intros Hc. rewrite Hurls by done. done.
  - exists (Running a l Returned).
    cbn [activations suspend setState record trace generationIdRef].
    rewrite lookup_insert_eq. split; [done|].
    rewrite proj_snoc_eq, Hproj by done. cbn [sess_inv].
    split; [done|]. split; [congruence|].
    eexists. split; [rewrite <- !app_comm_cons; done|].
    split; [by apply (image_ok_snoc_other _ _ l)|].
    exists [None]. split; [done|].
    rewrite audio_trace_snoc, Haudio, Hcs. split; [by destruct cs|].
    split; [simpl; lia|]. left. rewrite commits_snoc, app_nil_r.
    split; [done|]. split; [by right|]. done.
Qed.

Lemma first_ok_snoc (rs : list (option string)) (r : option string) :
  1 <= length rs -> first_ok rs -> first_ok (rs ++ [r]).
Proof. destruct rs as [|[?|] rs]; simpl; try done. lia. Qed.

Lemma mid_after_chunk (w0 w : World) (a : Args) (l l' : Locals) (i : nat)
    (r : option string) :
  sess_inv (generationIdRef w0) (currentGenId a) (Running a l (AwaitChunk i))
    (proj (currentGenId a) (trace w0)) ->
  generationIdRef w = generationIdRef w0 ->
  trace w = trace w0 ++ [AudioSettled (currentGenId a) i r] ->
  script l' = script l -> scriptChunks l' = scriptChunks l ->
  finalCoverUrl l' = finalCoverUrl l -> imagePending l' = imagePending l ->
  (currentGenId a = generationIdRef w0 ->
   audioUrls l' = audioUrls l ++ option_list r) ->
  exists rs, mid w a l' rs /\ length rs = S i.
Proof.
  intros (_ & Hchunks & body & Hproj & Himg & rs & Hurls & Hlen & Hpos & Hfirst &
          Hcommits & chunk & Hlook & Haudio) Hg Htr Hs Hcs Hc Hp Hurls'.
  exists (rs ++ [r]). rewrite length_app. simpl. split; [|lia].
  split; [congruence|]. rewrite Hg, Htr, proj_snoc_eq, Hproj by done.
  eexists. split; [rewrite <- !app_comm_cons, Hs; done|].
  split; [by apply (image_ok_snoc_other _ _ l)|].
  rewrite audio_trace_snoc, Haudio, commits_snoc, app_nil_r, Hcs. simpl.
  pose proof (lookup_lt_Some _ _ _ Hlook) as Hlt.
  rewrite alt_snoc with (chunk := chunk) by (by rewrite Hlen).
  rewrite Hlen, <- app_assoc, length_app. simpl.
  split; [done|]. split; [lia|]. split; [apply first_ok_snoc; [lia|done]|].
  split; [|done]. intros Hcur. rewrite Hurls', Hurls by done.
  rewrite omap_app. by destruct r.
Qed.

Lemma on_chunk_audio_inv (w0 : World) (a : Args) (l : Locals) (i : nat)
    (r : option string) :
  sess_inv (generationIdRef w0) (currentGenId a) (Running a l (AwaitChunk i))
    (proj (currentGenId a) (trace w0)) ->
  settled_as (currentGenId a)
    (on_chunk_audio i a l r (record (AudioSettled (currentGenId a) i r) w0)).
Proof.
  intros Hinv. unfold on_chunk_audio. destruct r as [audio|].
  - cbn [generationIdRef record].
    destruct (decide (generationIdRef w0 <> currentGenId a)) as [Hstale|Hcur].
    + destruct (mid_after_chunk w0
                  (record (AudioSettled (currentGenId a) i (Some audio)) w0)
                  a l l i (Some audio) Hinv) as (rs & Hmid & Hlen); try done;
        try (intros Hc; by rewrite Hc in Hstale).
      eapply after_loop_inv; [done|]. intros Hc. simpl in Hc. by rewrite Hc in Hstale.
    + destruct (mid_after_chunk w0
                  (setState (set_audioSegments (fun prev => prev ++ [audio]))
                     (record (AudioSettled (currentGenId a) i (Some audio)) w0))
                  a l (with_audioUrls (audioUrls l ++ [audio]) l) i (Some audio) Hinv)
        as (rs & Hmid & Hlen); try done.
      apply (loop_from_inv (S i) _ _ _ rs); [done|lia|lia|lia].
  - destruct (mid_after_chunk w0 (record (AudioSettled (currentGenId a) i None) w0)
                a l l i None Hinv) as (rs & Hmid & Hlen); try done;
      try (intros _; simpl; by rewrite app_nil_r).
    apply (loop_from_inv (S i) _ _ _ rs); [done|lia|lia|lia].
Qed.

Lemma point_ok_snoc_image (g : nat) (a : Args) (l l' : Locals) (p : Point)
    (body : list Action) (act : Action) :
  audio_act act = None -> commit_act act = None ->
  p <> AwaitImageGen -> imagePending l = true ->
  scriptChunks l' = scriptChunks l -> audioUrls l' = audioUrls l ->
  point_ok g a l p body -> point_ok g a l' p (body ++ [act]).
Proof.
  intros Ha Hc Hp Hpend Hcs Hurls (rs & Hrs & Hpoint).
  exists rs. rewrite Hurls, audio_trace_snoc, commits_snoc, Ha, Hc, !app_nil_r, Hcs.
  split; [done|]. destruct p; try done.
  destruct Hpoint as (Haudio & Hlen & [Hno|(body' & ep & _ & _ & Hpend' & _)]).
  - split; [done|]. split; [done|]. by left.
  - congruence.
Qed.

Lemma on_image_inv (w0 : World) (a : Args) (l : Locals) (p : Point)
    (generatedUrl : string) :
  sess_inv (generationIdRef w0) (currentGenId a) (Running a l p)
    (proj (currentGenId a) (trace w0)) ->
  imagePending l = true ->
  settled_as (currentGenId a)
    (on_image a l p generatedUrl
       (record (ImageSettled (currentGenId a) generatedUrl) w0)).
Proof.
  intros (_ & Hchunks & body & Hproj & [Hcover Hshape] & Hpoint) Hpend.
  destruct Hshape as [(_ & _ & Hp)|[(Himg & Hwants & _)|(url & _ & _ & Hp)]];
    [congruence| |congruence].
  unfold on_image. cbn [generationIdRef record].
  set (stored := bool_decide (generationIdRef w0 = currentGenId a)
                 && truthy (Some generatedUrl)).
  set (l1 := if stored then with_finalCoverUrl (Some generatedUrl) l else l).
  set (w1 := if stored
             then setState (set_customCoverUrl generatedUrl)
                    (record (ImageSettled (currentGenId a) generatedUrl) w0)
             else record (ImageSettled (currentGenId a) generatedUrl) w0).
  assert (generationIdRef w1 = generationIdRef w0) as Hg by (by destruct stored).
  assert (trace w1 = trace w0 ++ [ImageSettled (currentGenId a) generatedUrl]) as Htr
    by (by destruct stored).
  assert (script (image_settled l1) = script l) as Hs by (by destruct stored).
  assert (scriptChunks (image_settled l1) = scriptChunks l) as Hcs by (by destruct stored).
  assert (audioUrls (image_settled l1) = audioUrls l) as Hurls by (by destruct stored).
  assert (image_ok (generationIdRef w0) a (image_settled l1)
            (body ++ [ImageSettled (currentGenId a) generatedUrl])) as Himg'.
  { split.
    - intros Hcur. unfold cover. rewrite image_trace_snoc, Himg. simpl.
      subst l1 stored. rewrite <- Hcur, bool_decide_eq_true_2 by done. simpl.
      destruct (negb (String.eqb generatedUrl "")); simpl; [done|].
      rewrite Hcover by done. unfold cover. by rewrite Himg.
    - right; right. exists generatedUrl. rewrite image_trace_snoc, Himg, Hs. done. }
  assert (p = AwaitImageGen \/ p <> AwaitImageGen) as [->|Hp]
    by (destruct p; auto).
  - destruct Hpoint as (rs & Hrs & Haudio & Hlen & Hfirst & Hall & _ & Hcommits).
    apply (finish_inv _ _ _ rs); [|by rewrite Hg, Hcs|done].
    split; [congruence|]. rewrite Hg, Htr, proj_snoc_eq, Hproj by done.
    eexists. split; [rewrite <- !app_comm_cons, Hs; done|]. split; [done|].
    rewrite audio_trace_snoc, commits_snoc, !app_nil_r, Hcs, Hurls. done.
  - assert (settled_as (currentGenId a)
              (suspend (currentGenId a) (Running a (image_settled l1) p) w1)) as Hgoal.
    { exists (Running a (image_settled l1) p).
      cbn [activations suspend trace generationIdRef].
      rewrite lookup_insert_eq. split; [done|].
      rewrite Hg, Htr, proj_snoc_eq, Hproj by done. cbn [sess_inv].
      split; [done|]. split; [congruence|].
      eexists. split; [rewrite <- !app_comm_cons, Hs; done|]. split; [done|].
      by apply (point_ok_snoc_image _ _ l). }
    by destruct p.
Qed.

Lemma on_script_inv (w0 w' : World) (a : Args) (r : option string + PodcastScript) :
  sess_inv (generationIdRef w0) (currentGenId a) (AwaitScript a)
    (proj (currentGenId a) (trace w0)) ->
  on_script a r (record (ScriptSettled (currentGenId a) r) w0) = Some w' ->
  settled_as (currentGenId a) w'.
Proof.
  intros [_ Hproj]. unfold on_script. cbn [generationIdRef record].
  destruct r as [e|script].
  - intros [= <-]. exists (Ended a).
    destruct (decide (generationIdRef w0 = currentGenId a));
      cbn [activations suspend setState record trace generationIdRef];
      rewrite lookup_insert_eq, proj_snoc_eq, Hproj by done; simpl; eauto.
  - destruct (decide (generationIdRef w0 <> currentGenId a)) as [Hstale|Hcur].
    { intros [= <-]. exists (Ended a).
      cbn [activations suspend setState record trace generationIdRef].
      rewrite lookup_insert_eq, proj_snoc_eq, Hproj by done; simpl; eauto. }
    destruct (chunkScript script 6) as [chunks|] eqn:Hchunks; [|done]. simpl.
    fold (wants_image a).
    set (body0 := if wants_image a
                  then [CallImage (currentGenId a) (topic script)] else []).
    set (l := {| script := script; scriptChunks := chunks; audioUrls := [];
                 finalCoverUrl := customImage a; imagePending := wants_image a |}).
    set (w1 := if wants_image a
               then record (CallImage (currentGenId a) (topic script))
                      (record (ScriptSettled (currentGenId a) (inr script)) w0)
               else record (ScriptSettled (currentGenId a) (inr script)) w0).
    assert (generationIdRef w1 = generationIdRef w0) as Hg
      by (subst w1; by destruct (wants_image a)).
    assert (proj (currentGenId a) (trace w1)
            = begin_of a :: ScriptSettled (currentGenId a) (inr script) :: body0) as Htr.
    { subst w1 body0. destruct (wants_image a); cbn [trace record];
        rewrite !proj_snoc_eq, Hproj by done; done. }
    assert (image_ok (generationIdRef w0) a l body0) as Himg.
    { subst body0 l. unfold image_ok, cover.
      destruct (wants_image a) eqn:Hwants; simpl; (split; [done|]);
        [right; left | left]; done. }
    assert (commits body0 = [] /\ audio_trace body0 = []) as [Hcommits Haudio]
      by (subst body0; by destruct (wants_image a)).
    destruct chunks as [|chunk0 chunks'].
    + intros [= <-].
      apply (loop_from_inv 1 _ _ _ []); [|lia|simpl; lia|simpl; lia].
      split; [done|]. cbn [trace setState generationIdRef]. rewrite Hg, Htr.
      eexists. split; [done|]. split; [done|]. done.
    + intros [= <-]. exists (Running a l AwaitFirstAudio).
      cbn [activations suspend setState record trace generationIdRef].
      rewrite lookup_insert_eq, Hg. split; [done|].
      rewrite proj_snoc_eq, Htr by done. cbn [sess_inv].
      split; [done|]. split; [done|].
      eexists. split; [rewrite <- !app_comm_cons; done|].
      split; [by apply (image_ok_snoc_other _ _ l)|].
      exists []. split; [done|]. split; [done|].
      rewrite commits_snoc, audio_trace_snoc, Hcommits, Haudio. split; [done|].
      exists chunk0. done.
Qed.

(** *** What a step leaves alone *)

(** The activation an event belongs to, if it settles a pending call. *)
Definition event_sid (ev : Event) : option nat :=
  match ev with
  | ScriptDone sid _ | ImageDone sid _ | AudioDone sid _ => Some sid
  | StartGeneration _ _ _ | StopGeneration => None
  end.

Ltac unfold_step :=
  unfold step, on_script, on_first_audio, on_chunk_audio, on_image, loop_from,
    after_loop, finish, addToLibrary in *.

Ltac world_simpl :=
  cbn [generationIdRef state activations trace uuids clock
       setState record suspend tick fmap option_fmap option_map mbind option_bind
       script scriptChunks audioUrls finalCoverUrl imagePending
       with_audioUrls with_finalCoverUrl image_settled] in *.

Ltac step_cases :=
  unfold mbind, option_bind, fmap, option_fmap, option_map in *;
  repeat first [ progress world_simpl | case_match ];
  simplify_eq.

Definition args_of (act : Activation) : Args :=
  match act with
  | AwaitScript a | Running a _ _ | Ended a => a
  end.

(** A settlement for [sid] keeps the epoch, touches no other activation,
    appends only actions of [sid] to the trace, and adds to the library
    exactly the episodes it commits. *)
Lemma step_frame (w w' : World) (ev : Event) (sid : nat) :
  (forall act, activations w !! sid = Some act -> currentGenId (args_of act) = sid) ->
  step w ev = Some w' -> event_sid ev = Some sid ->
  generationIdRef w' = generationIdRef w /\
  (forall sid', sid' <> sid -> activations w' !! sid' = activations w !! sid') /\
  exists items,
    trace w' = trace w ++ items /\ Forall (fun act => sid_of act = sid) items /\
    App.library (state w') = rev (commits items) ++ App.library (state w).
Proof.
  intros Hid Hstep Hsid.
  destruct ev as [| |sid0 r|sid0 r|sid0 r]; simpl in Hsid; try done;
    injection Hsid as ->; unfold_step; step_cases;
    pose proof (Hid _ eq_refl) as Hid'; simpl in Hid'; subst sid;
    world_simpl;
    (split; [reflexivity|]);
    (split; [intros sid' Hne; by rewrite lookup_insert_ne|]);
    rewrite <- ?app_assoc; eexists; (split; [reflexivity|]);
    (split; [repeat constructor|reflexivity]).
Qed.

(** The script in the store: a settlement for a superseded activation leaves
    it alone, and the current activation, once running, shows its own. *)
Lemma step_script (w w' : World) (ev : Event) (sid : nat) :
  (forall act, activations w !! sid = Some act -> currentGenId (args_of act) = sid) ->
  step w ev = Some w' -> event_sid ev = Some sid ->
  (forall a l p, activations w !! sid = Some (Running a l p) ->
     sid = generationIdRef w -> App.script (state w) = Some (script l)) ->
  (sid <> generationIdRef w -> App.script (state w') = App.script (state w)) /\
  (forall a' l' p', activations w' !! sid = Some (Running a' l' p') ->
     sid = generationIdRef w -> App.script (state w') = Some (script l')).
Proof.
  intros Hid Hstep Hsid Hold.
  destruct ev as [| |sid0 r|sid0 r|sid0 r]; simpl in Hsid; try done;
    injection Hsid as ->; unfold_step; step_cases;
    pose proof (Hid _ eq_refl) as Hid'; simpl in Hid'; subst sid;
    world_simpl;
    (split;
     [ intros Hne; first [reflexivity | congruence | exfalso; lia]
     | intros a' l' p'; rewrite lookup_insert_eq; intros [= <- <- <-] Hcur;
       first [reflexivity | apply (Hold _ _ _ eq_refl Hcur)] ]).
Qed.

Lemma sess_inv_mono (g g' sid : nat) (act : Activation) (tr : list Action) :
  sess_inv g sid act tr -> sid < g' -> sess_inv g' sid act tr.
Proof.
  intros Hinv Hlt. destruct act as [a|a l p|a]; simpl in *; [done| |done].
  destruct Hinv as (Hid & Hchunks & body & Htr & [_ Hshape] & rs & _ & Hpoint).
  split; [done|]. split; [done|]. exists body. split; [done|].
  split; [split; [intros; lia | done]|].
  exists rs. split; [intros; lia|].
  destruct p; try done.
  - destruct Hpoint as (? & ? & ? & _ & ? & ?). repeat split; try done. intros; lia.
  - destruct Hpoint as (? & ? & [(? & ? & _)|Hc]); repeat split; try done.
    + left. repeat split; try done. intros; lia.
    + by right.
Qed.

Section Preservation.

Variable library0 : list PodcastEpisode.

Lemma winv_ids (w : World) (sid : nat) (act : Activation) :
  winv library0 w -> activations w !! sid = Some act ->
  currentGenId (args_of act) = sid.
Proof.
  intros Hw Hact. destruct (inv_sessions _ _ Hw _ _ Hact) as [_ Hinv].
  destruct act; simpl in *; tauto.
Qed.

Lemma proj_fresh (w : World) (sid : nat) :
  winv library0 w -> generationIdRef w < sid -> proj sid (trace w) = [].
Proof.
  intros Hw Hlt. unfold proj.
  assert (forall act, act ∈ trace w -> sid_of act <> sid) as Hall.
  { intros act Hin Heq. destruct (inv_trace _ _ Hw _ Hin) as [a Ha].
    apply (inv_sessions _ _ Hw) in Ha. lia. }
  induction (trace w) as [|act tr IH]; [done|].
  rewrite filter_cons_False by (apply Hall; left).
  apply IH. intros act' Hin. apply Hall. by right.
Qed.

Lemma boot_winv (st : AppState) :
  App.library st = library0 -> winv library0 (boot st).
Proof.
  intros Hlib. split; simpl; try done.
  intros act Hin. by apply elem_of_nil in Hin.
Qed.

(** A settlement re-establishes the invariant of its own activation. *)
Lemma step_settled (w w' : World) (ev : Event) (sid : nat) :
  winv library0 w -> step w ev = Some w' -> event_sid ev = Some sid ->
  settled_as sid w'.
Proof.
  intros Hw Hstep Hsid. unfold step in Hstep.
  destruct ev as [| |sid0 r|sid0 resp|sid0 r]; simpl in Hsid; try done;
    injection Hsid as ->;
    destruct (activations w !! sid) as [act|] eqn:Hact; try done;
    pose proof (winv_ids _ _ _ Hw Hact) as Hid;
    destruct (inv_sessions _ _ Hw _ _ Hact) as [_ Hinv];
    destruct act as [a|a l p|a]; try done; simpl in Hid; subst sid.
  - destruct (on_script _ _ _) as [w1|] eqn:Hon; [|done].
    injection Hstep as <-. by apply on_script_inv in Hon.
  - destruct (imagePending l) eqn:Hpend; [|done]. injection Hstep as <-.
    by apply (on_image_inv w).
  - destruct p; try done; injection Hstep as <-.
    + by apply (on_first_audio_inv w).
    + by apply (on_chunk_audio_inv w).
Qed.

Lemma step_winv (w w' : World) (ev : Event) :
  winv library0 w -> step w ev = Some w' -> winv library0 w'.
Proof.
  intros Hw Hstep.
  destruct (event_sid ev) as [sid|] eqn:Hsid.
  - (* the settlement of a call of activation [sid] *)
    pose proof (step_settled _ _ _ _ Hw Hstep Hsid) as (act' & Hact' & Hinv').
    destruct (step_frame w w' ev sid (fun act => winv_ids w sid act Hw) Hstep Hsid)
      as (Hg & Hothers & items & Htr & Hitems & Hlib).
    assert (is_Some (activations w !! sid)) as [act Hact].
    { unfold step in Hstep. destruct ev; simpl in Hsid; try done;
        injection Hsid as ->; destruct (activations w !! sid); by eauto. }
    destruct (step_script w w' ev sid (fun act => winv_ids w sid act Hw) Hstep Hsid)
      as [Hstale Hcur].
    { intros a l p Ha ->. by apply (inv_script _ _ Hw a l p). }
    split.
    + intros sid' actx Hx. destruct (decide (sid' = sid)) as [->|Hne].
      * rewrite Hact' in Hx. injection Hx as <-. rewrite Hg. split; [|by rewrite <- Hg].
        apply (inv_sessions _ _ Hw) in Hact. tauto.
      * rewrite Hothers in Hx by done. rewrite Hg, Htr, proj_app.
        replace (proj sid' items) with (@nil Action).
        { rewrite app_nil_r. by apply (inv_sessions _ _ Hw). }
        symmetry. clear -Hitems Hne. induction Hitems as [|x xs Hx _ IH]; [done|].
        unfold proj. rewrite filter_cons_False by congruence. exact IH.
    + intros actx Hin. rewrite Htr in Hin. apply elem_of_app in Hin.
      assert (sid_of actx = sid \/ (sid_of actx <> sid /\ actx ∈ trace w)) as [->|[Hne Hin']].
      { destruct Hin as [Hin|Hin].
        - destruct (decide (sid_of actx = sid)); [by left | by right].
        - left. by eapply Forall_forall in Hitems. }
      * by rewrite Hact'.
      * rewrite Hothers by done. by apply (inv_trace _ _ Hw).
    + rewrite Hlib, Htr, (inv_library _ _ Hw). unfold commits.
      rewrite omap_app, rev_app_distr, app_assoc. done.
    + intros a l p Ha. rewrite Hg in Ha.
      destruct (decide (sid = generationIdRef w)) as [->|Hne].
      * by eapply Hcur.
      * rewrite Hothers in Ha by done. rewrite Hstale by done.
        by apply (inv_script _ _ Hw a l p).
  - (* a new generation, or a cancellation: the epoch moves on *)
    assert (generationIdRef w' = generationIdRef w + 1) as Hg.
    { destruct ev; simpl in *; try done; by injection Hstep as <-. }
    destruct ev as [cat img gen| | | |]; simpl in *; try done; injection Hstep as <-.
    + split; cbn [generationIdRef state activations trace tick handleGenerationFlow].
      * intros sid act Hact.
        destruct (decide (sid = generationIdRef w + 1)) as [->|Hne].
        -- rewrite lookup_insert_eq in Hact. injection Hact as <-.
           split; [lia|]. rewrite proj_snoc_eq by done.
           rewrite (proj_fresh w) by (done || lia). done.
        -- rewrite lookup_insert_ne in Hact by done.
           destruct (inv_sessions _ _ Hw _ _ Hact) as [Hb Hinv].
           split; [lia|]. rewrite proj_snoc_ne by (simpl; lia).
           apply (sess_inv_mono (generationIdRef w)); [done|lia].
      * intros act Hin. apply elem_of_app in Hin. destruct Hin as [Hin|Hin].
        -- apply (inv_trace _ _ Hw) in Hin.
           destruct (decide (sid_of act = generationIdRef w + 1)) as [->|Hne];
             [by rewrite lookup_insert_eq | by rewrite lookup_insert_ne].
        -- apply list_elem_of_singleton in Hin. subst act. simpl.
           by rewrite lookup_insert_eq.
      * rewrite commits_snoc, app_nil_r. simpl. apply (inv_library _ _ Hw).
      * intros a l p Ha. by rewrite lookup_insert_eq in Ha.
    + split; cbn [generationIdRef state activations trace tick handleStopGeneration].
      * intros sid act Hact. destruct (inv_sessions _ _ Hw _ _ Hact) as [Hb Hinv].
        split; [lia|]. apply (sess_inv_mono (generationIdRef w)); [done|lia].
      * apply (inv_trace _ _ Hw).
      * apply (inv_library _ _ Hw).
      * intros a l p Ha. apply (inv_sessions _ _ Hw) in Ha. lia.
Qed.

Lemma run_winv (evs : list Event) : forall w w',
  winv library0 w -> run step w evs = Some w' -> winv library0 w'.
Proof.
  induction evs as [|ev evs IH]; intros w w' Hw Hrun; simpl in Hrun.
  - by injection Hrun as <-.
  - destruct (step w ev) as [w1|] eqn:Hstep; [|done]. simpl in Hrun.
    eapply IH; [|done]. by eapply step_winv.
Qed.

End Preservation.

(** *** The step that commits *)

(** A step adds at most one episode, and only as the last act of a
    settlement for the current epoch, in the same breath as the final
    status. *)
Lemma step_commit (w w' : World) (ev : Event) :
  (forall sid act, activations w !! sid = Some act -> currentGenId (args_of act) = sid) ->
  step w ev = Some w' ->
  commits (trace w') = commits (trace w) \/
  exists sid ep items,
    event_sid ev = Some sid /\ sid = generationIdRef w /\
    trace w' = trace w ++ items ++ [Commit sid ep] /\ commits items = [] /\
    App.status (state w') = Status.complete /\
    App.isGeneratingAudio (state w') = false /\
    App.library (state w') = ep :: App.library (state w) /\
    App.currentEpisodeId (state w') = Some (Episode.id ep).
Proof.
  intros Hid Hstep.
  destruct ev as [cat img gen| |sid r|sid r|sid r];
    [ left; simpl in Hstep; injection Hstep as <-; simpl;
      by rewrite commits_snoc, app_nil_r
    | left; simpl in Hstep; by injection Hstep as <-
    | | | ];
    unfold_step; step_cases;
    pose proof (Hid _ _ ltac:(eassumption)) as Hid'; simpl in Hid'; subst sid;
    world_simpl; rewrite ?commits_snoc; simpl; rewrite ?app_nil_r;
    first
      [ left; reflexivity
      | right; eexists _, _, [_]; split; [reflexivity|]; split; [congruence|];
        rewrite <- ?app_assoc; repeat split; reflexivity ].
Qed.

Lemma alt_ret_first (chunks : list PodcastScript) (rs : list (option string))
    (r : option string) :
  ARet 0 r ∈ alt 0 chunks rs -> rs !! 0 = Some r.
Proof.
  assert (forall k cs rs' i r', ARet i r' ∈ alt k cs rs' -> k <= i) as Hge.
  { intros k cs. revert k. induction cs as [|c cs IH]; intros k [|r0 rs'] i r' Hin;
      simpl in Hin; try by apply elem_of_nil in Hin.
    apply elem_of_cons in Hin as [Hin|Hin]; [done|].
    apply elem_of_cons in Hin as [Hin|Hin]; [injection Hin as -> _; lia|].
    apply IH in Hin. lia. }
  destruct chunks as [|c cs], rs as [|r0 rs]; simpl; intros Hin;
    try by apply elem_of_nil in Hin.
  apply elem_of_cons in Hin as [Hin|Hin]; [done|].
  apply elem_of_cons in Hin as [Hin|Hin]; [by injection Hin as ->|].
  apply Hge in Hin. lia.
Qed.

Lemma alt_settles (chunks : list PodcastScript) : forall k rs i,
  length rs <= length chunks -> i < length rs ->
  exists r, ARet (k + i) r ∈ alt k chunks rs.
Proof.
  induction chunks as [|c cs IH]; intros k [|r0 rs] i Hlen Hi; simpl in *; try lia.
  destruct i as [|i].
  - exists r0. rewrite Nat.add_0_r. right. left.
  - destruct (IH (S k) rs i) as [r Hin]; [lia|lia|].
    exists r. right. right. by replace (k + S i) with (S k + i) by lia.
Qed.

Lemma audio_settled_in (sid i : nat) (r : option string) (body : list Action) :
  Forall (fun act => sid_of act = sid) body ->
  ARet i r ∈ audio_trace body -> AudioSettled sid i r ∈ body.
Proof.
  intros Hall Hin. apply list_elem_of_omap in Hin as (act & Hact & Heq).
  rewrite Forall_forall in Hall. specialize (Hall _ Hact).
  destruct act; simpl in *; try done. by injection Heq as -> ->; subst.
Qed.

Lemma proj_tagged (sid : nat) (tr : list Action) :
  Forall (fun act => sid_of act = sid) (proj sid tr).
Proof. apply Forall_forall. intros act Hin. by apply list_elem_of_filter in Hin as [? _]. Qed.

Lemma image_settled_in (sid : nat) (url : string) (body : list Action) :
  Forall (fun act => sid_of act = sid) body ->
  IRet url ∈ image_trace body -> ImageSettled sid url ∈ body.
Proof.
  intros Hall Hin. apply list_elem_of_omap in Hin as (act & Hact & Heq).
  rewrite Forall_forall in Hall. specialize (Hall _ Hact).
  destruct act; simpl in *; try done. by injection Heq as ->; subst.
Qed.

Lemma reach_winv (st : AppState) (evs : list Event) (w : World) :
  run step (boot st) evs = Some w -> winv (App.library st) w.
Proof. intros Hrun. eapply run_winv; [|done]. by apply boot_winv. Qed.

Lemma proj_unknown (library0 : list PodcastEpisode) (w : World) (sid : nat) :
  winv library0 w -> activations w !! sid = None -> proj sid (trace w) = [].
Proof.
  intros Hw Hnone. unfold proj.
  assert (forall act, act ∈ trace w -> sid_of act <> sid) as Hall.
  { intros act Hin Heq. destruct (inv_trace _ _ Hw _ Hin) as [a Ha]. congruence. }
  induction (trace w) as [|act tr IH]; [done|].
  rewrite filter_cons_False by (apply Hall; left).
  apply IH. intros act' Hin. apply Hall. by right.
Qed.

(** The trace of an activation that has committed. *)
Definition committed (sid : nat) (tr : list Action) (a : Args) (l : Locals)
    (rs : list (option string)) (body : list Action) (ep : PodcastEpisode) : Prop :=
  tr = begin_of a :: ScriptSettled sid (inr (script l)) :: body ++ [Commit sid ep] /\
  commits tr = [ep] /\
  chunkScript (script l) 6 = Some (scriptChunks l) /\
  audio_trace body = alt 0 (scriptChunks l) rs /\
  length rs = length (scriptChunks l) /\
  first_ok rs /\
  (forall i, i < length (scriptChunks l) -> exists r, AudioSettled sid i r ∈ body) /\
  (forall t, CallImage sid t ∈ body -> exists url, ImageSettled sid url ∈ body) /\
  Episode.script ep = script l /\
  Episode.audioSegments ep = omap id rs /\
  Episode.category ep = category a /\
  Episode.customImage ep = cover a body.

Lemma commit_shape (library0 : list PodcastEpisode) (w : World) (sid : nat) :
  winv library0 w ->
  commits (proj sid (trace w)) = [] \/
  exists a l rs body ep,
    activations w !! sid = Some (Running a l Returned) /\
    committed sid (proj sid (trace w)) a l rs body ep.
Proof.
  intros Hw. destruct (activations w !! sid) as [act|] eqn:Hact;
    [|left; by rewrite (proj_unknown _ _ _ Hw Hact)].
  destruct (inv_sessions _ _ Hw _ _ Hact) as [_ Hinv].
  pose proof (proj_tagged sid (trace w)) as Htag.
  destruct act as [a|a l p|a]; simpl in Hinv.
  - destruct Hinv as [_ ->]. by left.
  - destruct Hinv as (Hid & Hchunks & body & Htr & [Hcover Hshape] & rs & Hurls & Hpoint).
    subst sid. rewrite Htr in *. unfold commits at 1. simpl. fold (commits body).
    destruct p.
    + left. tauto.
    + left. tauto.
    + left. tauto.
    + destruct Hpoint as (Haudio & Hlen & [(Hno & _)|Hyes]); [by left|].
      destruct Hyes as (body' & ep & -> & Hnone & Hpend & Hall & Hfirst & Hep).
      right. exists a, l, rs, body', ep. split; [done|]. unfold committed.
      rewrite audio_trace_snoc, app_nil_r in Haudio.
      apply Forall_cons in Htag as [_ Htag]. apply Forall_cons in Htag as [_ Htag].
      apply Forall_app in Htag as [Htag _].
      split; [done|].
      split; [unfold commits; simpl; fold (commits (body' ++ [Commit (currentGenId a) ep]));
              by rewrite commits_snoc, Hnone|].
      split; [done|]. split; [done|]. split; [done|]. split; [done|].
      split.
      { intros i Hi. destruct (alt_settles (scriptChunks l) 0 rs i) as [r Hin]; [lia..|].
        exists r. apply audio_settled_in; [done|]. by rewrite Haudio. }
      split; [|apply Hep].
      intros t Hin.
      assert (ICall t ∈ image_trace body') as Hic.
      { apply list_elem_of_omap. by exists (CallImage (currentGenId a) t). }
      rewrite image_trace_snoc, app_nil_r in Hshape.
      destruct Hshape as [(Himg & _)|[(_ & _ & Hp)|(url & Himg & _)]].
      * rewrite Himg in Hic. by apply elem_of_nil in Hic.
      * congruence.
      * exists url. apply image_settled_in; [done|]. rewrite Himg. right. left.
  - destruct Hinv as (_ & r & ->). by left.
Qed.

(** C2.  In every reachable state the library holds exactly the committed
    episodes, newest first.  An activation commits at most once, and when it
    has, its trace ends with the commit: before it, every chunk 0..N-1 was
    requested and its attempt settled, one after the other, and the image
    call, if one was made, has settled; the episode carries the script, the
    results of the successful attempts in chunk order, the category and the
    cover image available then.  The step that commits belongs to the current
    epoch and sets the status to [complete] and clears [isGeneratingAudio]. *)
Theorem commit_once_after_all_settled (st : AppState) (evs : list Event) (w : World)
    (sid : nat) :
  run step (boot st) evs = Some w ->
  App.library (state w) = rev (commits (trace w)) ++ App.library st /\
  (commits (proj sid (trace w)) = [] \/
   exists a l rs body ep, committed sid (proj sid (trace w)) a l rs body ep) /\
  (forall ev w',
     step w ev = Some w' ->
     commits (trace w') = commits (trace w) \/
     exists ep items,
       event_sid ev = Some (generationIdRef w) /\
       trace w' = trace w ++ items ++ [Commit (generationIdRef w) ep] /\
       commits items = [] /\
       App.status (state w') = Status.complete /\
       App.isGeneratingAudio (state w') = false /\
       App.library (state w') = ep :: App.library (state w)).
Proof.
  intros Hrun. pose proof (reach_winv _ _ _ Hrun) as Hw.
  split; [apply (inv_library _ _ Hw)|]. split.
  - destruct (commit_shape _ w sid Hw) as [Hno|(a & l & rs & body & ep & _ & Hc)];
      [by left|right; eauto 10].
  - intros ev w' Hstep.
    destruct (step_commit w w' ev (fun sid act => winv_ids _ w sid act Hw) Hstep)
      as [Hsame|(sid' & ep & items & Hev & -> & Htr & Hitems & Hst & Hgen & Hlib & _)];
      [by left|right]. exists ep, items. done.
Qed.

(** *** Sequencing, and the first chunk *)

Lemma step_trace_extends (w w' : World) (ev : Event) :
  step w ev = Some w' -> exists items, trace w' = trace w ++ items.
Proof.
  intros Hstep.
  destruct ev as [cat img gen| |sid r|sid r|sid r];
    [ simpl in Hstep; injection Hstep as <-; simpl; eauto
    | simpl in Hstep; injection Hstep as <-; exists []; simpl; by rewrite app_nil_r
    | | | ];
    unfold_step; step_cases; world_simpl; rewrite <- ?app_assoc; eauto.
Qed.

Lemma run_trace_extends (evs : list Event) : forall w w',
  run step w evs = Some w' -> exists items, trace w' = trace w ++ items.
Proof.
  induction evs as [|ev evs IH]; intros w w' Hrun; simpl in Hrun.
  - injection Hrun as <-. exists []. by rewrite app_nil_r.
  - destruct (step w ev) as [w1|] eqn:Hstep; [|done]. simpl in Hrun.
    destruct (step_trace_extends _ _ _ Hstep) as [items1 H1].
    destruct (IH _ _ Hrun) as [items2 H2].
    exists (items1 ++ items2). by rewrite H2, H1, app_assoc.
Qed.

(** The audio calls of an activation: the attempts settled so far, each
    requested only after the previous one settled, and at most one more call,
    for the next chunk, still pending. *)
Definition sequenced (chunks : list PodcastScript) (rs : list (option string))
    (audio : list AudioAct) : Prop :=
  length rs <= length chunks /\
  exists pending,
    audio = alt 0 chunks rs ++ pending /\
    (pending = [] \/
     exists chunk, chunks !! length rs = Some chunk /\ pending = [ACall (length rs) chunk]).

Lemma commits_running (a : Args) (sid : nat) (r : option string + PodcastScript)
    (body : list Action) :
  commits (begin_of a :: ScriptSettled sid r :: body) = commits body.
Proof. reflexivity. Qed.

Lemma running_shape (library0 : list PodcastEpisode) (w : World) (sid : nat)
    (a : Args) (l : Locals) (p : Point) :
  winv library0 w -> activations w !! sid = Some (Running a l p) ->
  currentGenId a = sid /\
  chunkScript (script l) 6 = Some (scriptChunks l) /\
  exists body,
    proj sid (trace w) = begin_of a :: ScriptSettled sid (inr (script l)) :: body /\
    audio_trace (proj sid (trace w)) = audio_trace body /\
    commits (proj sid (trace w)) = commits body /\
    image_trace (proj sid (trace w)) = image_trace body /\
    image_ok (generationIdRef w) a l body /\
    point_ok (generationIdRef w) a l p body.
Proof.
  intros Hw Hact. destruct (inv_sessions _ _ Hw _ _ Hact) as [_ Hinv].
  destruct Hinv as (Hid & Hchunks & body & Htr & Himg & Hpoint).
  split; [done|]. split; [done|]. exists body. rewrite Htr. done.
Qed.

Lemma audio_sequenced (library0 : list PodcastEpisode) (w : World) (sid : nat)
    (a : Args) (l : Locals) (p : Point) :
  winv library0 w -> activations w !! sid = Some (Running a l p) ->
  exists rs,
    sequenced (scriptChunks l) rs (audio_trace (proj sid (trace w))) /\
    (sid = generationIdRef w -> audioUrls l = omap id rs) /\
    (p = Returned -> sid = generationIdRef w -> rs <> [None] ->
     exists body ep, committed sid (proj sid (trace w)) a l rs body ep).
Proof.
  intros Hw Hact.
  destruct (running_shape _ _ _ _ _ _ Hw Hact)
    as (Hid & Hchunks & body & Htr & -> & _ & _ & Himg & rs & Hurls & Hpoint).
  exists rs. split; [|split; [intros Hc; apply Hurls; congruence|]].
  - destruct p.
    + destruct Hpoint as (-> & _ & chunk & Hlook & ->).
      split; [simpl; lia|]. exists [ACall 0 chunk].
      split; [by destruct (scriptChunks l)|]. right. by exists chunk.
    + destruct Hpoint as (Hlen & _ & _ & _ & chunk & Hlook & ->).
      pose proof (lookup_lt_Some _ _ _ Hlook).
      split; [lia|]. exists [ACall i chunk]. split; [done|]. right. exists chunk.
      by rewrite Hlen.
    + destruct Hpoint as (-> & Hlen & _). split; [done|]. exists []. rewrite app_nil_r. auto.
    + destruct Hpoint as (-> & Hlen & _). split; [done|]. exists []. rewrite app_nil_r. auto.
  - intros -> Hcur Hrs.
    destruct (commit_shape _ w sid Hw) as [Hno|(a' & l' & rs' & body' & ep & Hact' & Hc)].
    + exfalso. destruct Hpoint as (_ & _ & [(_ & _ & Hfail)|Hyes]).
      * apply Hrs, Hfail. congruence.
      * destruct Hyes as (body' & ep & -> & _). rewrite Htr in Hno.
        rewrite commits_running, commits_snoc in Hno. simpl in Hno.
        by destruct (commits body').
    + rewrite Hact in Hact'. injection Hact' as <- <-.
      destruct Hpoint as (Haudio & _ & [(Hno & _)|Hyes]).
      * exfalso. destruct Hc as (Htr' & Hc & _). rewrite Htr in Hc.
        rewrite commits_running in Hc. by rewrite Hno in Hc.
      * assert (rs' = rs) as ->; [|by exists body', ep].
        destruct Hyes as (body'' & ep' & -> & _ & _ & Hlen & _).
        destruct Hc as (Htr' & _ & _ & Haudio' & Hlen' & _).
        rewrite Htr in Htr'. injection Htr' as Hbody.
        apply app_inj_tail in Hbody as [<- _].
        rewrite audio_trace_snoc, app_nil_r in Haudio. rewrite Haudio in Haudio'.
        clear -Haudio' Hlen Hlen'. revert rs rs' Haudio' Hlen Hlen'.
        generalize 0 as k.
        induction (scriptChunks l) as [|c cs IH]; intros k [|r rs] [|r' rs'] Heq H1 H2;
          simpl in *; try done.
        injection Heq as -> Heq. f_equal. eapply IH; [done|lia|lia].
Qed.

(** Once the first attempt has failed, the activation never requests another
    chunk and never commits. *)
Lemma failed_first_final (library0 : list PodcastEpisode) (w : World) (sid : nat) :
  winv library0 w ->
  ARet 0 None ∈ audio_trace (proj sid (trace w)) ->
  length (audio_trace (proj sid (trace w))) = 2 /\ commits (proj sid (trace w)) = [].
Proof.
  intros Hw Hin. destruct (activations w !! sid) as [act|] eqn:Hact;
    [|rewrite (proj_unknown _ _ _ Hw Hact) in Hin; by apply elem_of_nil in Hin].
  destruct act as [a|a l p|a].
  - destruct (inv_sessions _ _ Hw _ _ Hact) as [_ [_ Htr]]. rewrite Htr in Hin.
    by apply elem_of_nil in Hin.
  - destruct (running_shape _ _ _ _ _ _ Hw Hact)
      as (Hid & Hchunks & body & Htr & Ha & Hc & _ & Himg & rs & Hurls & Hpoint).
    rewrite Ha, Hc in *. clear Ha Hc.
    assert (forall rs', first_ok rs' -> ARet 0 None ∈ alt 0 (scriptChunks l) rs' -> False)
      as Hok.
    { intros rs' Hfirst Hin'. apply alt_ret_first in Hin'. by destruct rs' as [|[?|] ?]. }
    destruct p.
    + destruct Hpoint as (_ & _ & chunk & _ & Haudio). rewrite Haudio in Hin.
      apply elem_of_cons in Hin as [Hin|Hin]; [done|]. by apply elem_of_nil in Hin.
    + destruct Hpoint as (_ & _ & Hfirst & _ & chunk & _ & Haudio). rewrite Haudio in Hin.
      apply elem_of_app in Hin as [Hin|Hin]; [exfalso; by eapply Hok|].
      apply elem_of_cons in Hin as [Hin|Hin]; [done|]. by apply elem_of_nil in Hin.
    + destruct Hpoint as (Haudio & _ & Hfirst & _). rewrite Haudio in Hin.
      exfalso. by eapply Hok.
    + destruct Hpoint as (Haudio & Hlen & [(Hno & [Hfirst| ->] & _)|Hyes]).
      * rewrite Haudio in Hin. exfalso. by eapply Hok.
      * rewrite Haudio. split; [|done].
        destruct (scriptChunks l) as [|c cs]; simpl in *; [lia|]. by destruct cs.
      * destruct Hyes as (body' & ep & _ & _ & _ & _ & Hfirst & _).
        rewrite Haudio in Hin. exfalso. by eapply Hok.
  - destruct (inv_sessions _ _ Hw _ _ Hact) as [_ [_ [r Htr]]]. rewrite Htr in Hin.
    by apply elem_of_nil in Hin.
Qed.

(** *** What the settlement of a chunk does *)

(** The current activation was waiting for chunk [i] and the attempt settled
    with [r]: the result is appended if there is one, nothing is appended if
    there is none, and the flow moves on to the next chunk, or waits for the
    image, or commits. *)
Definition advanced (w w' : World) (sid : nat) (a : Args) (l : Locals) (i : nat)
    (r : option string) : Prop :=
  let l' := match r with
            | Some audio => with_audioUrls (audioUrls l ++ [audio]) l
            | None => l
            end in
  generationIdRef w' = generationIdRef w /\
  (r = None -> App.status (state w') = App.status (state w) \/
               App.status (state w') = Status.complete) /\
  ((exists chunk,
      scriptChunks l !! S i = Some chunk /\
      activations w' !! sid = Some (Running a l' (AwaitChunk (S i))) /\
      trace w' = trace w ++ [AudioSettled sid i r; CallAudio sid (S i) chunk] /\
      App.status (state w') = App.status (state w) /\
      App.library (state w') = App.library (state w)) \/
   (S i = length (scriptChunks l) /\ imagePending l = true /\
    activations w' !! sid = Some (Running a l' AwaitImageGen) /\
    trace w' = trace w ++ [AudioSettled sid i r] /\
    App.status (state w') = App.status (state w) /\
    App.library (state w') = App.library (state w)) \/
   (S i = length (scriptChunks l) /\ imagePending l = false /\
    activations w' !! sid = Some (Running a l' Returned) /\
    App.status (state w') = Status.complete /\
    App.isGeneratingAudio (state w') = false /\
    exists ep,
      trace w' = trace w ++ [AudioSettled sid i r; Commit sid ep] /\
      App.library (state w') = ep :: App.library (state w) /\
      Episode.audioSegments ep = audioUrls l' /\
      Episode.script ep = script l)).

Ltac advanced_cases l i Hi :=
  destruct (scriptChunks l !! S i) as [chunk|] eqn:Hlook; world_simpl;
  [ split; [reflexivity|]; split; [auto|]; left; exists chunk;
    rewrite lookup_insert_eq, <- ?app_assoc; done
  | apply lookup_ge_None in Hlook;
    destruct (imagePending l) eqn:Hpend; world_simpl;
    repeat (destruct (decide _); try congruence; world_simpl);
    (split; [reflexivity|]); (split; [auto|]); right; [ left | right ];
    rewrite lookup_insert_eq, <- ?app_assoc;
    (split; [lia|]); (split; [done|]); (split; [done|]);
    [ done | split; [done|]; split; [done|]; eexists; done ] ].

Lemma chunk_step (w : World) (a : Args) (l : Locals) (i : nat) (r : option string) :
  activations w !! currentGenId a = Some (Running a l (AwaitChunk i)) ->
  currentGenId a = generationIdRef w ->
  i < length (scriptChunks l) ->
  exists w', step w (AudioDone (currentGenId a) r) = Some w' /\
             advanced w w' (currentGenId a) a l i r.
Proof.
  intros Hact Hcur Hi. unfold step. rewrite Hact. eexists. split; [reflexivity|].
  unfold advanced, on_chunk_audio, loop_from, after_loop, finish, addToLibrary.
  destruct r as [audio|]; world_simpl;
    repeat (destruct (decide _); try congruence; world_simpl);
    advanced_cases l i Hi.
Qed.

(** The same for the first chunk when its attempt succeeds. *)
Lemma first_success_step (w : World) (a : Args) (l : Locals) (firstAudio : string) :
  activations w !! currentGenId a = Some (Running a l AwaitFirstAudio) ->
  currentGenId a = generationIdRef w ->
  0 < length (scriptChunks l) ->
  exists w', step w (AudioDone (currentGenId a) (Some firstAudio)) = Some w' /\
             advanced w w' (currentGenId a) a l 0 (Some firstAudio).
Proof.
  intros Hact Hcur Hi. unfold step. rewrite Hact. eexists. split; [reflexivity|].
  unfold advanced, on_first_audio, loop_from, after_loop, finish, addToLibrary.
  world_simpl;
    repeat (destruct (decide _); try congruence; world_simpl);
    advanced_cases l 0 Hi.
Qed.

(** The current activation was waiting for the image only: the flow commits
    as soon as the image call settles. *)
Lemma image_step (w : World) (a : Args) (l : Locals) (response : ImageResponse) :
  activations w !! currentGenId a = Some (Running a l AwaitImageGen) ->
  imagePending l = true ->
  currentGenId a = generationIdRef w ->
  exists w' ep,
    step w (ImageDone (currentGenId a) response) = Some w' /\
    trace w' = trace w ++ [ImageSettled (currentGenId a) (generateCoverImage response);
                           Commit (currentGenId a) ep] /\
    App.status (state w') = Status.complete /\
    App.isGeneratingAudio (state w') = false /\
    App.library (state w') = ep :: App.library (state w) /\
    Episode.audioSegments ep = audioUrls l /\
    Episode.script ep = script l.
Proof.
  intros Hact Hpend Hcur. unfold step. rewrite Hact, Hpend.
  unfold on_image, finish, addToLibrary. world_simpl.
  rewrite bool_decide_eq_true_2 by done. simpl.
  destruct (negb (String.eqb (generateCoverImage response) "")); world_simpl;
    (destruct (decide _); [|congruence]); world_simpl;
    eexists _, _; (split; [reflexivity|]); world_simpl;
    rewrite <- ?app_assoc; simpl; done.
Qed.

(** The first attempt fails: the error is shown, and nothing else moves. *)
Lemma first_failure_step (w : World) (a : Args) (l : Locals) :
  activations w !! currentGenId a = Some (Running a l AwaitFirstAudio) ->
  exists w',
    step w (AudioDone (currentGenId a) None) = Some w' /\
    App.status (state w') = Status.error /\
    App.error (state w') = Some "Failed to generate audio." /\
    App.isGeneratingAudio (state w') = false /\
    App.library (state w') = App.library (state w) /\
    App.script (state w') = App.script (state w) /\
    App.audioSegments (state w') = App.audioSegments (state w) /\
    activations w' !! currentGenId a = Some (Running a l Returned) /\
    trace w' = trace w ++ [AudioSettled (currentGenId a) 0 None].
Proof.
  intros Hact. unfold step. rewrite Hact. eexists. split; [reflexivity|].
  unfold on_first_audio. world_simpl. rewrite lookup_insert_eq. done.
Qed.

(** Once a chunk has settled for the current activation, the settlements of
    the remaining chunks, whatever they are, followed by the settlement of
    the image call if it is still pending, end in the commit. *)
Lemma advanced_completes (rest : list (option string)) :
  forall (w w1 : World) (a : Args) (l : Locals) (i : nat) (r : option string)
         (response : ImageResponse),
    advanced w w1 (currentGenId a) a l i r ->
    currentGenId a = generationIdRef w ->
    length rest = length (scriptChunks l) - S i ->
    exists w' ep,
      run step w1 (map (AudioDone (currentGenId a)) rest ++
                   (if imagePending l then [ImageDone (currentGenId a) response] else []))
      = Some w' /\
      App.status (state w') = Status.complete /\
      App.library (state w') = ep :: App.library (state w) /\
      Episode.audioSegments ep = (audioUrls l ++ option_list r) ++ omap id rest /\
      Episode.script ep = script l.
Proof.
  induction rest as [|r' rest IH]; intros w w1 a l i r response Hadv Hcur Hlen;
    unfold advanced in Hadv;
    set (l' := match r with
               | Some audio => with_audioUrls (audioUrls l ++ [audio]) l
               | None => l
               end) in *;
    assert (scriptChunks l' = scriptChunks l /\ imagePending l' = imagePending l /\
            script l' = script l /\ audioUrls l' = audioUrls l ++ option_list r)
      as (Hcs & Hpend & Hsc & Hurls)
      by (subst l'; destruct r; simpl; rewrite ?app_nil_r; done);
    destruct Hadv as (Hg & _ & [(chunk & Hlook & Hact & _ & _ & Hlib)
                               |[(Hlast & Hp & Hact & _ & _ & Hlib)
                                |(Hlast & Hp & _ & Hst & _ & ep & _ & Hlib & Hep & Hes)]]);
    simpl in Hlen.
  - apply lookup_lt_Some in Hlook. lia.
  - rewrite Hp. simpl.
    destruct (image_step w1 a l' response Hact ltac:(congruence) ltac:(congruence))
      as (w' & ep & Hstep & _ & Hst & _ & Hlib' & Hep & Hes).
    exists w', ep. rewrite Hstep. simpl. rewrite app_nil_r.
    split; [done|]. split; [done|]. split; [congruence|]. split; congruence.
  - rewrite Hp. simpl. exists w1, ep. rewrite app_nil_r.
    split; [done|]. split; [done|]. split; [done|]. split; congruence.
  - pose proof (lookup_lt_Some _ _ _ Hlook) as Hlt.
    destruct (chunk_step w1 a l' (S i) r' Hact ltac:(congruence) ltac:(congruence))
      as (w2 & Hstep & Hadv').
    destruct (IH w1 w2 a l' (S i) r' response Hadv' ltac:(congruence)
                ltac:(rewrite Hcs; lia))
      as (w' & ep & Hrun & Hst & Hlib' & Hep & Hes).
    exists w', ep. simpl. rewrite Hstep. simpl. rewrite <- Hpend.
    split; [done|]. split; [done|]. split; [congruence|]. split; [|congruence].
    rewrite Hep, Hurls, <- !app_assoc. by destruct r'.
  - lia.
  - lia.
Qed.

Lemma omap_id_sublist (rs : list (option string)) :
  (Some <$> omap id rs) `sublist_of` rs.
Proof.
  induction rs as [|[u|] rs IH]; simpl.
  - constructor.
  - by apply sublist_skip.
  - by apply sublist_cons.
Qed.

Lemma omap_id_length (rs : list (option string)) :
  length (omap id rs) <= length rs /\ (None ∈ rs -> length (omap id rs) < length rs).
Proof.
  induction rs as [|[u|] rs [IH1 IH2]]; unfold omap in *; simpl.
  - split; [lia|]. intros H. by apply elem_of_nil in H.
  - split; [lia|]. intros H. apply elem_of_cons in H as [H|H]; [done|].
    apply IH2 in H. lia.
  - split; [lia|]. intros _. lia.
Qed.

(** C4.  For an activation whose script has arrived, in any reachable state:
    - its audio calls are strictly sequential in chunk order: the attempts
      for chunks 0, 1, ... settled one after the other with results [rs], and
      at most the next chunk is being requested;
    - while it is current and waits for chunk 0: if that attempt succeeds
      with [firstAudio] and the attempts for the chunks 1..N-1 then settle
      with any results [rest], failures included, and the image call settles
      if it is pending, the run ends with status [complete] and one more
      library entry, whose audio list is [firstAudio] followed by the
      successful results of [rest] in order;
    - while it is current and waits for chunk [i], the settlement of that
      attempt, failed or not, is taken: a failure surfaces no error and adds
      nothing, and the flow goes on to chunk [i + 1], or, after the last
      chunk, waits for the image or commits with status [complete];
    - while it is current and waits for the image only, the settlement of the
      image call commits with status [complete];
    - when it is current, has returned and chunk 0 did not fail, it has
      committed: every chunk was attempted, and the episode's audio list is
      the list of the successful results in chunk order, shorter than the
      number of chunks as soon as one attempt failed. *)
Theorem chunks_sequential_failures_skipped (st : AppState) (evs : list Event)
    (w : World) (sid : nat) (a : Args) (l : Locals) (p : Point) :
  run step (boot st) evs = Some w ->
  activations w !! sid = Some (Running a l p) ->
  exists rs : list (option string),
    sequenced (scriptChunks l) rs (audio_trace (proj sid (trace w))) /\
    (sid = generationIdRef w -> audioUrls l = omap id rs) /\
    (forall firstAudio rest response,
       p = AwaitFirstAudio -> sid = generationIdRef w ->
       length rest = length (scriptChunks l) - 1 ->
       exists w' ep,
         run step w (AudioDone sid (Some firstAudio) :: map (AudioDone sid) rest ++
                     (if imagePending l then [ImageDone sid response] else []))
         = Some w' /\
         App.status (state w') = Status.complete /\
         App.library (state w') = ep :: App.library (state w) /\
         Episode.script ep = script l /\
         Episode.audioSegments ep = firstAudio :: omap id rest /\
         (Some <$> Episode.audioSegments ep) `sublist_of` (Some firstAudio :: rest) /\
         (None ∈ rest -> length (Episode.audioSegments ep) < length (scriptChunks l))) /\
    (forall i r, p = AwaitChunk i -> sid = generationIdRef w ->
       exists w', step w (AudioDone sid r) = Some w' /\ advanced w w' sid a l i r) /\
    (forall response, p = AwaitImageGen -> sid = generationIdRef w ->
       exists w' ep,
         step w (ImageDone sid response) = Some w' /\
         trace w' = trace w ++ [ImageSettled sid (generateCoverImage response);
                                Commit sid ep] /\
         App.status (state w') = Status.complete /\
         App.library (state w') = ep :: App.library (state w) /\
         Episode.audioSegments ep = omap id rs) /\
    (p = Returned -> sid = generationIdRef w -> rs <> [None] ->
       exists body ep,
         committed sid (proj sid (trace w)) a l rs body ep /\
         length rs = length (scriptChunks l) /\
         Episode.audioSegments ep = omap id rs /\
         (Some <$> Episode.audioSegments ep) `sublist_of` rs /\
         length (Episode.audioSegments ep) <= length (scriptChunks l) /\
         (None ∈ rs -> length (Episode.audioSegments ep) < length (scriptChunks l))).
Proof.
  intros Hrun Hact. pose proof (reach_winv _ _ _ Hrun) as Hw.
  destruct (audio_sequenced _ _ _ _ _ _ Hw Hact) as (rs & Hseq & Hurls & Hdone).
  destruct (running_shape _ _ _ _ _ _ Hw Hact)
    as (Hid & Hchunks & body & Htr & _ & _ & _ & [_ Himg] & rs' & Hurls' & Hpoint).
  subst sid. exists rs. split; [done|]. split; [done|]. split; [|split; [|split]].
  - intros firstAudio rest response -> Hcur Hlen.
    destruct Hpoint as (-> & _ & chunk & Hlook & _).
    apply lookup_lt_Some in Hlook.
    destruct (first_success_step w a l firstAudio Hact Hcur Hlook) as (w1 & Hstep & Hadv).
    destruct (advanced_completes rest w w1 a l 0 (Some firstAudio) response Hadv Hcur Hlen)
      as (w' & ep & Hrun' & Hst & Hlib & Hep & Hes).
    exists w', ep. simpl. rewrite Hstep. simpl.
    rewrite Hurls' in Hep by done. simpl in Hep.
    split; [done|]. split; [done|]. split; [done|]. split; [done|]. split; [done|].
    rewrite Hep. split.
    + simpl. apply sublist_skip, omap_id_sublist.
    + intros Hnone. destruct (omap_id_length rest) as [_ Hlt].
      specialize (Hlt Hnone). simpl. lia.
  - intros i r -> Hcur. apply chunk_step; [done|done|].
    destruct Hpoint as (_ & _ & _ & _ & chunk & Hlook & _).
    by apply lookup_lt_Some in Hlook.
  - intros response -> Hcur.
    destruct Hpoint as (_ & _ & _ & _ & Hpend & _).
    destruct (image_step w a l response Hact Hpend Hcur)
      as (w' & ep & Hstep & Htr' & Hst & _ & Hlib & Hep & _).
    exists w', ep. rewrite Hep, <- Hurls by done. done.
  - intros -> Hcur Hrs.
    destruct (Hdone eq_refl Hcur Hrs) as (body' & ep & Hc).
    exists body', ep. split; [done|].
    destruct Hc as (_ & _ & _ & _ & Hlen & _ & _ & _ & _ & Hep & _).
    rewrite Hep, <- Hlen. split; [done|]. split; [done|].
    split; [apply omap_id_sublist|]. apply omap_id_length.
Qed.

(** C3.  When the attempt for chunk 0 fails, the status becomes [error], the
    library and the script in the store are as before (the script being that
    of the activation when it is the current one), and from then on the
    activation requests no chunk and commits nothing: its audio trace stays
    the one call and its failure. *)
Theorem first_chunk_failure_fatal (st : AppState) (evs : list Event) (w : World)
    (sid : nat) (a : Args) (l : Locals) :
  run step (boot st) evs = Some w ->
  activations w !! sid = Some (Running a l AwaitFirstAudio) ->
  exists w',
    step w (AudioDone sid None) = Some w' /\
    App.status (state w') = Status.error /\
    App.error (state w') = Some "Failed to generate audio." /\
    App.isGeneratingAudio (state w') = false /\
    App.library (state w') = App.library (state w) /\
    App.script (state w') = App.script (state w) /\
    (sid = generationIdRef w -> App.script (state w') = Some (script l)) /\
    trace w' = trace w ++ [AudioSettled sid 0 None] /\
    forall evs' w'',
      run step w' evs' = Some w'' ->
      audio_trace (proj sid (trace w'')) = audio_trace (proj sid (trace w')) /\
      length (audio_trace (proj sid (trace w''))) = 2 /\
      commits (proj sid (trace w'')) = [].
Proof.
  intros Hrun Hact. pose proof (reach_winv _ _ _ Hrun) as Hw.
  pose proof (winv_ids _ _ _ _ Hw Hact) as Hid. simpl in Hid. subst sid.
  destruct (first_failure_step w a l Hact)
    as (w' & Hstep & Hst & Herr & Hgen & Hlib & Hscript & _ & _ & Htr).
  exists w'. do 6 (split; [done|]). split.
  { intros Hcur. rewrite Hscript. rewrite Hcur in Hact.
    by apply (inv_script _ _ Hw a l AwaitFirstAudio). }
  split; [done|]. intros evs' w'' Hrun'.
  pose proof (step_winv _ _ _ _ Hw Hstep) as Hw'.
  pose proof (run_winv _ _ _ _ Hw' Hrun') as Hw''.
  destruct (run_trace_extends _ _ _ Hrun') as [items Hitems].
  assert (ARet 0 None ∈ audio_trace (proj (currentGenId a) (trace w'))) as Hin'.
  { rewrite Htr, proj_snoc_eq, audio_trace_snoc by done. apply elem_of_app. right.
    simpl. left. }
  assert (ARet 0 None ∈ audio_trace (proj (currentGenId a) (trace w''))) as Hin''.
  { rewrite Hitems, proj_app. unfold audio_trace. rewrite omap_app.
    apply elem_of_app. by left. }
  destruct (failed_first_final _ _ _ Hw' Hin') as [Hlen' _].
  destruct (failed_first_final _ _ _ Hw'' Hin'') as [Hlen'' Hno].
  split; [|done].
  rewrite Hitems, proj_app in Hlen'' |- *. unfold audio_trace in *.
  rewrite omap_app in Hlen'' |- *. rewrite length_app in Hlen''.
  destruct (omap audio_act (proj (currentGenId a) items)); simpl in *;
    [by rewrite app_nil_r | lia].
Qed.

(** *** A script without lines *)

Lemma chunkScript_empty (sc : PodcastScript) :
  lines sc = [] -> chunkScript sc 6 = Some [].
Proof. destruct sc as [? ? ? ? ls]. simpl. by intros ->. Qed.

Lemma commits_proj_commit (sid : nat) (tr : list Action) (act : Action)
    (ep : PodcastEpisode) :
  sid_of act = sid -> commit_act act = None -> commits (proj sid tr) = [] ->
  commits (proj sid (tr ++ [act; Commit sid ep])) = [ep].
Proof.
  intros Hsid Hact Hno.
  change [act; Commit sid ep] with ([act] ++ [Commit sid ep]).
  rewrite app_assoc, !proj_snoc_eq, !commits_snoc, Hno, Hact by done. done.
Qed.

Lemma script_step_empty (w : World) (a : Args) (sc : PodcastScript) :
  activations w !! currentGenId a = Some (AwaitScript a) ->
  currentGenId a = generationIdRef w ->
  lines sc = [] ->
  exists w',
    step w (ScriptDone (currentGenId a) (inr sc)) = Some w' /\
    if wants_image a then
      exists l,
        activations w' !! currentGenId a = Some (Running a l AwaitImageGen) /\
        script l = sc /\ scriptChunks l = [] /\ imagePending l = true /\
        trace w' = trace w ++ [ScriptSettled (currentGenId a) (inr sc);
                               CallImage (currentGenId a) (topic sc)] /\
        App.status (state w') = Status.synthesizing /\
        App.library (state w') = App.library (state w)
    else
      exists ep,
        trace w' = trace w ++ [ScriptSettled (currentGenId a) (inr sc);
                               Commit (currentGenId a) ep] /\
        App.status (state w') = Status.complete /\
        App.isGeneratingAudio (state w') = false /\
        App.library (state w') = ep :: App.library (state w) /\
        Episode.audioSegments ep = [] /\ Episode.script ep = sc.
Proof.
  intros Hact Hcur Hlines. unfold step. rewrite Hact.
  unfold on_script. world_simpl.
  destruct (decide (generationIdRef w <> currentGenId a)); [congruence|].
  rewrite (chunkScript_empty sc Hlines). simpl. fold (wants_image a).
  unfold loop_from, after_loop, finish, addToLibrary. eexists. split; [reflexivity|].
  destruct (wants_image a); world_simpl; rewrite lookup_nil; world_simpl.
  - eexists. rewrite lookup_insert_eq, <- ?app_assoc. done.
  - destruct (decide _); [|congruence]. world_simpl.
    eexists. rewrite <- ?app_assoc. done.
Qed.

(** C10.  A current activation whose script has no line:
    - when the script arrives, either requests the cover image and waits for
      it, or, when no image is to be generated, commits at once, with status
      [complete] and an episode without audio segments;
    - from then on it has requested no audio at all, and it either still
      waits for the image, whose settlement commits with status [complete]
      and an episode without audio segments, or has committed exactly one
      episode, without audio segments. *)
Theorem empty_script_completes (st : AppState) (evs : list Event) (w : World)
    (sid : nat) :
  run step (boot st) evs = Some w ->
  sid = generationIdRef w ->
  (forall a sc,
     activations w !! sid = Some (AwaitScript a) -> lines sc = [] ->
     chunkScript sc 6 = Some [] /\
     exists w',
       step w (ScriptDone sid (inr sc)) = Some w' /\
       audio_trace (proj sid (trace w')) = [] /\
       if wants_image a then
         exists l,
           activations w' !! sid = Some (Running a l AwaitImageGen) /\
           script l = sc /\ imagePending l = true
       else
         exists ep,
           commits (proj sid (trace w')) = [ep] /\
           App.status (state w') = Status.complete /\
           App.library (state w') = ep :: App.library (state w) /\
           Episode.audioSegments ep = [] /\ Episode.script ep = sc) /\
  (forall a l p,
     activations w !! sid = Some (Running a l p) -> lines (script l) = [] ->
     scriptChunks l = [] /\
     audio_trace (proj sid (trace w)) = [] /\
     ((p = AwaitImageGen /\ imagePending l = true /\
       commits (proj sid (trace w)) = [] /\
       forall response,
         exists w' ep,
           step w (ImageDone sid response) = Some w' /\
           commits (proj sid (trace w')) = [ep] /\
           App.status (state w') = Status.complete /\
           App.library (state w') = ep :: App.library (state w) /\
           Episode.audioSegments ep = [] /\ Episode.script ep = script l) \/
      (p = Returned /\
       exists ep,
         commits (proj sid (trace w)) = [ep] /\
         Episode.audioSegments ep = [] /\ Episode.script ep = script l))).
Proof.
  intros Hrun Hsid. pose proof (reach_winv _ _ _ Hrun) as Hw. split.
  - intros a sc Hact Hlines. split; [by apply chunkScript_empty|].
    pose proof (winv_ids _ _ _ _ Hw Hact) as Hid. simpl in Hid.
    revert Hsid. subst sid. intros Hcur.
    destruct (inv_sessions _ _ Hw _ _ Hact) as [_ [_ Htr]].
    destruct (script_step_empty w a sc Hact Hcur Hlines) as (w' & Hstep & Hres).
    exists w'. split; [done|].
    destruct (wants_image a).
    + destruct Hres as (l & Hact' & Hs & Hcs & Hpend & Htr' & _).
      rewrite Htr'.
      change [ScriptSettled (currentGenId a) (inr sc);
              CallImage (currentGenId a) (topic sc)]
        with ([ScriptSettled (currentGenId a) (inr sc)]
              ++ [CallImage (currentGenId a) (topic sc)]).
      rewrite app_assoc, !proj_snoc_eq, Htr by done. split; [done|]. by exists l.
    + destruct Hres as (ep & Htr' & Hst & _ & Hlib & Hau & Hsc).
      rewrite Htr'. split.
      * change [ScriptSettled (currentGenId a) (inr sc); Commit (currentGenId a) ep]
          with ([ScriptSettled (currentGenId a) (inr sc)]
                ++ [Commit (currentGenId a) ep]).
        by rewrite app_assoc, !proj_snoc_eq, Htr.
      * exists ep. split; [|done]. apply commits_proj_commit; [done|done|].
        by rewrite Htr.
  - intros a l p Hact Hlines.
    destruct (running_shape _ _ _ _ _ _ Hw Hact)
      as (Hid & Hchunks & body & Htr & Haudio & Hcommits & _ & Himg & rs & Hurls & Hpoint).
    rewrite (chunkScript_empty _ Hlines) in Hchunks. injection Hchunks as Hcs.
    symmetry in Hcs. split; [done|]. rewrite Hcs in Hpoint.
    assert (currentGenId a = generationIdRef w) as Hcur by congruence.
    destruct p.
    + destruct Hpoint as (_ & _ & chunk & Hlook & _). done.
    + destruct Hpoint as (_ & _ & _ & _ & chunk & Hlook & _).
      by rewrite lookup_nil in Hlook.
    + destruct Hpoint as (Hau & Hlen & _ & _ & Hpend & Hno).
      destruct rs; [|simpl in Hlen; lia].
      split; [by rewrite Haudio, Hau|]. left. split; [done|]. split; [done|].
      split; [by rewrite Hcommits|]. intros response.
      revert Hsid. subst sid. intros _.
      destruct (image_step w a l response Hact Hpend Hcur)
        as (w' & ep & Hstep & Htr' & Hst & _ & Hlib & Hep & Hsc).
      exists w', ep. split; [done|]. split.
      { rewrite Htr'. apply commits_proj_commit; [done|done|]. by rewrite Hcommits. }
      split; [done|]. split; [done|]. rewrite Hep, Hurls by done. done.
    + destruct Hpoint as (Hau & Hlen & _).
      destruct rs; [|simpl in Hlen; lia].
      split; [by rewrite Haudio, Hau|]. right. split; [done|].
      destruct (audio_sequenced _ _ _ _ _ _ Hw Hact) as (rs' & [Hlen' _] & _ & Hdone).
      rewrite Hcs in Hlen'. destruct rs'; [|simpl in Hlen'; lia].
      destruct (Hdone eq_refl Hsid ltac:(done)) as (body' & ep & Hc).
      exists ep. destruct Hc as (_ & Hc & _ & _ & _ & _ & _ & _ & Hsc & Hep & _).
      done.
Qed.

(** *** Settlements for a superseded epoch *)

(** X1.  A settlement that arrives for a superseded activation leaves the
    store as it is, with one exception: the failure of the attempt for chunk 0,
    whose handler writes without looking at the epoch. *)
Lemma stale_settlement_dropped (st : AppState) (evs : list Event) (w w' : World)
    (ev : Event) (sid : nat) :
  run step (boot st) evs = Some w ->
  event_sid ev = Some sid -> sid <> generationIdRef w ->
  step w ev = Some w' ->
  state w' = state w \/
  (ev = AudioDone sid None /\
   exists a l, activations w !! sid = Some (Running a l AwaitFirstAudio)).
Proof.
  intros Hrun Hsid Hstale Hstep. pose proof (reach_winv _ _ _ Hrun) as Hw.
  pose proof (fun act => winv_ids _ w sid act Hw) as Hid. clear Hrun Hw.
  destruct ev as [| |sid0 r|sid0 r|sid0 r]; simpl in Hsid; try done;
    injection Hsid as ->; unfold_step; step_cases;
    pose proof (Hid _ eq_refl) as Hid'; simpl in Hid'; subst sid;
    world_simpl;
    try (match goal with
         | H : bool_decide _ && _ = true |- _ =>
             apply andb_prop in H as [H _]; apply bool_decide_eq_true_1 in H
         end);
    first [ left; reflexivity | congruence | exfalso; lia | right; eauto ].
Qed.

Lemma stale_settlement_dropped_witness :
  exists w w',
    run step (boot empty_state)
      [StartGeneration "custom" None true; ScriptDone 1 (inr (demo_script 1));
       StopGeneration] = Some w /\
    step w (AudioDone 1 (Some "blob:a0")) = Some w' /\
    state w' = state w.
Proof.
  eexists _, _. split; [vm_compute; reflexivity|]. split; [vm_compute; reflexivity|].
  destruct (stale_settlement_dropped empty_state
              [StartGeneration "custom" None true; ScriptDone 1 (inr (demo_script 1));
               StopGeneration] _ _ (AudioDone 1 (Some "blob:a0")) 1
              ltac:(vm_compute; reflexivity) eq_refl ltac:(simpl; lia)
              ltac:(vm_compute; reflexivity)) as [H|[H _]];
    [exact H | discriminate H].
Defined.

(** C1 at its failing input.  A generation is started, the script arrives,
    the user cancels (epoch 2, status [idle], no error), and then the attempt
    for chunk 0 of the cancelled activation fails: the store takes the status
    [error] and the message of the failure. *)
Lemma stale_first_chunk_failure_shown :
  exists w w',
    run step (boot empty_state)
      [StartGeneration "custom" None true; ScriptDone 1 (inr (demo_script 1));
       StopGeneration] = Some w /\
    generationIdRef w = 2 /\
    App.status (state w) = Status.idle /\ App.error (state w) = None /\
    step w (AudioDone 1 None) = Some w' /\
    App.status (state w') = Status.error /\
    App.error (state w') = Some "Failed to generate audio." /\
    state w' <> state w.
Proof.
  eexists _, _. split; [vm_compute; reflexivity|]. do 3 (split; [reflexivity|]).
  split; [vm_compute; reflexivity|]. do 2 (split; [reflexivity|]). discriminate.
Qed.

(** The same with a new generation in place of the cancellation: the running
    generation is shown as failed. *)
Lemma stale_first_chunk_failure_hits_next :
  exists w w',
    run step (boot empty_state)
      [StartGeneration "custom" None true; ScriptDone 1 (inr (demo_script 1));
       StartGeneration "Finance" None false] = Some w /\
    generationIdRef w = 2 /\ App.status (state w) = Status.scripting /\
    step w (AudioDone 1 None) = Some w' /\
    App.status (state w') = Status.error /\
    App.error (state w') = Some "Failed to generate audio.".
Proof.
  eexists _, _. split; [vm_compute; reflexivity|]. do 2 (split; [reflexivity|]).
  split; [vm_compute; reflexivity|]. split; reflexivity.
Qed.

(** *** Runs *)

Lemma commit_once_after_all_settled_witness :
  exists w,
    run step (boot empty_state)
      [StartGeneration "custom" None false; ScriptDone 1 (inr (demo_script 7));
       AudioDone 1 (Some "blob:a0"); AudioDone 1 (Some "blob:a1")] = Some w /\
    App.library (state w) = rev (commits (trace w)) ++ App.library empty_state /\
    map Episode.audioSegments (App.library (state w)) = [["blob:a0"; "blob:a1"]].
Proof.
  eexists. split; [vm_compute; reflexivity|].
  destruct (commit_once_after_all_settled empty_state
              [StartGeneration "custom" None false; ScriptDone 1 (inr (demo_script 7));
               AudioDone 1 (Some "blob:a0"); AudioDone 1 (Some "blob:a1")] _ 1
              ltac:(vm_compute; reflexivity))
    as [Hlib _].
  split; [exact Hlib | reflexivity].
Defined.

Lemma first_chunk_failure_fatal_witness :
  exists w w',
    run step (boot empty_state)
      [StartGeneration "custom" None false; ScriptDone 1 (inr (demo_script 7))] = Some w /\
    step w (AudioDone 1 None) = Some w' /\
    App.status (state w') = Status.error /\
    App.library (state w') = App.library (state w) /\
    App.script (state w') = Some (demo_script 7).
Proof.
  destruct (first_chunk_failure_fatal empty_state
              [StartGeneration "custom" None false; ScriptDone 1 (inr (demo_script 7))]
              _ 1 _ _ ltac:(vm_compute; reflexivity) ltac:(vm_compute; reflexivity))
    as (w' & Hstep & Hst & _ & _ & Hlib & _ & Hscript & _).
  eexists _, w'. split; [vm_compute; reflexivity|]. split; [exact Hstep|].
  split; [exact Hst|]. split; [exact Hlib|]. exact (Hscript eq_refl).
Defined.

Lemma chunks_sequential_failures_skipped_witness :
  exists w a l rs,
    run step (boot empty_state)
      [StartGeneration "custom" None false; ScriptDone 1 (inr (demo_script 13));
       AudioDone 1 (Some "blob:a0"); AudioDone 1 None] = Some w /\
    activations w !! 1 = Some (Running a l (AwaitChunk 2)) /\
    sequenced (scriptChunks l) rs (audio_trace (proj 1 (trace w))) /\
    audioUrls l = omap id rs.
Proof.
  destruct (chunks_sequential_failures_skipped empty_state
              [StartGeneration "custom" None false; ScriptDone 1 (inr (demo_script 13));
               AudioDone 1 (Some "blob:a0"); AudioDone 1 None]
              _ 1 _ _ (AwaitChunk 2) ltac:(vm_compute; reflexivity)
              ltac:(vm_compute; reflexivity))
    as (rs & Hseq & Hurls & _).
  eexists _, _, _, rs. split; [vm_compute; reflexivity|].
  split; [vm_compute; reflexivity|].
  split; [exact Hseq | exact (Hurls eq_refl)].
Defined.

Lemma empty_script_completes_witness :
  exists w w' ep,
    run step (boot empty_state) [StartGeneration "custom" None false] = Some w /\
    step w (ScriptDone 1 (inr (demo_script 0))) = Some w' /\
    audio_trace (proj 1 (trace w')) = [] /\
    commits (proj 1 (trace w')) = [ep] /\
    App.status (state w') = Status.complete /\
    Episode.audioSegments ep = [].
Proof.
  destruct (empty_script_completes empty_state [StartGeneration "custom" None false]
              _ 1 ltac:(vm_compute; reflexivity) eq_refl) as [Hscript _].
  destruct (Hscript _ (demo_script 0) ltac:(vm_compute; reflexivity) eq_refl)
    as (_ & w' & Hstep & Haudio & ep & Hc & Hst & _ & Hau & _).
  eexists _, w', ep. split; [vm_compute; reflexivity|]. split; [exact Hstep|].
  split; [exact Haudio|]. split; [exact Hc|]. split; [exact Hst | exact Hau].
Defined.

End SessionFacts.

(** ** utils/audioUtils.ts: edge cases of the chunker *)

Lemma chunkScript_loop_stuck (script : PodcastScript) (fuel : nat) :
  forall chunks, lines script <> [] -> chunkScript_loop fuel script 0 0 chunks = None.
Proof.
  induction fuel as [|fuel IH]; intros chunks Hne; simpl;
    (destruct (decide (0 < length (lines script))) as [_|Hlen];
     [| destruct (lines script); [done | simpl in Hlen; lia]]); [done|].
  by apply IH.
Qed.

Lemma with_lines_id (script : PodcastScript) : with_lines script (lines script) = script.
Proof. by destruct script. Qed.

(** X2.  With a chunk size of 0 the loop index never moves: on a script with
    at least one line the loop is still running whatever the number of
    iterations allowed, so [chunkScript] does not return.  On a script
    without lines the loop is not entered and the result is the empty list,
    for every chunk size, 0 included. *)
Theorem chunkScript_zero_size (script : PodcastScript) :
  match lines script with
  | [] => forall K, chunkScript script K = Some []
  | _ :: _ => forall fuel chunks, chunkScript_loop fuel script 0 0 chunks = None
  end.
Proof.
  destruct (lines script) as [|l ls] eqn:Hl.
  - intros K. unfold chunkScript. rewrite Hl. simpl. rewrite Hl.
    destruct (decide _) as [Hlt|_]; [simpl in Hlt; lia | done].
  - intros fuel chunks. apply chunkScript_loop_stuck. by rewrite Hl.
Qed.

(** X3.  For a positive chunk size [K], every chunk but the last has exactly
    [K] lines, the last one has the lines that remain, and a script of 1 to
    [K] lines comes back as a single chunk equal to the script itself. *)
Theorem chunkScript_full_chunks (script : PodcastScript) (K : nat)
    (chunks : list PodcastScript) :
  0 < K ->
  chunkScript script K = Some chunks ->
  (forall j c, chunks !! j = Some c -> S j < length chunks -> length (lines c) = K) /\
  (forall c, last chunks = Some c ->
     length (lines c) = length (lines script) - (length chunks - 1) * K) /\
  (0 < length (lines script) <= K -> chunks = [script]).
Proof.
  intros HK Hrun.
  destruct (chunkScript_spec script K HK) as (chunks' & Hrun' & Hlen & Hcat & Hnth).
  rewrite Hrun in Hrun'. injection Hrun' as <-.
  rewrite Nat.sub_0_r in Hlen.
  pose proof (ceil_div_char (length (lines script)) K HK) as [Hup Hlow].
  rewrite <- Hlen in Hup, Hlow.
  assert (forall j c, chunks !! j = Some c ->
            length (lines c) = K `min` (length (lines script) - j * K)) as Hsize.
  { intros j c Hj. apply Hnth in Hj. subst c. simpl.
    unfold slice. rewrite length_take, length_drop. lia. }
  split; [|split].
  - intros j c Hj Hnext. rewrite (Hsize j c Hj).
    assert (0 < length (lines script)) as Hpos.
    { destruct (length (lines script)); [|lia].
      unfold ceil_div in Hlen. rewrite Nat.div_small in Hlen by lia. lia. }
    specialize (Hlow Hpos). nia.
  - intros c Hlast. rewrite last_lookup in Hlast.
    rewrite (Hsize _ c Hlast).
    replace (Init.Nat.pred (length chunks)) with (length chunks - 1) by lia.
    pose proof (lookup_lt_Some _ _ _ Hlast). nia.
  - intros [Hpos Hle]. specialize (Hlow Hpos).
    assert (length chunks = 1) as H1 by nia.
    destruct chunks as [|c [|c' cs]]; simpl in H1; try lia.
    specialize (Hnth 0 c eq_refl). simpl in Hnth. subst c.
    unfold slice. rewrite drop_0, take_ge by lia. by rewrite with_lines_id.
Qed.

Lemma chunkScript_full_chunks_witness :
  exists chunks,
    chunkScript (demo_script 8) 6 = Some chunks /\
    forall c, last chunks = Some c ->
      length (lines c) = length (lines (demo_script 8)) - (length chunks - 1) * 6.
Proof.
  eexists. split; [vm_compute; reflexivity|].
  refine (proj1 (proj2 (chunkScript_full_chunks (demo_script 8) 6 _ _ _)));
    [lia | vm_compute; reflexivity].
Defined.

(** ** utils/audioUtils.ts: writeString *)

Lemma charCode_byte (c : Ascii.ascii) : (0 <= charCode c < 256)%Z.
Proof.
  unfold charCode. pose proof (Ascii.nat_ascii_bounded c) as H. lia.
Qed.

Lemma writeString_loop_spec (chars : list Ascii.ascii) : forall view offset i,
  writeString_loop view offset chars i
  = if decide (length chars = 0 \/ offset + i + length chars <= length view)
    then Some (take (offset + i) view ++ map charCode chars
               ++ drop (offset + i + length chars) view)
    else None.
Proof.
  induction chars as [|c cs IH]; intros view offset i; cbn [writeString_loop].
  - case_decide as Hno; [|exfalso; apply Hno; by left].
    simpl. by rewrite Nat.add_0_r, take_drop.
  - unfold setUint8. cbn [length map].
    destruct (Nat.leb_spec (offset + i + 1) (length view)) as [Hin|Hout];
      cbn [mbind option_bind].
    + rewrite IH, length_insert.
      rewrite Z.mod_small by (pose proof (charCode_byte c); lia).
      destruct (decide (length cs = 0 \/ offset + S i + length cs <= length view))
        as [Hok|Hno].
      * assert (offset + i + S (length cs) <= length view) as Hfit by lia.
        destruct (decide _) as [_|Hno']; [|exfalso; apply Hno'; by right].
        f_equal.
        replace (offset + S i) with (S (offset + i)) by lia.
        rewrite (take_S_r _ _ (charCode c)) by (apply list_lookup_insert_eq; lia).
        rewrite take_insert_ge by lia.
        rewrite drop_insert_lt by lia.
        rewrite <- app_assoc. simpl.
        by replace (S (offset + i + length cs)) with (offset + i + S (length cs)) by lia.
      * destruct (decide _) as [[Hnil|Hfit]|_]; [done| |done].
        exfalso. apply Hno. right. lia.
    + destruct (decide _) as [[Hnil|Hfit]|_]; [done| |done]. lia.
Qed.

Lemma length_list_ascii_of_string (s : string) :
  length (String.list_ascii_of_string s) = String.length s.
Proof. induction s as [|c s IH]; simpl; [done | by rewrite IH]. Qed.

(** X4.  [writeString] overwrites the bytes [offset .. offset + length) of
    the view with the character codes of the string and leaves every other
    byte as it was; it raises a RangeError exactly when the string is not
    empty and does not fit between [offset] and the end of the view. *)
Theorem writeString_range (view : list Z) (offset : nat) (s : string) :
  writeString view offset s
  = if decide (s = "" \/ offset + String.length s <= length view)
    then Some (take offset view ++ codes s ++ drop (offset + String.length s) view)
    else None.
Proof.
  unfold writeString. rewrite writeString_loop_spec, Nat.add_0_r.
  rewrite length_list_ascii_of_string. fold (codes s).
  destruct (decide (s = "" \/ _)) as [Hok|Hno];
    destruct (decide (String.length s = 0 \/ _)) as [Hok'|Hno'];
    try done.
  - exfalso. apply Hno'. destruct Hok as [->|Hok]; [by left | by right].
  - exfalso. apply Hno. destruct Hok' as [Hnil|Hok']; [left | by right].
    destruct s; [done | discriminate].
Qed.

(** ** utils/audioUtils.ts: merging what [createWavBlob] built *)

Lemma mergeAudioSegments_run (fetch : string -> option (list Z)) (segmentUrls : list string)
    (buffers : list (list Z)) :
  mapM fetch segmentUrls = Some buffers ->
  mergeAudioSegments fetch segmentUrls
  = createWavBlob (concat (map pcm_payload buffers)) 24000.
Proof.
  intros Hfetch. unfold mergeAudioSegments. rewrite Hfetch. simpl.
  rewrite strip_headers_spec. simpl.
  pose proof (copy_chunks_spec (map pcm_payload buffers) []
                (new_Uint8Array (length (concat (map pcm_payload buffers))))) as Hcopy.
  simpl in Hcopy. rewrite Hcopy; [done|]. apply length_replicate.
Qed.

Lemma pcm_payload_wav (pcmData : list Z) (dataSize sampleRate : Z) :
  pcm_payload (wav_header dataSize sampleRate ++ pcmData) = pcmData.
Proof.
  unfold pcm_payload. rewrite length_app, wav_header_length.
  destruct (decide _) as [_|Hshort].
  - by rewrite drop_app_length'.
  - destruct pcmData; [done | simpl in Hshort; lia].
Qed.

(** X5.  Merging segments that were built by [createWavBlob], at whatever
    sample rates, gives the container [createWavBlob] builds at 24000 Hz for
    the concatenation of their payloads: the headers are stripped and the
    payloads survive byte for byte, empty payloads included. *)
Theorem mergeAudioSegments_of_wav_blobs (fetch : string -> option (list Z))
    (segmentUrls : list string) (segments : list (list Z * Z)) :
  Forall2 (fun url seg => fetch url = createWavBlob seg.1 seg.2) segmentUrls segments ->
  mergeAudioSegments fetch segmentUrls = createWavBlob (concat segments.*1) 24000.
Proof.
  intros Hsegs.
  rewrite (mergeAudioSegments_run fetch segmentUrls
             (map (fun seg => wav_header (Z.of_nat (length seg.1)) seg.2 ++ seg.1) segments)).
  - f_equal. f_equal. rewrite <- list_fmap_compose.
    apply list_fmap_ext. intros _ seg _. simpl. apply pcm_payload_wav.
  - apply mapM_Some. apply Forall2_fmap_r.
    eapply Forall2_impl; [exact Hsegs|]. intros url seg Hf. simpl.
    by rewrite Hf, createWavBlob_eq.
Qed.

Lemma mergeAudioSegments_of_wav_blobs_witness :
  mergeAudioSegments
    (fun url => if decide (url = "blob:1") then createWavBlob [7; 8]%Z 24000
                else createWavBlob [9]%Z 16000)
    ["blob:1"; "blob:2"]
  = createWavBlob [7; 8; 9]%Z 24000.
Proof.
  apply (mergeAudioSegments_of_wav_blobs _ _ [([7; 8]%Z, 24000%Z); ([9]%Z, 16000%Z)]).
  repeat constructor.
Defined.

Lemma mergeAudioSegments_None (fetch : string -> option (list Z)) (segmentUrls : list string) :
  mergeAudioSegments fetch segmentUrls = None
  <-> exists url, url ∈ segmentUrls /\ fetch url = None.
Proof.
  split.
  - intros Hnone.
    destruct (mapM fetch segmentUrls) as [buffers|] eqn:Hfetch.
    + rewrite (mergeAudioSegments_run _ _ _ Hfetch), createWavBlob_eq in Hnone. done.
    + apply eq_None_not_Some in Hfetch. rewrite mapM_is_Some in Hfetch.
      apply not_Forall_Exists in Hfetch; [|intros x; apply _].
      apply Exists_exists in Hfetch as (url & Hin & Hf).
      exists url. split; [done|]. simpl in Hf. by apply eq_None_not_Some.
  - intros (url & Hin & Hf). unfold mergeAudioSegments.
    destruct (mapM fetch segmentUrls) as [buffers|] eqn:Hfetch; [|done].
    assert (is_Some (mapM fetch segmentUrls)) as Hsome by (by rewrite Hfetch).
    rewrite mapM_is_Some, Forall_forall in Hsome.
    specialize (Hsome url Hin). simpl in Hsome. rewrite Hf in Hsome. by destruct Hsome.
Qed.

(** X6.  [mergeAudioSegments] rejects exactly when the fetch of one of the
    segment URLs fails; the stripping, the copying and the new header never
    fail. *)
Theorem mergeAudioSegments_rejects_iff (fetch : string -> option (list Z))
    (segmentUrls : list string) :
  mergeAudioSegments fetch segmentUrls = None
  <-> exists url, url ∈ segmentUrls /\ fetch url = None.
Proof. apply mergeAudioSegments_None. Qed.

(** ** services/gemini.ts: what a resolved [generateAudio] points at *)

(** What the [try] block returns for a response it accepts. *)
Lemma try_synthesize_inr (atob : string -> option string)
    (createObjectURL : list Z -> string) (response : TtsResponse) (url : string) :
  try_synthesize atob createObjectURL response = inr url ->
  exists base64Audio binaryString,
    response = TtsResolved (Some base64Audio) /\
    base64Audio <> "" /\
    atob base64Audio = Some binaryString /\
    url = createObjectURL
            (wav_header (Z.of_nat (String.length binaryString)) 24000
             ++ codes binaryString).
Proof.
  destruct response as [e|[base64Audio|]]; cbn [try_synthesize truthy negb]; try done.
  destruct (String.eqb_spec base64Audio "") as [->|Hne]; cbn [negb]; [done|].
  change (default "" (Some base64Audio)) with base64Audio.
  unfold base64ToUint8Array.
  destruct (atob base64Audio) as [binaryString|] eqn:Hatob;
    cbn [mbind option_bind]; [|done].
  rewrite createWavBlob_eq, length_map, length_list_ascii_of_string.
  intros Hurl. exists base64Audio, binaryString. split; [reflexivity|].
  split; [exact Hne|]. split; [exact Hatob|]. unfold codes. congruence.
Qed.

(** X7.  Whenever [generateAudio] resolves, the last call made came back
    with audio data that is not the empty string, and the URL it resolves
    with is the object URL of a WAV container at 24000 Hz whose payload is,
    byte for byte, the decoding of that base64 data, every byte in [0, 256),
    and whose header carries the number of decoded bytes. *)
Theorem generateAudio_resolves_with_wav (atob : string -> option string)
    (createObjectURL : list Z -> string) (generateContent : nat -> TtsResponse)
    (run : AudioRun) (url : string) :
  generateAudio atob createObjectURL generateContent = Some run ->
  settled run = inr url ->
  exists base64Audio binaryString,
    generateContent (calls run - 1) = TtsResolved (Some base64Audio) /\
    base64Audio <> "" /\
    atob base64Audio = Some binaryString /\
    url = createObjectURL
            (wav_header (Z.of_nat (String.length binaryString)) 24000
             ++ codes binaryString) /\
    length (codes binaryString) = String.length binaryString /\
    Forall (fun b => (0 <= b < 256)%Z) (codes binaryString).
Proof.
  intros Hrun Hok.
  assert (try_synthesize atob createObjectURL (generateContent (calls run - 1)) = inr url)
    as Htry.
  { revert Hrun. unfold generateAudio. simpl.
    destruct (try_synthesize _ _ (generateContent 0)) as [e0|u0] eqn:H0;
      [destruct (try_synthesize _ _ (generateContent 1)) as [e1|u1] eqn:H1;
       [destruct (try_synthesize _ _ (generateContent 2)) as [e2|u2] eqn:H2;
        [destruct (try_synthesize _ _ (generateContent 3)) as [e3|u3] eqn:H3|]|]|];
      intros [= <-]; simpl in *; congruence. }
  destruct (try_synthesize_inr _ _ _ _ Htry)
    as (b64 & bin & Hresp & Hne & Hatob & Hurl).
  exists b64, bin. split; [done|]. split; [done|]. split; [done|]. split; [done|].
  split.
  - unfold codes. by rewrite length_map, length_list_ascii_of_string.
  - unfold codes. apply Forall_fmap, Forall_forall. intros c _. apply charCode_byte.
Qed.

(** A service that answers the first call without data, the second with the
    empty string and the third with audio, and a decoder that knows one
    string, for examples. *)
Definition demo_atob (base64 : string) : option string :=
  if String.eqb base64 "QUJD" then Some "ABC" else None.

Definition demo_tts (attempt : nat) : TtsResponse :=
  match attempt with
  | 0 => TtsResolved None
  | 1 => TtsResolved (Some "")
  | _ => TtsResolved (Some "QUJD")
  end.

Lemma generateAudio_resolves_with_wav_witness :
  exists run base64Audio binaryString,
    generateAudio demo_atob (fun blob => "blob:1") demo_tts = Some run /\
    calls run = 3 /\
    delays run = [1000; 2000]%Z /\
    demo_tts 2 = TtsResolved (Some base64Audio) /\
    demo_atob base64Audio = Some binaryString.
Proof.
  destruct (generateAudio_resolves_with_wav demo_atob (fun blob => "blob:1") demo_tts
              {| settled := inr "blob:1"; calls := 3; delays := [1000; 2000]%Z |}
              "blob:1" ltac:(vm_compute; reflexivity) eq_refl)
    as (base64Audio & binaryString & Hresp & _ & Hatob & _).
  eexists _, base64Audio, binaryString.
  split; [vm_compute; reflexivity|].
  split; [reflexivity|]. split; [reflexivity|].
  split; [exact Hresp | exact Hatob].
Defined.

(** ** services/gemini.ts: generateCoverImage *)

Lemma first_inlineData_None (parts : list (option string)) :
  first_inlineData parts = None <-> Forall (fun part => part = None) parts.
Proof.
  induction parts as [|[data|] parts IH]; simpl.
  - split; [constructor | done].
  - split; [done | by inversion 1].
  - rewrite IH. split; [by constructor | by inversion 1].
Qed.

Lemma first_inlineData_Some (parts : list (option string)) (data : string) :
  first_inlineData parts = Some data <->
  exists before after,
    parts = before ++ Some data :: after /\ Forall (fun part => part = None) before.
Proof.
  induction parts as [|[d|] parts IH]; simpl.
  - split; [done|]. intros ([|? ?] & after & Heq & _); discriminate.
  - split.
    + intros [= ->]. by exists [], parts.
    + intros ([|p before] & after & Heq & Hall); simpl in Heq.
      * congruence.
      * injection Heq as <- _. inversion Hall; subst. done.
  - rewrite IH. split.
    + intros (before & after & -> & Hall). exists (None :: before), after.
      split; [done | by constructor].
    + intros ([|p before] & after & Heq & Hall); simpl in Heq; [discriminate|].
      injection Heq as <- ->. inversion Hall; subst. by exists before, after.
Qed.

(** X8.  [generateCoverImage] resolves with the empty string, which is what
    its callers test for, exactly when the call is rejected or no part of the
    response carries inline data; otherwise with the data URL of the first
    part that does, which is not empty. *)
Theorem generateCoverImage_empty_iff_failed (response : ImageResponse) :
  (generateCoverImage response = ""
   <-> truthy (Some (generateCoverImage response)) = false) /\
  (generateCoverImage response = ""
   <-> response = ImageRejected \/
       exists parts, response = ImageParts parts /\
                     Forall (fun part => part = None) parts) /\
  (forall before data after,
     response = ImageParts (before ++ Some data :: after) ->
     Forall (fun part => part = None) before ->
     generateCoverImage response = "data:image/png;base64," +:+ data).
Proof.
  split; [|split].
  - unfold truthy. destruct (String.eqb_spec (generateCoverImage response) ""); simpl.
    + by split.
    + split; [done | discriminate].
  - destruct response as [|parts]; simpl.
    + split; [by left | done].
    + destruct (first_inlineData parts) as [data|] eqn:Hfirst.
      * split; [discriminate|]. intros [|(parts' & [= <-] & Hall)]; [done|].
        apply first_inlineData_None in Hall. congruence.
      * split; [|done]. intros _. right. exists parts. split; [done|].
        by apply first_inlineData_None.
  - intros before data after -> Hall. simpl.
    assert (first_inlineData (before ++ Some data :: after) = Some data) as ->; [|done].
    apply first_inlineData_Some. by exists before, after.
Qed.

(** ** utils/rssUtils.ts: getValidFeeds *)

(** What a run of [getValidFeeds] gives: the list it resolves with, and the
    URLs it had checked, in the order of the checks. *)
Record FeedRun := {
  valid : list string;
  checked : list string
}.

Section GetValidFeeds.

(** [checkFeedHealth] catches every failure and answers with a boolean;
    [checkFeedHealth k url] is the answer to the check of the candidate at
    index [k]. *)
Variable checkFeedHealth : nat -> string -> bool.

Definition BATCH_SIZE : nat := 5.

(** [batch.map(async (url) => ({ url, isHealthy: await checkFeedHealth(url) }))]
    for the batch that starts at index [i]. *)
Definition check_batch (i : nat) (batch : list string) : list (string * bool) :=
  imap (fun k url => (url, checkFeedHealth (i + k) url)) batch.

(** [for (const res of results) { if (...) { valid.push(res.url); if (...) break; } }] *)
Fixpoint collect (results : list (string * bool)) (valid : list string) (limit : nat)
    : list string :=
  match results with
  | [] => valid
  | (url, isHealthy) :: results' =>
      if isHealthy && negb (bool_decide (url ∈ valid)) then
        let valid' := valid ++ [url] in
        if decide (limit <= length valid') then valid' else collect results' valid' limit
      else collect results' valid limit
  end.

(** [for (let i = 0; i < candidates.length; i += BATCH_SIZE) { ... }] *)
Fixpoint getValidFeeds_loop (fuel : nat) (candidates : list string) (limit i : nat)
    (valid checked : list string) : option FeedRun :=
  if decide (i < length candidates) then
    match fuel with
    | O => None
    | S fuel' =>
        if decide (limit <= length valid)
        then Some {| valid := valid; checked := checked |}
        else
          let batch := slice candidates i (i + BATCH_SIZE) in
          let results := check_batch i batch in
          getValidFeeds_loop fuel' candidates limit (i + BATCH_SIZE)
            (collect results valid limit) (checked ++ batch)
    end
  else Some {| valid := valid; checked := checked |}.

Definition getValidFeeds (candidates : list string) (limit : nat) : option FeedRun :=
  getValidFeeds_loop (length candidates) candidates limit 0 [] [].

(** *** The feeds found *)

(** The candidates from index [i] on that pass their check. *)
Fixpoint healthy_from (i : nat) (candidates : list string) : list string :=
  match candidates with
  | [] => []
  | url :: candidates' =>
      if checkFeedHealth i url
      then url :: healthy_from (S i) candidates'
      else healthy_from (S i) candidates'
  end.

(** [urls] appended to [valid], each unless it is there already, up to
    [limit] entries. *)
Fixpoint gather (urls : list string) (valid : list string) (limit : nat) : list string :=
  match urls with
  | [] => valid
  | url :: urls' =>
      if decide (limit <= length valid) then valid
      else if bool_decide (url ∈ valid) then gather urls' valid limit
      else gather urls' (valid ++ [url]) limit
  end.


Lemma check_batch_cons (i : nat) (url : string) (batch : list string) :
  check_batch i (url :: batch) = (url, checkFeedHealth i url) :: check_batch (S i) batch.
Proof.
  unfold check_batch. simpl. rewrite Nat.add_0_r. f_equal.
  apply imap_ext. intros k u _. simpl. do 2 f_equal. lia.
Qed.

Lemma gather_full (urls valid : list string) (limit : nat) :
  limit <= length valid -> gather urls valid limit = valid.
Proof.
  intros Hfull. destruct urls as [|url urls]; simpl; [done|].
  destruct (decide _); [done | lia].
Qed.

Lemma collect_gather (batch : list string) : forall i valid limit,
  length valid < limit ->
  collect (check_batch i batch) valid limit = gather (healthy_from i batch) valid limit.
Proof.
  induction batch as [|url batch IH]; intros i valid limit Hroom; [done|].
  rewrite check_batch_cons. cbn [collect healthy_from].
  destruct (checkFeedHealth i url); cbn [andb gather]; [|by apply IH].
  destruct (decide (limit <= length valid)) as [|_]; [lia|].
  destruct (bool_decide (url ∈ valid)); cbn [negb]; [by apply IH|].
  destruct (decide (limit <= length (valid ++ [url]))) as [Hfull|Hroom'].
  - by rewrite gather_full.
  - apply IH. lia.
Qed.

Lemma gather_app (urls1 urls2 valid : list string) (limit : nat) :
  gather (urls1 ++ urls2) valid limit = gather urls2 (gather urls1 valid limit) limit.
Proof.
  revert valid. induction urls1 as [|url urls1 IH]; intros valid; [done|].
  cbn [app gather].
  destruct (decide (limit <= length valid)); [by rewrite gather_full|].
  destruct (bool_decide (url ∈ valid)); apply IH.
Qed.

Lemma healthy_from_app (urls1 urls2 : list string) : forall i,
  healthy_from i (urls1 ++ urls2)
  = healthy_from i urls1 ++ healthy_from (i + length urls1) urls2.
Proof.
  induction urls1 as [|url urls1 IH]; intros i; simpl.
  - by rewrite Nat.add_0_r.
  - rewrite IH. replace (S i + length urls1) with (i + S (length urls1)) by lia.
    by destruct (checkFeedHealth i url).
Qed.

(** The candidates split into the batch at [i] and the rest. *)
Lemma batch_split (candidates : list string) (i : nat) :
  i < length candidates ->
  drop i candidates
  = slice candidates i (i + BATCH_SIZE) ++ drop (i + BATCH_SIZE) candidates /\
  0 < length (slice candidates i (i + BATCH_SIZE)) /\
  (length (slice candidates i (i + BATCH_SIZE)) = BATCH_SIZE \/
   length candidates <= i + BATCH_SIZE).
Proof.
  intros Hi. unfold slice.
  replace (i + BATCH_SIZE - i) with BATCH_SIZE by lia.
  split; [by rewrite <- drop_drop, take_drop|].
  rewrite length_take, length_drop. unfold BATCH_SIZE. lia.
Qed.

Lemma healthy_from_batch (candidates : list string) (i : nat) :
  i < length candidates ->
  healthy_from i (drop i candidates)
  = healthy_from i (slice candidates i (i + BATCH_SIZE))
    ++ healthy_from (i + BATCH_SIZE) (drop (i + BATCH_SIZE) candidates).
Proof.
  intros Hi. destruct (batch_split candidates i Hi) as (Hsplit & _ & [Hfull|Hlast]).
  - rewrite Hsplit at 1. by rewrite healthy_from_app, Hfull.
  - rewrite Hsplit at 1. rewrite healthy_from_app.
    by rewrite (drop_ge candidates (i + BATCH_SIZE)) by lia.
Qed.

Lemma getValidFeeds_loop_valid (candidates : list string) (limit : nat) (fuel : nat) :
  forall i valid checked,
    length candidates - i <= fuel ->
    exists checked',
      getValidFeeds_loop fuel candidates limit i valid checked
      = Some {| valid := gather (healthy_from i (drop i candidates)) valid limit;
                checked := checked' |}.
Proof.
  induction fuel as [|fuel IH]; intros i valid checked Hfuel; cbn [getValidFeeds_loop];
    (destruct (decide (i < length candidates)) as [Hi|Hi];
     [| exists checked; by rewrite drop_ge by lia]); [lia|].
  destruct (decide (limit <= length valid)) as [Hfull|Hroom].
  - exists checked. by rewrite gather_full.
  - rewrite collect_gather by lia.
    destruct (IH (i + BATCH_SIZE)
                (gather (healthy_from i (slice candidates i (i + BATCH_SIZE))) valid limit)
                (checked ++ slice candidates i (i + BATCH_SIZE)))
      as (checked' & Hrun); [unfold BATCH_SIZE; lia|].
    exists checked'. rewrite Hrun.
    rewrite (healthy_from_batch candidates i) by done. by rewrite gather_app.
Qed.


(** What [gather] appends: new URLs only, in the order of [urls]. *)
Lemma gather_extends (urls : list string) : forall valid limit,
  exists news,
    gather urls valid limit = valid ++ news /\
    sublist news urls /\
    (NoDup valid -> NoDup (valid ++ news)) /\
    length (valid ++ news) <= limit `max` length valid /\
    (length (valid ++ news) < limit -> forall url, url ∈ urls -> url ∈ valid ++ news).
Proof.
  induction urls as [|url urls IH]; intros valid limit; cbn [gather].
  - exists []. rewrite app_nil_r. split; [done|]. split; [done|]. split; [done|].
    split; [lia|]. intros _ url Hin. by apply elem_of_nil in Hin.
  - destruct (decide (limit <= length valid)) as [Hfull|Hroom].
    { exists []. rewrite app_nil_r. split; [done|]. split; [apply sublist_nil_l|].
      split; [done|]. split; lia. }
    destruct (bool_decide (url ∈ valid)) eqn:Hseen.
    + apply bool_decide_eq_true in Hseen.
      destruct (IH valid limit) as (news & Hrun & Hsub & Hnodup & Hlen & Hall).
      exists news. split; [done|]. split; [by apply sublist_cons|].
      split; [done|]. split; [done|]. intros Hroom' u Hu.
      apply elem_of_cons in Hu as [->|Hu]; [|by apply Hall].
      apply elem_of_app. by left.
    + apply bool_decide_eq_false in Hseen.
      destruct (IH (valid ++ [url]) limit) as (news & Hrun & Hsub & Hnodup & Hlen & Hall).
      exists (url :: news). rewrite Hrun.
      rewrite <- app_assoc in Hnodup, Hlen, Hall |- *. cbn [app] in *.
      split; [done|]. split; [by apply sublist_skip|].
      split; [|split].
      * intros Hv. apply Hnodup. apply NoDup_app. split; [done|].
        split; [|apply NoDup_singleton].
        intros x Hx Hx'. apply list_elem_of_singleton in Hx'. by subst.
      * rewrite !length_app in *. simpl in *. lia.
      * intros Hroom' u Hu. apply elem_of_cons in Hu as [->|Hu]; [|by apply Hall].
        apply elem_of_app. right. by left.
Qed.

Lemma healthy_from_spec (candidates : list string) : forall i url,
  url ∈ healthy_from i candidates <->
  exists k, candidates !! k = Some url /\ checkFeedHealth (i + k) url = true.
Proof.
  induction candidates as [|u us IH]; intros i url; simpl.
  - split; [by intros ?%elem_of_nil | by intros (k & ? & _)].
  - assert ((exists k, (u :: us) !! k = Some url /\ checkFeedHealth (i + k) url = true)
            <-> ((u = url /\ checkFeedHealth i url = true) \/
                 exists k, us !! k = Some url /\ checkFeedHealth (S i + k) url = true))
      as ->.
    { split.
      - intros ([|k] & Hk & Hh); simpl in Hk.
        + left. injection Hk as ->. by rewrite Nat.add_0_r in Hh.
        + right. exists k. split; [done|]. by replace (S i + k) with (i + S k) by lia.
      - intros [[-> Hh]|(k & Hk & Hh)].
        + exists 0. by rewrite Nat.add_0_r.
        + exists (S k). split; [done|]. by replace (i + S k) with (S i + k) by lia. }
    rewrite <- IH. destruct (checkFeedHealth i u) eqn:Hu.
    + rewrite elem_of_cons. split.
      * intros [->|Hin]; [left | by right]. done.
      * intros [[-> _]|Hin]; [by left | by right].
    + split; [by right|]. intros [[-> Hh]|Hin]; [congruence | done].
Qed.

Lemma healthy_from_sublist (candidates : list string) : forall i,
  sublist (healthy_from i candidates) candidates.
Proof.
  induction candidates as [|u us IH]; intros i; simpl; [done|].
  destruct (checkFeedHealth i u); [by apply sublist_skip | by apply sublist_cons].
Qed.

Lemma gather_take (urls : list string) : forall valid limit limit',
  length valid <= limit -> limit <= limit' ->
  gather urls valid limit = take limit (gather urls valid limit').
Proof.
  induction urls as [|url urls IH]; intros valid limit limit' Hlen Hle.
  - simpl. by rewrite take_ge.
  - destruct (gather_extends (url :: urls) valid limit') as (news & Hnews & _).
    destruct (decide (limit <= length valid)) as [Hfull|Hroom].
    + rewrite gather_full, Hnews by done.
      replace limit with (length valid) by lia. by rewrite take_app_length.
    + cbn [gather].
      destruct (decide (limit <= length valid)) as [|_]; [lia|].
      destruct (decide (limit' <= length valid)) as [|_]; [lia|].
      destruct (bool_decide (url ∈ valid)); apply IH; try done.
      rewrite length_app. simpl. lia.
Qed.

Lemma slice_app {A} (l : list A) (a m e : nat) :
  a <= m <= e -> slice l a m ++ slice l m e = slice l a e.
Proof.
  intros [Ham Hme]. unfold slice.
  replace (drop m l) with (drop (m - a) (drop a l))
    by (rewrite drop_drop; f_equal; lia).
  rewrite take_take_drop. f_equal. lia.
Qed.

Lemma collect_extends (batch : list string) (i : nat) (valid : list string) (limit : nat) :
  length valid < limit ->
  exists news,
    collect (check_batch i batch) valid limit = valid ++ news /\ news ⊆ batch.
Proof.
  intros Hroom. rewrite collect_gather by done.
  destruct (gather_extends (healthy_from i batch) valid limit) as (news & Hrun & Hsub & _).
  exists news. split; [done|].
  intros url Hin. eapply elem_of_sublist; [exact Hin|].
  etrans; [exact Hsub | apply healthy_from_sublist].
Qed.

Lemma healthy_from_slice (candidates : list string) (b j : nat) :
  b * BATCH_SIZE < length candidates -> S b <= j ->
  healthy_from (b * BATCH_SIZE) (slice candidates (b * BATCH_SIZE) (j * BATCH_SIZE))
  = healthy_from (b * BATCH_SIZE)
      (slice candidates (b * BATCH_SIZE) (S b * BATCH_SIZE))
    ++ healthy_from (S b * BATCH_SIZE)
         (slice candidates (S b * BATCH_SIZE) (j * BATCH_SIZE)).
Proof.
  intros Hb Hj.
  rewrite <- (slice_app candidates (b * BATCH_SIZE) (S b * BATCH_SIZE) (j * BATCH_SIZE))
    by (unfold BATCH_SIZE; lia).
  rewrite healthy_from_app.
  destruct (batch_split candidates (b * BATCH_SIZE) Hb) as (_ & _ & [Hfull|Hlast]).
  - replace (b * BATCH_SIZE + BATCH_SIZE) with (S b * BATCH_SIZE) in Hfull by lia.
    rewrite Hfull. by replace (b * BATCH_SIZE + BATCH_SIZE) with (S b * BATCH_SIZE) by lia.
  - unfold slice at 3 5. rewrite (drop_ge candidates (S b * BATCH_SIZE)) by lia.
    by rewrite take_nil.
Qed.

Lemma getValidFeeds_loop_checked (candidates : list string) (limit : nat) (fuel : nat) :
  forall b valid0 checked0 run,
    getValidFeeds_loop fuel candidates limit (b * BATCH_SIZE) valid0 checked0 = Some run ->
    exists b',
      b <= b' /\
      checked run = checked0 ++ slice candidates (b * BATCH_SIZE) (b' * BATCH_SIZE) /\
      (b' = b -> valid run = valid0) /\
      (b < b' -> (b' - 1) * BATCH_SIZE < length candidates /\ length valid0 < limit) /\
      (b' * BATCH_SIZE < length candidates -> limit <= length (valid run)) /\
      (b < b' -> limit <= length (valid run) ->
       exists url, last (valid run) = Some url /\
         url ∈ slice candidates ((b' - 1) * BATCH_SIZE) (b' * BATCH_SIZE)) /\
      (forall url, url ∈ valid run ->
         url ∈ valid0 \/ url ∈ slice candidates (b * BATCH_SIZE) (b' * BATCH_SIZE)) /\
      (forall j, b <= j < b' ->
         length (gather (healthy_from (b * BATCH_SIZE)
                           (slice candidates (b * BATCH_SIZE) (j * BATCH_SIZE)))
                   valid0 limit) < limit).
Proof.
  assert (forall b valid0 checked0,
            (limit <= length valid0 \/ ~ b * BATCH_SIZE < length candidates) ->
            exists b', b <= b' /\
              checked0 = checked0 ++ slice candidates (b * BATCH_SIZE) (b' * BATCH_SIZE) /\
              (b' = b -> valid0 = valid0) /\
              (b < b' -> (b' - 1) * BATCH_SIZE < length candidates /\ length valid0 < limit) /\
              (b' * BATCH_SIZE < length candidates -> limit <= length valid0) /\
              (b < b' -> limit <= length valid0 ->
               exists url, last valid0 = Some url /\
                 url ∈ slice candidates ((b' - 1) * BATCH_SIZE) (b' * BATCH_SIZE)) /\
              (forall url, url ∈ valid0 ->
                 url ∈ valid0 \/ url ∈ slice candidates (b * BATCH_SIZE) (b' * BATCH_SIZE)) /\
              (forall j, b <= j < b' ->
                 length (gather (healthy_from (b * BATCH_SIZE)
                                   (slice candidates (b * BATCH_SIZE) (j * BATCH_SIZE)))
                           valid0 limit) < limit))
    as Hstop.
  { intros b valid0 checked0 Hwhy. exists b. split; [done|].
    split; [unfold slice; by rewrite Nat.sub_diag, take_0, app_nil_r|].
    split; [done|]. split; [lia|]. split; [intros ?; destruct Hwhy; [done | lia]|].
    split; [lia|]. split; [by left | lia]. }
  induction fuel as [|fuel IH]; intros b valid0 checked0 run; cbn [getValidFeeds_loop];
    destruct (decide (b * BATCH_SIZE < length candidates)) as [Hi|Hi];
    try done.
  - intros [= <-]. apply Hstop. by right.
  - destruct (decide (limit <= length valid0)) as [Hfull|Hroom].
    + intros [= <-]. apply Hstop. by left.
    + replace (b * BATCH_SIZE + BATCH_SIZE) with (S b * BATCH_SIZE) by lia.
      intros Hrun.
      destruct (IH _ _ _ _ Hrun)
        as (b' & Hle & Hchecked & Hsame & Hlast & Hlim & Hin & Hall & Hfew).
      destruct (collect_extends (slice candidates (b * BATCH_SIZE) (S b * BATCH_SIZE))
                  (b * BATCH_SIZE) valid0 limit ltac:(lia)) as (news & Hnews & Hsub).
      exists b'. split; [lia|].
      split; [rewrite Hchecked, <- app_assoc, slice_app by (unfold BATCH_SIZE; lia); done|].
      split; [lia|].
      split; [intros _; split; [|lia]; destruct (decide (b' = S b)) as [->|Hne];
              [unfold BATCH_SIZE in *; lia | apply Hlast; lia]|].
      split; [done|].
      split; [|split].
      * intros _ Hreached. destruct (decide (b' = S b)) as [->|Hne]; [|apply Hin; lia].
        rewrite (Hsame eq_refl), Hnews in Hreached |- *.
        replace (S b - 1) with b by lia.
        destruct news as [|n ns _] using rev_ind.
        { rewrite app_nil_r in Hreached. lia. }
        exists n. rewrite app_assoc, last_snoc. split; [done|].
        apply Hsub. apply elem_of_app. right. by left.
      * intros url Hurl. apply Hall in Hurl as [Hurl|Hurl].
        -- rewrite Hnews in Hurl. apply elem_of_app in Hurl as [Hurl|Hurl]; [by left|].
           right. rewrite <- (slice_app _ _ (S b * BATCH_SIZE)) by (unfold BATCH_SIZE; lia).
           apply elem_of_app. left. by apply Hsub.
        -- right. rewrite <- (slice_app _ _ (S b * BATCH_SIZE)) by (unfold BATCH_SIZE; lia).
           apply elem_of_app. by right.
      * intros j [Hbj Hjb']. destruct (decide (j = b)) as [->|Hne].
        -- unfold slice. rewrite Nat.sub_diag, take_0. simpl. lia.
        -- rewrite healthy_from_slice, gather_app by lia.
           rewrite <- (collect_gather
                         (slice candidates (b * BATCH_SIZE) (S b * BATCH_SIZE))
                         (b * BATCH_SIZE) valid0 limit) by lia.
           apply Hfew. lia.
  - intros [= <-]. apply Hstop. by right.
Qed.

End GetValidFeeds.

(** X9.  [getValidFeeds] terminates with at most [limit] URLs, without
    repetition, in the order of the candidates, each a candidate whose health
    check passed.  When it returns fewer than [limit], every candidate that
    passes its check is in the result; and the result for [limit] is the
    first [limit] entries of the result for any larger limit. *)
Theorem getValidFeeds_result (checkFeedHealth : nat -> string -> bool)
    (candidates : list string) (limit : nat) :
  exists run,
    getValidFeeds checkFeedHealth candidates limit = Some run /\
    length (valid run) <= limit /\
    NoDup (valid run) /\
    sublist (valid run) candidates /\
    (forall url, url ∈ valid run ->
       exists k, candidates !! k = Some url /\ checkFeedHealth k url = true) /\
    (length (valid run) < limit ->
     forall k url, candidates !! k = Some url -> checkFeedHealth k url = true ->
       url ∈ valid run) /\
    (forall limit' run',
       limit <= limit' -> getValidFeeds checkFeedHealth candidates limit' = Some run' ->
       valid run = take limit (valid run')).
Proof.
  destruct (getValidFeeds_loop_valid checkFeedHealth candidates limit
              (length candidates) 0 [] []) as (checked' & Hrun); [lia|].
  rewrite drop_0 in Hrun.
  destruct (gather_extends (healthy_from checkFeedHealth 0 candidates) [] limit)
    as (news & Hnews & Hsub & Hnodup & Hlen & Hall).
  cbn [app] in *. rewrite Hnews in Hrun.
  eexists. split; [exact Hrun|]. cbn [valid].
  split; [simpl in Hlen; lia|].
  split; [apply Hnodup; constructor|].
  split; [etrans; [exact Hsub | apply healthy_from_sublist]|].
  split; [|split].
  - intros url Hin. apply (elem_of_sublist _ _ _ Hin) in Hsub.
    by apply healthy_from_spec in Hsub.
  - intros Hroom k url Hk Hh. apply Hall; [done|].
    apply healthy_from_spec. by exists k.
  - intros limit' run' Hle Hrun'.
    destruct (getValidFeeds_loop_valid checkFeedHealth candidates limit'
                (length candidates) 0 [] []) as (checked'' & Hrun''); [lia|].
    rewrite drop_0 in Hrun''. unfold getValidFeeds in Hrun'.
    rewrite Hrun'' in Hrun'. injection Hrun' as <-. cbn [valid].
    rewrite <- Hnews. apply gather_take; simpl; lia.
Qed.

(** X10.  [getValidFeeds] checks the candidates front to back in whole
    batches of five: what it has checked is the first [batches * 5]
    candidates.  A batch is checked only if the batches before it gave fewer
    than [limit] feeds (none at all is checked for [limit = 0]); candidates
    are left unchecked only when [limit] feeds are found; the feed that
    reached the limit lies in the last batch checked; and every feed returned
    was checked. *)
Theorem getValidFeeds_checks (checkFeedHealth : nat -> string -> bool)
    (candidates : list string) (limit : nat) (run : FeedRun) :
  getValidFeeds checkFeedHealth candidates limit = Some run ->
  exists batches,
    checked run = take (batches * BATCH_SIZE) candidates /\
    (0 < batches -> (batches - 1) * BATCH_SIZE < length candidates /\ 0 < limit) /\
    (forall j found,
       j < batches ->
       getValidFeeds checkFeedHealth (take (j * BATCH_SIZE) candidates) limit = Some found ->
       length (valid found) < limit) /\
    (batches * BATCH_SIZE < length candidates -> limit <= length (valid run)) /\
    (0 < batches -> limit <= length (valid run) ->
     exists url, last (valid run) = Some url /\
       url ∈ drop ((batches - 1) * BATCH_SIZE) (checked run)) /\
    valid run ⊆ checked run.
Proof.
  intros Hrun.
  destruct (getValidFeeds_loop_checked checkFeedHealth candidates limit
              (length candidates) 0 [] [] run Hrun)
    as (b' & _ & Hchecked & _ & Hlast & Hlim & Hin & Hall & Hfew).
  assert (checked run = take (b' * BATCH_SIZE) candidates) as Hprefix.
  { rewrite Hchecked. unfold slice. simpl. by rewrite Nat.sub_0_r. }
  exists b'. split; [done|].
  split; [intros Hb; destruct (Hlast Hb); simpl in *; split; [done | lia]|].
  split.
  { intros j found Hj Hfound.
    destruct (getValidFeeds_loop_valid checkFeedHealth (take (j * BATCH_SIZE) candidates)
                limit (length (take (j * BATCH_SIZE) candidates)) 0 [] [])
      as (checked' & Hprefixrun); [lia|].
    unfold getValidFeeds in Hfound. rewrite Hprefixrun in Hfound.
    injection Hfound as <-. cbn [valid]. rewrite drop_0.
    specialize (Hfew j ltac:(lia)). unfold slice in Hfew. simpl in Hfew.
    by rewrite Nat.sub_0_r in Hfew. }
  split; [done|]. split.
  - intros Hb Hreached. destruct (Hin Hb Hreached) as (url & Hlasturl & Hurl).
    exists url. split; [done|]. rewrite Hprefix.
    unfold slice in Hurl. rewrite take_drop_commute in Hurl.
    by replace ((b' - 1) * BATCH_SIZE + (b' * BATCH_SIZE - (b' - 1) * BATCH_SIZE))
      with (b' * BATCH_SIZE) in Hurl by (unfold BATCH_SIZE; lia).
  - intros url Hurl. apply Hall in Hurl as [Hurl|Hurl]; [by apply elem_of_nil in Hurl|].
    by rewrite Hchecked.
Qed.

(** Candidates checked healthy at the odd indices, for examples. *)
Definition demo_health (k : nat) (url : string) : bool := Nat.odd k.

Lemma getValidFeeds_checks_witness :
  exists batches,
    ["a"; "b"; "c"; "d"; "e"] = take (batches * BATCH_SIZE) ["a"; "b"; "c"; "d"; "e"; "f"; "g"] /\
    (batches * BATCH_SIZE < 7 -> 2 <= length ["b"; "d"]).
Proof.
  destruct (getValidFeeds_checks demo_health ["a"; "b"; "c"; "d"; "e"; "f"; "g"] 2
              {| valid := ["b"; "d"]; checked := ["a"; "b"; "c"; "d"; "e"] |}
              ltac:(vm_compute; reflexivity))
    as (batches & Hchecked & _ & _ & Hstop & _).
  exists batches. split; [exact Hchecked | exact Hstop].
Defined.

(** ** utils/rssUtils.ts: fetchNewsForTopic *)

(** A feed entry; [pubDate] is the time value of the date, in milliseconds
    ([parseDate] never lets an invalid date through). *)
Module Item.
Record t := {
  title : string;
  description : string;
  pubDate : Z;
  link : string
}.
End Item.
Abbreviation RssItem := Item.t.

(** [Array.prototype.findIndex], with [None] for -1. *)
Fixpoint findIndex {A} (p : A -> bool) (l : list A) : option nat :=
  match l with
  | [] => None
  | x :: l' => if p x then Some 0 else S <$> findIndex p l'
  end.

(** [Array.prototype.filter] with a predicate that also looks at the index;
    [i] is the index of the head of [l]. *)
Fixpoint filter_indexed {A} (p : A -> nat -> bool) (i : nat) (l : list A) : list A :=
  match l with
  | [] => []
  | x :: l' => if p x i then x :: filter_indexed p (S i) l' else filter_indexed p (S i) l'
  end.

(** [items.sort((a, b) => b.pubDate.getTime() - a.pubDate.getTime())]: the
    sort is stable, so an item goes in front of the first item that is not
    newer than it. *)
Fixpoint insert_newest_first (item : RssItem) (sorted : list RssItem) : list RssItem :=
  match sorted with
  | [] => [item]
  | x :: sorted' =>
      if (Item.pubDate x <=? Item.pubDate item)%Z
      then item :: x :: sorted'
      else x :: insert_newest_first item sorted'
  end.

Definition sort_newest_first (items : list RssItem) : list RssItem :=
  foldr insert_newest_first [] items.

Definition newline : string := String (Ascii.ascii_of_nat 10) "".


Section FetchNewsForTopic.

(** [fetchFeed] catches every failure and answers with the empty list;
    [fetchFeed k url] is what the fetch of the URL at index [k] gives. *)
Variable fetchFeed : nat -> string -> list RssItem.
(** The date seven days before the call, as [setDate(getDate() - 7)] has it. *)
Variable sevenDaysAgo : Z.
(** [toISOString().split('T')[0]], [trim()] and [replace(/\s+/g, ' ')]. *)
Variable isoDate : Z -> string.
Variable trim : string -> string.
Variable collapse_whitespace : string -> string.

(** The items of [topItems], before they are printed. *)
Definition topItems (urls : list string) : list RssItem :=
  let results := imap fetchFeed urls in
  let allItems := concat results in
  let recentItems := filter (fun item => (sevenDaysAgo <= Item.pubDate item)%Z) allItems in
  let recentItems := sort_newest_first recentItems in
  let uniqueItems :=
    filter_indexed
      (fun item index =>
         bool_decide (findIndex (fun t => String.eqb (Item.title t) (Item.title item))
                        recentItems = Some index))
      0 recentItems in
  take 12 uniqueItems.

Definition print_item (item : RssItem) : string :=
  let dateStr := isoDate (Item.pubDate item) in
  let cleanTitle := trim (Item.title item) in
  let cleanSummary :=
    collapse_whitespace (trim (String.substring 0 180 (Item.description item))) in
  "[" +:+ dateStr +:+ "] " +:+ cleanTitle +:+ ": " +:+ cleanSummary +:+ "...".

(** [inl] is the message of the error thrown. *)
Definition fetchNewsForTopic (urls : list string) : string + string :=
  let topItems := topItems urls in
  if decide (length topItems = 0)
  then inl "No recent news found for this topic in the last 7 days."
  else inr (String.concat newline (map print_item topItems)).

End FetchNewsForTopic.

(** *** Sorting and the removal of repeated titles *)

Definition newer_or_same (x y : RssItem) : Prop := (Item.pubDate y <= Item.pubDate x)%Z.

Lemma insert_newest_first_perm (item : RssItem) (sorted : list RssItem) :
  insert_newest_first item sorted ≡ₚ item :: sorted.
Proof.
  induction sorted as [|x sorted IH]; simpl; [done|].
  destruct (Item.pubDate x <=? Item.pubDate item)%Z; [done|].
  rewrite IH. apply Permutation_swap.
Qed.

Lemma sort_newest_first_perm (items : list RssItem) : sort_newest_first items ≡ₚ items.
Proof.
  induction items as [|item items IH]; simpl; [done|].
  by rewrite insert_newest_first_perm, IH.
Qed.

Lemma insert_newest_first_sorted (item : RssItem) (sorted : list RssItem) :
  StronglySorted newer_or_same sorted ->
  StronglySorted newer_or_same (insert_newest_first item sorted).
Proof.
  induction 1 as [|x sorted Hsorted IH Hx]; simpl.
  - repeat constructor.
  - destruct (Z.leb_spec (Item.pubDate x) (Item.pubDate item)) as [Hle|Hgt].
    + constructor; [by constructor|]. constructor; [done|].
      eapply Forall_impl; [exact Hx|]. unfold newer_or_same. intros y Hy. lia.
    + constructor; [done|]. rewrite insert_newest_first_perm.
      constructor; [unfold newer_or_same; lia | done].
Qed.

Lemma sort_newest_first_sorted (items : list RssItem) :
  StronglySorted newer_or_same (sort_newest_first items).
Proof.
  induction items as [|item items IH]; simpl; [constructor|].
  by apply insert_newest_first_sorted.
Qed.

(** The items of [l] whose title is not in [seen] and not the title of an
    earlier item of [l]. *)
Fixpoint first_of_title (seen : list string) (l : list RssItem) : list RssItem :=
  match l with
  | [] => []
  | x :: l' =>
      if bool_decide (Item.title x ∈ seen) then first_of_title seen l'
      else x :: first_of_title (seen ++ [Item.title x]) l'
  end.

Lemma findIndex_app {A} (p : A -> bool) (l1 l2 : list A) :
  findIndex p (l1 ++ l2)
  = match findIndex p l1 with
    | Some i => Some i
    | None => (fun i => length l1 + i) <$> findIndex p l2
    end.
Proof.
  induction l1 as [|x l1 IH]; simpl.
  - by destruct (findIndex p l2).
  - destruct (p x); [done|]. rewrite IH.
    destruct (findIndex p l1); [done|]. by destruct (findIndex p l2).
Qed.

Lemma findIndex_lt {A} (p : A -> bool) (l : list A) (i : nat) :
  findIndex p l = Some i -> i < length l.
Proof.
  revert i. induction l as [|x l IH]; intros i; simpl; [done|].
  destruct (p x); [intros [= <-]; lia|].
  destruct (findIndex p l) as [j|]; [|done]. intros [= <-].
  specialize (IH j eq_refl). lia.
Qed.

Lemma findIndex_None {A} (p : A -> bool) (l : list A) :
  findIndex p l = None <-> Forall (fun x => p x = false) l.
Proof.
  induction l as [|x l IH]; simpl.
  - split; [constructor | done].
  - destruct (p x) eqn:Hp.
    + split; [done|]. inversion 1; congruence.
    + destruct (findIndex p l); simpl.
      * split; [done|]. inversion 1 as [|? ? _ Hl]; subst. by apply IH in Hl.
      * split; [|done]. intros _. constructor; [done | by apply IH].
Qed.

Lemma findIndex_title_None (title : string) (l : list RssItem) :
  findIndex (fun t => String.eqb (Item.title t) title) l = None
  <-> title ∉ map Item.title l.
Proof.
  rewrite findIndex_None. induction l as [|x l IH]; simpl.
  - split; [intros _ ?%elem_of_nil; done | constructor].
  - rewrite Forall_cons, not_elem_of_cons, IH.
    destruct (String.eqb_spec (Item.title x) title); split; intros [? ?]; done.
Qed.

Lemma first_of_title_ext (l : list RssItem) : forall seen seen',
  (forall title, title ∈ seen <-> title ∈ seen') ->
  first_of_title seen l = first_of_title seen' l.
Proof.
  induction l as [|x l IH]; intros seen seen' Hsame; simpl; [done|].
  rewrite (bool_decide_ext _ _ (Hsame (Item.title x))).
  destruct (bool_decide (Item.title x ∈ seen')); [by apply IH|].
  f_equal. apply IH. intros title. rewrite !elem_of_app, Hsame. done.
Qed.

Lemma dedup_by_index (before l : list RssItem) :
  filter_indexed
    (fun item index =>
       bool_decide (findIndex (fun t => String.eqb (Item.title t) (Item.title item))
                      (before ++ l) = Some index))
    (length before) l
  = first_of_title (map Item.title before) l.
Proof.
  revert before. induction l as [|x l IH]; intros before; simpl; [done|].
  specialize (IH (before ++ [x])).
  rewrite <- app_assoc, length_app, map_app in IH. simpl in IH.
  replace (length before + 1) with (S (length before)) in IH by lia.
  rewrite IH. clear IH.
  rewrite findIndex_app.
  destruct (findIndex (fun t => String.eqb (Item.title t) (Item.title x)) before)
    as [i|] eqn:Hfind.
  - pose proof (findIndex_lt _ _ _ Hfind) as Hlt.
    rewrite bool_decide_eq_false_2 by (intros [= ->]; lia).
    assert (Item.title x ∈ map Item.title before) as Hin.
    { destruct (decide (Item.title x ∈ map Item.title before)) as [|Hnot]; [done|].
      apply findIndex_title_None in Hnot. congruence. }
    rewrite bool_decide_eq_true_2 by done.
    apply first_of_title_ext. intros title.
    rewrite elem_of_app, list_elem_of_singleton. split; [|tauto].
    intros [?| ->]; done.
  - simpl. rewrite String.eqb_refl. simpl. rewrite Nat.add_0_r.
    rewrite bool_decide_eq_true_2 by done.
    apply findIndex_title_None in Hfind.
    by rewrite bool_decide_eq_false_2.
Qed.

Lemma first_of_title_sublist (l : list RssItem) : forall seen,
  sublist (first_of_title seen l) l.
Proof.
  induction l as [|x l IH]; intros seen; simpl; [done|].
  destruct (bool_decide _); [by apply sublist_cons | by apply sublist_skip].
Qed.

Lemma first_of_title_fresh (l : list RssItem) : forall seen x,
  x ∈ first_of_title seen l -> Item.title x ∉ seen.
Proof.
  induction l as [|y l IH]; intros seen x; simpl; [by intros ?%elem_of_nil|].
  destruct (bool_decide (Item.title y ∈ seen)) eqn:Hseen; [apply IH|].
  apply bool_decide_eq_false in Hseen.
  intros [->|Hin]%elem_of_cons; [done|].
  apply IH in Hin. intros Hx. apply Hin. apply elem_of_app. by left.
Qed.

Lemma first_of_title_NoDup (l : list RssItem) : forall seen,
  NoDup (map Item.title (first_of_title seen l)).
Proof.
  induction l as [|y l IH]; intros seen; simpl; [constructor|].
  destruct (bool_decide (Item.title y ∈ seen)); [apply IH|].
  simpl. constructor; [|apply IH].
  intros (x & Hx & Hin)%list_elem_of_fmap.
  apply first_of_title_fresh in Hin. apply Hin. apply elem_of_app. right.
  rewrite Hx. by left.
Qed.

(** An item that is kept is the first one of its title. *)
Lemma first_of_title_first (l : list RssItem) : forall seen x,
  x ∈ first_of_title seen l ->
  exists l1 l2, l = l1 ++ x :: l2 /\ Item.title x ∉ map Item.title l1.
Proof.
  induction l as [|y l IH]; intros seen x; simpl; [by intros ?%elem_of_nil|].
  destruct (bool_decide (Item.title y ∈ seen)) eqn:Hseen.
  - apply bool_decide_eq_true in Hseen. intros Hin.
    pose proof (first_of_title_fresh _ _ _ Hin) as Hfresh.
    destruct (IH _ _ Hin) as (l1 & l2 & -> & Hnot).
    exists (y :: l1), l2. split; [done|]. simpl.
    apply not_elem_of_cons. split; [congruence | done].
  - intros [->|Hin]%elem_of_cons.
    + exists [], l. split; [done|]. simpl. apply not_elem_of_nil.
    + pose proof (first_of_title_fresh _ _ _ Hin) as Hfresh.
      destruct (IH _ _ Hin) as (l1 & l2 & -> & Hnot).
      exists (y :: l1), l2. split; [done|]. simpl.
      apply not_elem_of_cons. split; [|done].
      intros Heq. apply Hfresh. apply elem_of_app. right. rewrite Heq. by left.
Qed.

(** Every title that occurs is kept once. *)
Lemma first_of_title_complete (l : list RssItem) : forall seen y,
  y ∈ l -> Item.title y ∉ seen ->
  Item.title y ∈ map Item.title (first_of_title seen l).
Proof.
  induction l as [|x l IH]; intros seen y; simpl; [by intros ?%elem_of_nil|].
  intros Hin Hfresh.
  destruct (bool_decide (Item.title x ∈ seen)) eqn:Hseen.
  - apply bool_decide_eq_true in Hseen.
    apply elem_of_cons in Hin as [->|Hin]; [done | by apply IH].
  - simpl. apply elem_of_cons in Hin as [->|Hin]; [by left|].
    destruct (decide (Item.title y = Item.title x)) as [->|Hne]; [by left|].
    right. apply IH; [done|]. rewrite elem_of_app, list_elem_of_singleton. tauto.
Qed.

Lemma StronglySorted_sublist {A} (R : relation A) (l1 l2 : list A) :
  sublist l1 l2 -> StronglySorted R l2 -> StronglySorted R l1.
Proof.
  induction 1 as [|x l1 l2 Hsub IH|x l1 l2 Hsub IH]; intros Hsorted; [done| |].
  - apply StronglySorted_inv in Hsorted as [Hsorted Hx].
    constructor; [by apply IH|].
    apply Forall_forall. intros y Hy. rewrite Forall_forall in Hx. apply Hx.
    by eapply elem_of_sublist.
  - apply StronglySorted_inv in Hsorted as [Hsorted _]. by apply IH.
Qed.

Lemma elem_of_concat {A} (x : A) (ls : list (list A)) :
  x ∈ concat ls <-> exists l, l ∈ ls /\ x ∈ l.
Proof.
  induction ls as [|l ls IH]; simpl.
  - split; [by intros ?%elem_of_nil | by intros (l & ?%elem_of_nil & _)].
  - rewrite elem_of_app, IH. split.
    + intros [Hx|(l' & Hl' & Hx)]; [exists l; split; [by left | done]|].
      exists l'. split; [by right | done].
    + intros (l' & [->|Hl']%elem_of_cons & Hx); [by left | right; by exists l'].
Qed.

Section FetchNewsFacts.

Variable fetchFeed : nat -> string -> list RssItem.
Variable sevenDaysAgo : Z.
Variable urls : list string.

(** The item came back from one of the fetches. *)
Definition fetched (item : RssItem) : Prop :=
  exists k url, urls !! k = Some url /\ item ∈ fetchFeed k url.

Definition recent (item : RssItem) : Prop := (sevenDaysAgo <= Item.pubDate item)%Z.

Let recentItems : list RssItem :=
  sort_newest_first
    (filter (fun item => (sevenDaysAgo <= Item.pubDate item)%Z)
       (concat (imap fetchFeed urls))).

Lemma topItems_eq :
  topItems fetchFeed sevenDaysAgo urls = take 12 (first_of_title [] recentItems).
Proof.
  unfold topItems. fold recentItems. f_equal.
  exact (dedup_by_index [] recentItems).
Qed.

Lemma recentItems_spec (item : RssItem) :
  item ∈ recentItems <-> fetched item /\ recent item.
Proof.
  unfold recentItems. rewrite sort_newest_first_perm, list_elem_of_filter, elem_of_concat.
  unfold fetched, recent. split.
  - intros [Hrecent (l & Hl & Hin)]. split; [|done].
    apply elem_of_lookup_imap in Hl as (k & url & -> & Hk). by exists k, url.
  - intros [(k & url & Hk & Hin) Hrecent]. split; [done|].
    exists (fetchFeed k url). split; [|done]. by apply elem_of_lookup_imap_2.
Qed.

Lemma recentItems_sorted : StronglySorted newer_or_same recentItems.
Proof. apply sort_newest_first_sorted. Qed.

Lemma unique_sorted : StronglySorted newer_or_same (first_of_title [] recentItems).
Proof.
  eapply StronglySorted_sublist; [apply first_of_title_sublist | apply recentItems_sorted].
Qed.

(** Among the recent items of one title, the one that is kept is a newest. *)
Lemma unique_newest (x y : RssItem) :
  x ∈ first_of_title [] recentItems -> y ∈ recentItems ->
  Item.title y = Item.title x -> newer_or_same x y.
Proof.
  intros Hx Hy Htitle.
  destruct (first_of_title_first _ _ _ Hx) as (l1 & l2 & Hsplit & Hfirst).
  pose proof recentItems_sorted as Hsorted. rewrite Hsplit in Hy, Hsorted.
  apply elem_of_app in Hy as [Hy|Hy].
  - exfalso. apply Hfirst. rewrite <- Htitle. by apply list_elem_of_fmap_2.
  - apply elem_of_cons in Hy as [->|Hy]; [unfold newer_or_same; lia|].
    apply StronglySorted_app_1_r, StronglySorted_inv in Hsorted as [_ Hall].
    rewrite Forall_forall in Hall. by apply Hall.
Qed.

End FetchNewsFacts.

(** X11.  The items [fetchNewsForTopic] prints are at most 12, each fetched
    from one of the feeds and not older than seven days, newest first, with
    pairwise different titles.  Of the recent items of one title it keeps a
    newest one; and a recent item whose title is not printed is left out
    only when 12 items are printed, none of them older than it. *)
Theorem fetchNewsForTopic_selection (fetchFeed : nat -> string -> list RssItem)
    (sevenDaysAgo : Z) (urls : list string) :
  let top := topItems fetchFeed sevenDaysAgo urls in
  length top <= 12 /\
  NoDup (map Item.title top) /\
  StronglySorted newer_or_same top /\
  (forall x, x ∈ top -> fetched fetchFeed urls x /\ recent sevenDaysAgo x) /\
  (forall x y, x ∈ top -> fetched fetchFeed urls y -> recent sevenDaysAgo y ->
     Item.title y = Item.title x -> (Item.pubDate y <= Item.pubDate x)%Z) /\
  (forall y, fetched fetchFeed urls y -> recent sevenDaysAgo y ->
     Item.title y ∉ map Item.title top ->
     length top = 12 /\ forall x, x ∈ top -> (Item.pubDate y <= Item.pubDate x)%Z).
Proof.
  intros top. subst top. rewrite topItems_eq.
  set (recentItems := sort_newest_first _).
  set (uniqueItems := first_of_title [] recentItems).
  assert (sublist (take 12 uniqueItems) uniqueItems) as Hsub by apply sublist_take.
  assert (forall x, x ∈ take 12 uniqueItems -> x ∈ uniqueItems) as Hin.
  { intros x Hx. by eapply elem_of_sublist. }
  split; [rewrite length_take; lia|].
  split.
  { eapply sublist_NoDup; [apply (first_of_title_NoDup recentItems [])|].
    by apply fmap_sublist. }
  split.
  { eapply StronglySorted_sublist; [exact Hsub | apply unique_sorted]. }
  split.
  { intros x Hx. apply recentItems_spec.
    eapply elem_of_sublist; [by apply Hin | apply first_of_title_sublist]. }
  split.
  { intros x y Hx Hfetched Hrecent Htitle.
    apply (unique_newest fetchFeed sevenDaysAgo urls x y); [by apply Hin| |done].
    by apply recentItems_spec. }
  intros y Hfetched Hrecent Hmissing.
  assert (y ∈ recentItems) as Hy by by apply recentItems_spec.
  pose proof (first_of_title_complete recentItems [] y Hy ltac:(apply not_elem_of_nil))
    as Hkept.
  fold uniqueItems in Hkept.
  rewrite <- (take_drop 12 uniqueItems), map_app, elem_of_app in Hkept.
  destruct Hkept as [Hkept|Hkept]; [done|].
  apply list_elem_of_fmap in Hkept as (x' & Htitle & Hx').
  split.
  - rewrite length_take. apply elem_of_not_nil in Hx'.
    destruct (decide (12 <= length uniqueItems)) as [|Hshort]; [lia|].
    rewrite drop_ge in Hx' by lia. done.
  - intros x Hx.
    pose proof (unique_sorted fetchFeed sevenDaysAgo urls) as Hsorted.
    fold recentItems uniqueItems in Hsorted.
    rewrite <- (take_drop 12 uniqueItems) in Hsorted.
    pose proof (StronglySorted_app_1_elem_of _ _ _ x x' Hsorted Hx Hx') as Hxx'.
    assert (newer_or_same x' y) as Hx'y.
    { apply (unique_newest fetchFeed sevenDaysAgo urls x' y); [|done|done].
      eapply elem_of_sublist; [exact Hx' | apply sublist_drop]. }
    unfold newer_or_same in *. lia.
Qed.

Lemma first_of_title_nil (l : list RssItem) : first_of_title [] l = [] <-> l = [].
Proof.
  destruct l as [|x l]; cbn [first_of_title]; [done|].
  case_bool_decide as Hseen; [by apply elem_of_nil in Hseen | done].
Qed.

Lemma topItems_empty_iff (fetchFeed : nat -> string -> list RssItem)
    (sevenDaysAgo : Z) (urls : list string) :
  length (topItems fetchFeed sevenDaysAgo urls) = 0
  <-> forall item, fetched fetchFeed urls item -> ~ recent sevenDaysAgo item.
Proof.
  rewrite topItems_eq. rewrite length_zero_iff_nil.
  set (recentItems := sort_newest_first _).
  assert (take 12 (first_of_title [] recentItems) = [] <-> recentItems = []) as ->.
  { rewrite <- (first_of_title_nil recentItems).
    destruct (first_of_title [] recentItems); simpl; done. }
  split.
  - intros Hnil item Hfetched Hrecent.
    assert (item ∈ recentItems) as Hin by by apply recentItems_spec.
    rewrite Hnil in Hin. by apply elem_of_nil in Hin.
  - intros Hnone. destruct recentItems as [|item rest] eqn:Heq; [done|].
    assert (item ∈ recentItems) as Hin by (rewrite Heq; by left).
    apply recentItems_spec in Hin as [Hfetched Hrecent]. by destruct (Hnone item).
Qed.

Lemma fetchNewsForTopic_inl_iff (fetchFeed : nat -> string -> list RssItem)
    (sevenDaysAgo : Z) (isoDate : Z -> string) (trim collapse_whitespace : string -> string)
    (urls : list string) :
  (exists message,
     fetchNewsForTopic fetchFeed sevenDaysAgo isoDate trim collapse_whitespace urls
     = inl message)
  <-> forall item, fetched fetchFeed urls item -> ~ recent sevenDaysAgo item.
Proof.
  rewrite <- topItems_empty_iff. unfold fetchNewsForTopic.
  destruct (decide _) as [Hzero|Hsome].
  - split; [done | eauto].
  - split; [by intros [message ?] | done].
Qed.

Lemma fetchNewsForTopic_inr (fetchFeed : nat -> string -> list RssItem)
    (sevenDaysAgo : Z) (isoDate : Z -> string) (trim collapse_whitespace : string -> string)
    (urls : list string) (newsSummary : string) :
  fetchNewsForTopic fetchFeed sevenDaysAgo isoDate trim collapse_whitespace urls
  = inr newsSummary ->
  newsSummary
  = String.concat newline
      (map (print_item isoDate trim collapse_whitespace)
         (topItems fetchFeed sevenDaysAgo urls)) /\
  1 <= length (topItems fetchFeed sevenDaysAgo urls) <= 12 /\
  newsSummary <> "".
Proof.
  unfold fetchNewsForTopic. destruct (decide _) as [Hzero|Hsome]; [done|].
  intros [= <-]. split; [done|].
  assert (length (topItems fetchFeed sevenDaysAgo urls) <= 12) as Hmax.
  { rewrite topItems_eq, length_take. lia. }
  split; [lia|].
  destruct (topItems fetchFeed sevenDaysAgo urls) as [|x [|y rest]];
    simpl in *; [lia|done|done].
Qed.

(** X12.  [fetchNewsForTopic] throws exactly when no fetched item is within
    the last seven days (in particular when every fetch failed).  Otherwise
    it resolves with the printed items joined by newlines, between 1 and 12
    of them, which is never the empty string. *)
Theorem fetchNewsForTopic_rejects_iff (fetchFeed : nat -> string -> list RssItem)
    (sevenDaysAgo : Z) (isoDate : Z -> string) (trim collapse_whitespace : string -> string)
    (urls : list string) :
  let result :=
    fetchNewsForTopic fetchFeed sevenDaysAgo isoDate trim collapse_whitespace urls in
  let top := topItems fetchFeed sevenDaysAgo urls in
  ((exists message, result = inl message)
   <-> forall item, fetched fetchFeed urls item -> ~ recent sevenDaysAgo item) /\
  (forall newsSummary, result = inr newsSummary ->
     newsSummary
     = String.concat newline (map (print_item isoDate trim collapse_whitespace) top) /\
     1 <= length top <= 12 /\
     newsSummary <> "").
Proof.
  intros result top. subst result top. split.
  - apply fetchNewsForTopic_inl_iff.
  - apply fetchNewsForTopic_inr.
Qed.

(** *** What the registry handlers leave alone *)

Module RegistryFrame.
Import Registry.

(** The topic an event is about. *)
Definition subject (ev : Event) : string :=
  match ev with
  | AddTopic uuid _ _ _ => uuid
  | RssSettled id _ | ImageSettled id _ | UpdateTopic id _ _ _ | DeleteTopic id => id
  end.

(** The fields of a topic that the enrichment has no business with. *)
Definition card (t : NewsTopic)
    : string * string * option string * bool * option string :=
  (Topic.id t, Topic.name t, Topic.description t, Topic.isCustom t, Topic.color t).

Definition settlement (ev : Event) : bool :=
  match ev with
  | RssSettled _ _ | ImageSettled _ _ => true
  | _ => false
  end.

Definition ids (w : World) : list string := map Topic.id (App.topics (state w)).

Lemma map_topic_other (id : string) (f : NewsTopic -> NewsTopic) (topics : list NewsTopic) :
  (forall t, Topic.id (f t) = Topic.id t) ->
  filter (fun t => Topic.id t <> id) (map_topic id f topics)
  = filter (fun t => Topic.id t <> id) topics.
Proof.
  intros Hid. induction topics as [|t ts IH]; simpl; [done|].
  rewrite !filter_cons.
  destruct (decide (Topic.id t = id)) as [Heq|Hne].
  - rewrite Hid. destruct (decide (Topic.id t <> id)); [done | exact IH].
  - destruct (decide (Topic.id t <> id)); [by f_equal | done].
Qed.

Lemma map_topic_ids (id : string) (f : NewsTopic -> NewsTopic) (topics : list NewsTopic) :
  (forall t, Topic.id (f t) = Topic.id t) ->
  map Topic.id (map_topic id f topics) = map Topic.id topics.
Proof.
  intros Hid. unfold map_topic. rewrite map_map. apply map_ext.
  intros t. by destruct (decide _).
Qed.

Lemma map_topic_card (id : string) (f : NewsTopic -> NewsTopic) (topics : list NewsTopic) :
  (forall t, card (f t) = card t) ->
  map card (map_topic id f topics) = map card topics.
Proof.
  intros Hcard. unfold map_topic. rewrite map_map. apply map_ext.
  intros t. by destruct (decide _).
Qed.

(** What [promise_all] does to the topics: nothing, or one of the two
    in-place updates of the topic [id]. *)
Lemma promise_all_topics (id : string) (e : Enrichment) (w : World) :
  exists f, App.topics (state (promise_all id e w)) = map_topic id f (App.topics (state w))
            /\ (forall t, card (f t) = card t).
Proof.
  assert (forall topics : list NewsTopic, topics = map_topic id (fun t => t) topics) as Hsame.
  { intros topics. unfold map_topic. rewrite <- (map_id topics) at 1.
    apply map_ext. intros t. by destruct (decide _). }
  unfold promise_all.
  destruct (allSettled e); [by exists (fun t => t)|].
  destruct (rssPromise e) as [|validUrls|], (imagePromise e) as [|generatedImage|];
    simpl;
    first [ by exists (fun t => t)
          | by exists loaded
          | by exists (enriched validUrls generatedImage) ].
Qed.

Lemma step_others (w w' : World) (ev : Event) :
  step w ev = Some w' ->
  filter (fun t => Topic.id t <> subject ev) (App.topics (state w'))
  = filter (fun t => Topic.id t <> subject ev) (App.topics (state w)).
Proof.
  intros Hstep.
  assert (forall t, Topic.id t = (card t).1.1.1.1) as Hid by done.
  destruct ev as [uuid name description color | id validUrls | id response
                  | id newName newRssUrls newColor | id]; simpl in Hstep.
  - destruct (decide _) as [|Hfresh]; [done|]. injection Hstep as <-. simpl.
    rewrite filter_app, filter_cons. simpl.
    destruct (decide (uuid <> uuid)); [done|]. by rewrite filter_nil, app_nil_r.
  - destruct (enrichments w !! id) as [e|]; [|done].
    destruct (rssPromise e); try done. injection Hstep as <-.
    destruct (promise_all_topics id
                {| rssPromise := match validUrls with
                                 | Some urls => Fulfilled urls
                                 | None => Rejected
                                 end;
                   imagePromise := imagePromise e; allSettled := allSettled e |} w)
      as (f & -> & Hcard).
    apply map_topic_other. intros t. by rewrite !Hid, Hcard.
  - destruct (enrichments w !! id) as [e|]; [|done].
    destruct (imagePromise e); try done. injection Hstep as <-.
    destruct (promise_all_topics id
                {| rssPromise := rssPromise e;
                   imagePromise := Fulfilled (generateCoverImage response);
                   allSettled := allSettled e |} w)
      as (f & -> & Hcard).
    apply map_topic_other. intros t. by rewrite !Hid, Hcard.
  - injection Hstep as <-. by apply map_topic_other.
  - injection Hstep as <-. simpl.
    induction (App.topics (state w)) as [|t ts IH]; [done|].
    rewrite !filter_cons. destruct (decide (Topic.id t <> id)); [|done].
    rewrite filter_cons. destruct (decide (Topic.id t <> id)); [|done]. by f_equal.
Qed.

(** X13.  A registry handler touches one topic only: every other topic is
    left as it was, at its place.  The settlement of an enrichment promise
    adds, removes and reorders nothing and leaves the id, name, description,
    custom flag and colour of every topic alone; an edit by hand keeps the
    list of ids. *)
Theorem registry_frame (w w' : World) (ev : Event) :
  step w ev = Some w' ->
  filter (fun t => Topic.id t <> subject ev) (App.topics (state w'))
  = filter (fun t => Topic.id t <> subject ev) (App.topics (state w)) /\
  (settlement ev = true ->
   map card (App.topics (state w')) = map card (App.topics (state w))) /\
  (forall id newName newRssUrls newColor,
     ev = UpdateTopic id newName newRssUrls newColor -> ids w' = ids w).
Proof.
  intros Hstep. split; [by apply step_others|].
  destruct ev as [uuid name description color | id validUrls | id response
                  | id newName newRssUrls newColor | id]; simpl in Hstep;
    (split; [try done | try by intros ? ? ? ? [=]]).
  - destruct (enrichments w !! id) as [e|]; [|done].
    destruct (rssPromise e); try done. injection Hstep as <-.
    destruct (promise_all_topics id
                {| rssPromise := match validUrls with
                                 | Some urls => Fulfilled urls
                                 | None => Rejected
                                 end;
                   imagePromise := imagePromise e; allSettled := allSettled e |} w)
      as (f & -> & Hcard).
    intros _. by apply map_topic_card.
  - destruct (enrichments w !! id) as [e|]; [|done].
    destruct (imagePromise e); try done. injection Hstep as <-.
    destruct (promise_all_topics id
                {| rssPromise := rssPromise e;
                   imagePromise := Fulfilled (generateCoverImage response);
                   allSettled := allSettled e |} w)
      as (f & -> & Hcard).
    intros _. by apply map_topic_card.
  - injection Hstep as <-. intros ? ? ? ? _. unfold ids. simpl. by apply map_topic_ids.
Qed.

(** Three topics, the second with its cover settled while its feeds are
    awaited, for examples. *)
Definition demo_topics : list Event :=
  [AddTopic "u1" "Chess" "chess news" None; AddTopic "u2" "Go" "go news" None;
   AddTopic "u3" "Shogi" "shogi news" None;
   ImageSettled "u2" (ImageParts [Some "AAAA"])].

Lemma registry_frame_witness :
  exists w w' w'',
    run step RegistryFacts.empty_world demo_topics = Some w /\
    step w (RssSettled "u2" (Some ["https://feed.example/rss"])) = Some w' /\
    step w' (UpdateTopic "u3" "Shogi and more" [] (Some "rose")) = Some w'' /\
    map Topic.id (filter (fun t => Topic.id t <> "u2") (App.topics (state w)))
    = ["u1"; "u3"] /\
    map Topic.isLoading (App.topics (state w')) = [Some true; Some false; Some true] /\
    filter (fun t => Topic.id t <> "u2") (App.topics (state w'))
    = filter (fun t => Topic.id t <> "u2") (App.topics (state w)) /\
    map card (App.topics (state w')) = map card (App.topics (state w)) /\
    filter (fun t => Topic.id t <> "u3") (App.topics (state w''))
    = filter (fun t => Topic.id t <> "u3") (App.topics (state w')) /\
    ids w'' = ids w'.
Proof.
  eexists _, _, _.
  split; [vm_compute; reflexivity|].
  split; [vm_compute; reflexivity|].
  split; [vm_compute; reflexivity|].
  split; [vm_compute; reflexivity|].
  split; [vm_compute; reflexivity|].
  match goal with
  | |- filter _ (App.topics (state ?w')) = filter _ (App.topics (state ?w)) /\ _ =>
      destruct (registry_frame w w'
                  (RssSettled "u2" (Some ["https://feed.example/rss"]))
                  ltac:(vm_compute; reflexivity)) as (Hothers & Hcard & _)
  end.
  split; [exact Hothers|]. split; [exact (Hcard eq_refl)|].
  match goal with
  | |- filter _ (App.topics (state ?w'')) = filter _ (App.topics (state ?w')) /\ _ =>
      destruct (registry_frame w' w''
                  (UpdateTopic "u3" "Shogi and more" [] (Some "rose"))
                  ltac:(vm_compute; reflexivity)) as (Hothers' & _ & Hids)
  end.
  split; [exact Hothers'|]. exact (Hids _ _ _ _ eq_refl).
Defined.

(** *** Topic identifiers *)

Lemma step_ids (w w' : World) (ev : Event) :
  step w ev = Some w' ->
  match ev with
  | AddTopic uuid _ _ _ => ids w' = ids w ++ [uuid] /\ uuid ∉ ids w
  | DeleteTopic id => ids w' = filter (fun i => i <> id) (ids w)
  | _ => ids w' = ids w
  end.
Proof.
  intros Hstep. unfold ids.
  destruct ev as [uuid name description color | id validUrls | id response
                  | id newName newRssUrls newColor | id]; simpl in Hstep.
  - destruct (decide _) as [|Hfresh]; [done|]. injection Hstep as <-. simpl.
    rewrite map_app. split; [done|]. tauto.
  - destruct (enrichments w !! id) as [e|]; [|done].
    destruct (rssPromise e); try done. injection Hstep as <-.
    destruct (promise_all_topics id
                {| rssPromise := match validUrls with
                                 | Some urls => Fulfilled urls
                                 | None => Rejected
                                 end;
                   imagePromise := imagePromise e; allSettled := allSettled e |} w)
      as (f & -> & Hcard).
    apply map_topic_ids. intros t. by injection (Hcard t).
  - destruct (enrichments w !! id) as [e|]; [|done].
    destruct (imagePromise e); try done. injection Hstep as <-.
    destruct (promise_all_topics id
                {| rssPromise := rssPromise e;
                   imagePromise := Fulfilled (generateCoverImage response);
                   allSettled := allSettled e |} w)
      as (f & -> & Hcard).
    apply map_topic_ids. intros t. by injection (Hcard t).
  - injection Hstep as <-. simpl. by apply map_topic_ids.
  - injection Hstep as <-. simpl.
    induction (App.topics (state w)) as [|t ts IH]; [done|].
    rewrite filter_cons. simpl. rewrite filter_cons.
    destruct (decide (Topic.id t <> id)); simpl; [by f_equal | done].
Qed.

(** X14.  Topic ids stay pairwise distinct: no handler duplicates a topic,
    given that [crypto.randomUUID()] returns an id that is not in use. *)
Theorem topic_ids_distinct (w w' : World) (evs : list Event) :
  run step w evs = Some w' -> NoDup (ids w) -> NoDup (ids w').
Proof.
  revert w. induction evs as [|ev evs IH]; intros w Hrun Hnodup; simpl in Hrun.
  - by injection Hrun as <-.
  - destruct (step w ev) as [w1|] eqn:Hstep; [|done]. simpl in Hrun.
    apply (IH w1 Hrun). apply step_ids in Hstep.
    destruct ev; try (by rewrite Hstep).
    + destruct Hstep as [-> Hfresh]. apply NoDup_app. split; [done|].
      split; [|apply NoDup_singleton].
      intros x Hx ->%list_elem_of_singleton. done.
    + rewrite Hstep. by apply NoDup_filter.
Qed.

Lemma topic_ids_distinct_witness :
  exists w',
    run step RegistryFacts.empty_world
      [AddTopic "u1" "Chess" "chess news" None; AddTopic "u2" "Go" "go news" None;
       RssSettled "u1" None; DeleteTopic "u2"] = Some w' /\
    NoDup (ids w').
Proof.
  eexists. split; [reflexivity|].
  apply (topic_ids_distinct RegistryFacts.empty_world _
           [AddTopic "u1" "Chess" "chess news" None; AddTopic "u2" "Go" "go news" None;
            RssSettled "u1" None; DeleteTopic "u2"] eq_refl).
  constructor.
Defined.

(** *** A deleted topic stays deleted *)

Lemma step_keeps_enrichment (w w' : World) (ev : Event) (uuid : string) :
  step w ev = Some w' -> is_Some (enrichments w !! uuid) -> is_Some (enrichments w' !! uuid).
Proof.
  intros Hstep Hsome.
  assert (forall id e w0, enrichments w0 = enrichments w ->
            is_Some (enrichments (promise_all id e w0) !! uuid)) as Hall.
  { intros id e w0 Hw0. unfold promise_all.
    destruct (allSettled e); [|destruct (rssPromise e), (imagePromise e)]; simpl;
      rewrite Hw0; (destruct (decide (id = uuid)) as [->|Hne];
                    [by rewrite lookup_insert_eq | by rewrite lookup_insert_ne]). }
  destruct ev as [u name description color | id validUrls | id response
                  | id newName newRssUrls newColor | id]; simpl in Hstep.
  - destruct (decide _) as [|Hfresh]; [done|]. injection Hstep as <-. simpl.
    destruct (decide (u = uuid)) as [->|Hne];
      [by rewrite lookup_insert_eq | by rewrite lookup_insert_ne].
  - destruct (enrichments w !! id) as [e|]; [|done].
    destruct (rssPromise e); try done. injection Hstep as <-. by apply Hall.
  - destruct (enrichments w !! id) as [e|]; [|done].
    destruct (imagePromise e); try done. injection Hstep as <-. by apply Hall.
  - by injection Hstep as <-.
  - by injection Hstep as <-.
Qed.

Lemma run_keeps_enrichment (evs : list Event) (uuid : string) : forall w w',
  run step w evs = Some w' -> is_Some (enrichments w !! uuid) ->
  is_Some (enrichments w' !! uuid).
Proof.
  induction evs as [|ev evs IH]; intros w w' Hrun Hsome; simpl in Hrun.
  - by injection Hrun as <-.
  - destruct (step w ev) as [w1|] eqn:Hstep; [|done]. simpl in Hrun.
    eapply IH; [exact Hrun|]. by eapply step_keeps_enrichment.
Qed.

Lemma run_stays_deleted (evs : list Event) (uuid : string) : forall w w',
  run step w evs = Some w' -> is_Some (enrichments w !! uuid) ->
  uuid ∉ ids w -> uuid ∉ ids w'.
Proof.
  induction evs as [|ev evs IH]; intros w w' Hrun Hsome Hgone; simpl in Hrun.
  - by injection Hrun as <-.
  - destruct (step w ev) as [w1|] eqn:Hstep; [|done]. simpl in Hrun.
    apply (IH w1 w' Hrun); [by eapply step_keeps_enrichment|].
    pose proof (step_ids _ _ _ Hstep) as Hids.
    destruct ev as [u name description color | | | |id]; try (by rewrite Hids).
    + destruct Hids as [-> _]. simpl in Hstep.
      destruct (decide _) as [|Hfresh]; [done|].
      rewrite not_elem_of_app, list_elem_of_singleton. split; [done|].
      intros ->. apply Hfresh. by right.
    + rewrite Hids. rewrite list_elem_of_filter. tauto.
Qed.

(** X15.  A topic added by [handleAddTopic] and then deleted never comes
    back: whatever happens before and after the deletion, settlements of its
    own enrichment promises included, the registry holds no topic of that id,
    and a later event about that id leaves the topic list as it is. *)
Theorem deleted_topic_stays_deleted (w w1 w2 w3 w4 : World)
    (uuid name description : string) (color : option string) (evs evs' : list Event) :
  step w (AddTopic uuid name description color) = Some w1 ->
  run step w1 evs = Some w2 ->
  step w2 (DeleteTopic uuid) = Some w3 ->
  run step w3 evs' = Some w4 ->
  (uuid ∉ ids w4) /\
  (forall ev w5, step w4 ev = Some w5 -> subject ev = uuid ->
     App.topics (state w5) = App.topics (state w4)).
Proof.
  intros Hadd Hrun Hdel Hrun'.
  assert (is_Some (enrichments w1 !! uuid)) as H1.
  { simpl in Hadd. destruct (decide _); [done|]. injection Hadd as <-. simpl.
    by rewrite lookup_insert_eq. }
  pose proof (run_keeps_enrichment _ _ _ _ Hrun H1) as H2.
  pose proof (step_keeps_enrichment _ _ _ _ Hdel H2) as H3.
  assert (uuid ∉ ids w3) as Hgone.
  { apply step_ids in Hdel. rewrite Hdel, list_elem_of_filter. tauto. }
  pose proof (run_stays_deleted _ _ _ _ Hrun' H3 Hgone) as Hgone4.
  pose proof (run_keeps_enrichment _ _ _ _ Hrun' H3) as H4.
  split; [done|].
  intros ev w5 Hstep Hsubject.
  assert (forall topics : list NewsTopic,
            uuid ∉ map Topic.id topics ->
            filter (fun t => Topic.id t <> uuid) topics = topics) as Hall.
  { induction topics as [|t ts IH]; simpl; [done|]. intros [Hne Hts]%not_elem_of_cons.
    rewrite filter_cons. destruct (decide (Topic.id t <> uuid)) as [_|Hno].
    - f_equal. by apply IH.
    - exfalso. apply Hno. intros Heq. by apply Hne. }
  assert (uuid ∉ ids w5) as Hgone5.
  { apply (run_stays_deleted [ev] uuid w4 w5); [simpl; by rewrite Hstep|done|done]. }
  rewrite <- (Hall (App.topics (state w5)) Hgone5), <- (Hall (App.topics (state w4)) Hgone4).
  rewrite <- Hsubject. by apply step_others.
Qed.

Lemma deleted_topic_stays_deleted_witness :
  exists w4,
    run step RegistryFacts.empty_world
      [AddTopic "u1" "Chess" "chess news" None;
       RssSettled "u1" (Some ["https://feed.example/rss"]);
       DeleteTopic "u1";
       ImageSettled "u1" (ImageParts [Some "AAAA"])] = Some w4 /\
    "u1" ∉ ids w4.
Proof.
  eexists. split; [vm_compute; reflexivity|].
  eapply (deleted_topic_stays_deleted RegistryFacts.empty_world _ _ _ _
            "u1" "Chess" "chess news" None
            [RssSettled "u1" (Some ["https://feed.example/rss"])]
            [ImageSettled "u1" (ImageParts [Some "AAAA"])]);
    vm_compute; reflexivity.
Defined.

End RegistryFrame.

(** ** App.tsx: what a cancellation and a commit leave in the store *)

Module SessionStore.
Import Session SessionFacts.

(** The store apart from the status, the progress flag and the error. *)
Definition shown (st : AppState) :=
  (App.script st, App.audioSegments st, App.currentEpisodeId st, App.activeCategory st,
   App.customCoverUrl st, App.library st, App.notification st, App.topics st).

Definition starts (ev : Event) : bool :=
  match ev with
  | StartGeneration _ _ _ => true
  | _ => false
  end.

(** No activation belongs to the current epoch. *)
Definition all_stale (w : World) : Prop :=
  forall sid act, activations w !! sid = Some act -> sid < generationIdRef w.

(** Idle, or showing the failure of a first chunk. *)
Definition halted (st : AppState) : Prop :=
  App.isGeneratingAudio st = false /\
  ((App.status st = Status.idle /\ App.error st = None) \/
   (App.status st = Status.error /\ App.error st = Some "Failed to generate audio.")).

Lemma stale_step (w w' : World) (ev : Event) (sid : nat) :
  (forall act, activations w !! sid = Some act -> currentGenId (args_of act) = sid) ->
  event_sid ev = Some sid -> sid <> generationIdRef w -> step w ev = Some w' ->
  state w' = state w \/
  state w' = set_status Status.error false (Some "Failed to generate audio.") (state w).
Proof.
  intros Hid Hsid Hstale Hstep.
  destruct ev as [| |sid0 r|sid0 r|sid0 r]; simpl in Hsid; try done;
    injection Hsid as ->; unfold_step; step_cases;
    pose proof (Hid _ eq_refl) as Hid'; simpl in Hid'; subst sid;
    world_simpl;
    try (match goal with
         | H : bool_decide _ && _ = true |- _ =>
             apply andb_prop in H as [H _]; apply bool_decide_eq_true_1 in H
         end);
    first [ left; reflexivity | congruence | exfalso; lia | right; reflexivity ].
Qed.

Lemma event_sid_pending (w w' : World) (ev : Event) (sid : nat) :
  step w ev = Some w' -> event_sid ev = Some sid -> is_Some (activations w !! sid).
Proof.
  intros Hstep Hsid. unfold step in Hstep.
  destruct ev; simpl in Hsid; try done; injection Hsid as ->;
    destruct (activations w !! sid); by eauto.
Qed.

Lemma halted_step (library0 : list PodcastEpisode) (w w' : World) (ev : Event) :
  winv library0 w -> all_stale w -> starts ev = false -> step w ev = Some w' ->
  all_stale w' /\
  shown (state w') = shown (state w) /\
  (halted (state w) -> halted (state w')).
Proof.
  intros Hw Hstale Hev Hstep.
  destruct (event_sid ev) as [sid|] eqn:Hsid.
  - destruct (event_sid_pending _ _ _ _ Hstep Hsid) as [act Hact].
    pose proof (Hstale _ _ Hact) as Hlt.
    destruct (step_frame w w' ev sid (fun act => winv_ids _ w sid act Hw) Hstep Hsid)
      as (Hg & Hothers & _).
    split.
    { intros sid' act' Hact'. rewrite Hg.
      destruct (decide (sid' = sid)) as [->|Hne]; [done|].
      rewrite Hothers in Hact' by done. by eapply Hstale. }
    destruct (stale_step w w' ev sid (fun act => winv_ids _ w sid act Hw) Hsid
                ltac:(lia) Hstep) as [->| ->]; [done|].
    split; [done|]. intros _. split; [done|]. by right.
  - destruct ev as [| | | |]; simpl in *; try done. injection Hstep as <-.
    split; [|split; [done|]].
    + intros sid act Hact. simpl in *. apply Hstale in Hact. lia.
    + intros _. split; [done|]. by left.
Qed.

Lemma halted_run (library0 : list PodcastEpisode) (evs : list Event) : forall w w',
  winv library0 w -> all_stale w -> Forall (fun ev => starts ev = false) evs ->
  run step w evs = Some w' ->
  shown (state w') = shown (state w) /\ (halted (state w) -> halted (state w')).
Proof.
  induction evs as [|ev evs IH]; intros w w' Hw Hstale Hevs Hrun; simpl in Hrun.
  - by injection Hrun as <-.
  - destruct (step w ev) as [w1|] eqn:Hstep; [|done]. simpl in Hrun.
    inversion Hevs as [|? ? Hev Hevs']; subst.
    destruct (halted_step _ _ _ _ Hw Hstale Hev Hstep) as (Hstale1 & Hshown1 & Hhalt1).
    destruct (IH w1 w' (step_winv _ _ _ _ Hw Hstep) Hstale1 Hevs' Hrun) as [Hshown Hhalt].
    split; [by rewrite Hshown | auto].
Qed.

(** X16.  Once the user has stopped, and until a generation is started
    again, nothing that settles for the cancelled generations reaches the
    library, the script, the segment queue, the cover or the episode shown:
    no episode is committed, the progress flag stays off, and the status
    stays [idle] unless the failure of a first chunk turns it into [error]. *)
Theorem stop_freezes_store (st : AppState) (evs evs' : list Event) (w w1 w2 : World) :
  run step (boot st) evs = Some w ->
  step w StopGeneration = Some w1 ->
  run step w1 evs' = Some w2 ->
  Forall (fun ev => starts ev = false) evs' ->
  shown (state w2) = shown (state w1) /\
  commits (trace w2) = commits (trace w1) /\
  halted (state w2).
Proof.
  intros Hrun Hstop Hrun' Hevs'.
  pose proof (reach_winv _ _ _ Hrun) as Hw.
  pose proof (step_winv _ _ _ _ Hw Hstop) as Hw1.
  pose proof (run_winv _ _ _ _ Hw1 Hrun') as Hw2.
  assert (all_stale w1) as Hstale.
  { simpl in Hstop. injection Hstop as <-. intros sid act Hact. simpl in *.
    apply (inv_sessions _ _ Hw) in Hact. lia. }
  assert (halted (state w1)) as Hhalted.
  { simpl in Hstop. injection Hstop as <-. split; [done|]. by left. }
  destruct (halted_run _ _ _ _ Hw1 Hstale Hevs' Hrun') as [Hshown Hhalt].
  split; [done|]. split; [|auto].
  assert (App.library (state w2) = App.library (state w1)) as Hlib.
  { unfold shown in Hshown. by injection Hshown. }
  rewrite (inv_library _ _ Hw1), (inv_library _ _ Hw2) in Hlib.
  apply app_inv_tail in Hlib.
  rewrite <- (rev_involutive (commits (trace w2))), Hlib. apply rev_involutive.
Qed.

Lemma stop_freezes_store_witness :
  exists w1 w2,
    run step (boot empty_state)
      [StartGeneration "custom" None true; ScriptDone 1 (inr (demo_script 7));
       AudioDone 1 (Some "blob:a0"); StopGeneration] = Some w1 /\
    run step w1 [AudioDone 1 (Some "blob:a1"); ImageDone 1 (ImageParts [Some "AAAA"])]
    = Some w2 /\
    shown (state w2) = shown (state w1) /\ halted (state w2).
Proof.
  eexists _, _. split; [vm_compute; reflexivity|]. split; [vm_compute; reflexivity|].
  destruct (stop_freezes_store empty_state
              [StartGeneration "custom" None true; ScriptDone 1 (inr (demo_script 7));
               AudioDone 1 (Some "blob:a0")]
              [AudioDone 1 (Some "blob:a1"); ImageDone 1 (ImageParts [Some "AAAA"])]
              _ _ _
              ltac:(vm_compute; reflexivity) ltac:(vm_compute; reflexivity)
              ltac:(vm_compute; reflexivity) ltac:(repeat constructor))
    as (Hshown & _ & Hhalted).
  split; [exact Hshown | exact Hhalted].
Defined.

(** *** The segment queue of the generation that is current *)








End SessionStore.

(** ** App.tsx: the feeds a new topic ends up with *)

Module Discovery.
Import Registry RegistryFacts.

(** [discoverRssFeeds(description).then(async (candidates) =>
    await getValidFeeds(candidates, 3))]: what [rssPromise] settles with,
    given what the discovery settles with ([None] when it rejects). *)
Definition rssPromise_of (checkFeedHealth : nat -> string -> bool)
    (discovered : option (list string)) : option (list string) :=
  candidates ← discovered;
  run ← getValidFeeds checkFeedHealth candidates 3;
  Some (valid run).

(** X18.  After the discovery of feeds has resolved and its candidates have
    been validated, the topic that [handleAddTopic] inserted has (short of an
    edit or a removal by hand) at most 3 feeds, pairwise different, in the
    order of the discovered candidates, each a candidate whose health check
    passed.  As long as the cover call has not settled it is still the topic
    as inserted, loading and without feeds; once the cover call has settled
    as well it is no longer loading, and it has fewer than 3 feeds only when
    no other candidate passed its check. *)
Theorem addTopic_feeds_validated (checkFeedHealth : nat -> string -> bool)
    (w w1 w2 : World) (uuid name description : string) (color : option string)
    (evs : list Event) (candidates : list string) :
  step w (AddTopic uuid name description color) = Some w1 ->
  run step w1 evs = Some w2 ->
  Forall (fun ev => touches uuid ev = false) evs ->
  rss_seen uuid evs = Some (rssPromise_of checkFeedHealth (Some candidates)) ->
  exists t,
    filter (fun t => Topic.id t = uuid) (App.topics (state w2)) = [t] /\
    length (Topic.rssUrls t) <= 3 /\
    NoDup (Topic.rssUrls t) /\
    sublist (Topic.rssUrls t) candidates /\
    (forall url, url ∈ Topic.rssUrls t ->
       exists k, candidates !! k = Some url /\ checkFeedHealth k url = true) /\
    match image_seen uuid evs with
    | None =>
        t = newTopic uuid name description color /\
        Topic.isLoading t = Some true /\ Topic.rssUrls t = []
    | Some response =>
        Topic.isLoading t = Some false /\
        (length (Topic.rssUrls t) < 3 ->
         forall k url, candidates !! k = Some url -> checkFeedHealth k url = true ->
           url ∈ Topic.rssUrls t)
    end.
Proof.
  intros Hadd Hrun Hallowed Hrss.
  set (t0 := newTopic uuid name description color).
  simpl in Hadd. unfold handleAddTopic in Hadd.
  destruct (decide _) as [|Hfresh]; [done|]. injection Hadd as <-.
  assert (enriching uuid t0 None None
            {| state := set_topics (fun topics => topics ++ [t0]) (state w);
               enrichments := <[uuid := enrichment_after None None]> (enrichments w) |})
    as Hinv.
  { split; simpl; [by rewrite lookup_insert_eq|].
    unfold mine. simpl. rewrite filter_app, filter_id_fresh by tauto.
    rewrite filter_cons. simpl. destruct (decide (uuid = uuid)); done. }
  pose proof (run_enriching uuid t0 evs None None _ _ Hinv Hallowed Hrun) as [_ Hmine].
  rewrite !first_seen_None_l in Hmine. unfold mine in Hmine.
  rewrite Hrss in Hmine.
  destruct (getValidFeeds_loop_valid checkFeedHealth candidates 3
              (length candidates) 0 [] []) as (checked' & Hfeeds); [lia|].
  rewrite drop_0 in Hfeeds.
  destruct (gather_extends (healthy_from checkFeedHealth 0 candidates) [] 3)
    as (news & Hnews & Hsub & Hnodup & Hlen & Hall).
  cbn [app] in *. rewrite Hnews in Hfeeds.
  unfold rssPromise_of, getValidFeeds in Hmine. simpl in Hmine.
  rewrite Hfeeds in Hmine. simpl in Hmine.
  eexists. split; [exact Hmine|].
  destruct (image_seen uuid evs) as [response|]; simpl.
  - split; [simpl in Hlen; lia|]. split; [apply Hnodup; constructor|].
    split; [etrans; [exact Hsub | apply healthy_from_sublist]|].
    split.
    + intros url Hin. apply (elem_of_sublist _ _ _ Hin) in Hsub.
      by apply healthy_from_spec in Hsub.
    + split; [done|]. intros Hroom k url Hk Hh. apply Hall; [done|].
      apply healthy_from_spec. by exists k.
  - split; [lia|]. split; [constructor|]. split; [apply sublist_nil_l|].
    split; [|done]. intros url Hin. by apply elem_of_nil in Hin.
Qed.

Lemma addTopic_feeds_validated_witness :
  exists w2 w3 t t',
    run step empty_world
      [AddTopic "u1" "Chess" "chess news" None;
       RssSettled "u1" (rssPromise_of demo_health (Some ["a"; "b"; "b"; "c"; "d"; "e"; "f"]))]
    = Some w2 /\
    step w2 (ImageSettled "u1" (ImageParts [Some "AAAA"])) = Some w3 /\
    filter (fun t => Topic.id t = "u1") (App.topics (state w2)) = [t] /\
    Topic.isLoading t = Some true /\ Topic.rssUrls t = [] /\
    filter (fun t => Topic.id t = "u1") (App.topics (state w3)) = [t'] /\
    Topic.isLoading t' = Some false /\
    length (Topic.rssUrls t') <= 3 /\ NoDup (Topic.rssUrls t').
Proof.
  eexists _, _.
  destruct (addTopic_feeds_validated demo_health empty_world _ _
              "u1" "Chess" "chess news" None
              [RssSettled "u1"
                 (rssPromise_of demo_health (Some ["a"; "b"; "b"; "c"; "d"; "e"; "f"]))]
              ["a"; "b"; "b"; "c"; "d"; "e"; "f"]
              ltac:(vm_compute; reflexivity) ltac:(vm_compute; reflexivity)
              ltac:(repeat constructor) ltac:(vm_compute; reflexivity))
    as (t & Hmine & _ & _ & _ & _ & _ & Hloading & Hnone).
  destruct (addTopic_feeds_validated demo_health empty_world _ _
              "u1" "Chess" "chess news" None
              [RssSettled "u1"
                 (rssPromise_of demo_health (Some ["a"; "b"; "b"; "c"; "d"; "e"; "f"]));
               ImageSettled "u1" (ImageParts [Some "AAAA"])]
              ["a"; "b"; "b"; "c"; "d"; "e"; "f"]
              ltac:(vm_compute; reflexivity) ltac:(vm_compute; reflexivity)
              ltac:(repeat constructor) ltac:(vm_compute; reflexivity))
    as (t' & Hmine' & Hlen & Hnodup & _ & _ & Hloaded & _).
  exists t, t'.
  split; [vm_compute; reflexivity|]. split; [vm_compute; reflexivity|].
  split; [exact Hmine|]. split; [exact Hloading|]. split; [exact Hnone|].
  split; [exact Hmine'|]. split; [exact Hloaded|]. split; [exact Hlen | exact Hnodup].
Defined.

End Discovery.

(** ** App.tsx: handleDownloadEpisode *)

(** [{ ...s, error }] *)
Definition set_error (error : option string) (prev : AppState) : AppState :=
  {| App.script := App.script prev;
     App.audioSegments := App.audioSegments prev;
     App.isGeneratingAudio := App.isGeneratingAudio prev;
     App.status := App.status prev;
     App.error := error;
     App.notification := App.notification prev;
     App.currentEpisodeId := App.currentEpisodeId prev;
     App.activeCategory := App.activeCategory prev;
     App.customCoverUrl := App.customCoverUrl prev;
     App.library := App.library prev;
     App.topics := App.topics prev |}.

(** A title is a sequence of 16-bit code units, and so is the file name made
    of it: [replace] with a pattern without the flag [u] and [toLowerCase]
    work unit by unit and know nothing of characters. *)
Definition in_range (lo hi c : Z) : bool := ((lo <=? c) && (c <=? hi))%Z.

(** The class [[a-z0-9]] under the flag [i].  Without the flag [u] a code
    unit from 128 on is never taken for a pattern character below 128, so the
    class holds the units of the letters and digits below and no other. *)
Definition alphanumeric (c : Z) : bool :=
  in_range 97 122 c || in_range 65 90 c || in_range 48 57 c.

Definition underscore : Z := 95.

(** [s.replace(/[^a-z0-9]/gi, '_')] *)
Definition replace_non_alphanumeric (s : list Z) : list Z :=
  map (fun c => if alphanumeric c then c else underscore) s.

(** What [toLowerCase()] does to a unit below 128. *)
Definition lower_ascii (c : Z) : Z := if in_range 65 90 c then (c + 32)%Z else c.

Definition is_ascii (c : Z) : bool := in_range 0 127 c.

(** What the handler hands to the browser. *)
Inductive Download :=
| NoDownload
| Saved (download : list Z) (blob : list Z)
| DownloadFailed.

Section HandleDownloadEpisode.

(** [String.prototype.toLowerCase], on code units. *)
Variable toLowerCase : list Z -> list Z.
(** The code units of a title.  The strings of the store are copied and
    compared everywhere else; this handler alone looks into one. *)
Variable codeUnits : string -> list Z.

Definition download_name (title : list Z) : list Z :=
  toLowerCase (replace_non_alphanumeric title) ++ codes ".wav".

(** [fetch] resolves the segment URLs as in [mergeAudioSegments]; the result
    is what was saved and the store after the handler. *)
Definition handleDownloadEpisode (fetch : string -> option (list Z)) (state : AppState)
    : Download * AppState :=
  match App.script state with
  | None => (NoDownload, state)
  | Some script =>
      if length (App.audioSegments state) =? 0 then (NoDownload, state)
      else
        match mergeAudioSegments fetch (App.audioSegments state) with
        | Some blob => (Saved (download_name (codeUnits (title script))) blob, state)
        | None => (DownloadFailed, set_error (Some "Failed to download episode.") state)
        end
  end.

(** The units a file name is made of: [a-z], [0-9] and [_]. *)
Definition plain (c : Z) : bool :=
  in_range 97 122 c || in_range 48 57 c || (c =? underscore)%Z.

(** What becomes of one unit of the title. *)
Definition name_unit (c : Z) : Z :=
  if plain c then c else if in_range 65 90 c then (c + 32)%Z else underscore.

Lemma replaced_ascii (c : Z) :
  is_ascii (if alphanumeric c then c else underscore) = true.
Proof. unfold is_ascii, alphanumeric, underscore, in_range. repeat case_match; lia. Qed.

Lemma lower_replaced (c : Z) :
  lower_ascii (if alphanumeric c then c else underscore) = name_unit c.
Proof.
  unfold lower_ascii, name_unit, plain, alphanumeric, underscore, in_range.
  repeat case_match; lia.
Qed.

Lemma name_unit_plain (c : Z) : plain (name_unit c) = true.
Proof.
  unfold name_unit, plain, underscore, in_range. repeat case_match; lia.
Qed.

(** X20.  [handleDownloadEpisode] does nothing when the store has no script
    or no audio segment.  Otherwise it saves, under the name made of the
    title, the merge of the segments, and leaves the store alone; or, exactly
    when the fetch of a segment fails, it saves nothing and sets the error
    message, touching nothing else in the store. *)
Theorem handleDownloadEpisode_outcome (fetch : string -> option (list Z))
    (state : AppState) :
  let saved := (handleDownloadEpisode fetch state).1 in
  let state' := (handleDownloadEpisode fetch state).2 in
  (saved = NoDownload <-> App.script state = None \/ App.audioSegments state = []) /\
  (saved = DownloadFailed <->
   is_Some (App.script state) /\
   exists url, url ∈ App.audioSegments state /\ fetch url = None) /\
  (saved = DownloadFailed -> state' = set_error (Some "Failed to download episode.") state) /\
  (saved <> DownloadFailed -> state' = state) /\
  (forall download blob, saved = Saved download blob ->
     exists script buffers,
       App.script state = Some script /\
       download = download_name (codeUnits (title script)) /\
       mapM fetch (App.audioSegments state) = Some buffers /\
       createWavBlob (concat (map pcm_payload buffers)) 24000 = Some blob).
Proof.
  intros saved state'. subst saved state'. unfold handleDownloadEpisode.
  destruct (App.script state) as [script|] eqn:Hscript.
  2:{ simpl. split; [split; [by left | done]|]. split; [|done].
      split; [done|]. by intros [[? [=]] _]. }
  destruct (App.audioSegments state) as [|url urls] eqn:Hsegs.
  { simpl. split; [split; [by right | done]|]. split; [|done].
    split; [done|]. intros [_ (u & Hu & _)]. by apply elem_of_nil in Hu. }
  cbn [length Nat.eqb].
  destruct (mergeAudioSegments fetch (url :: urls)) as [blob|] eqn:Hmerge; simpl.
  - split; [split; [done | by intros [?|?]]|].
    split.
    { split; [done|]. intros [_ Hfail]. apply mergeAudioSegments_None in Hfail. congruence. }
    split; [done|]. split; [done|].
    intros download blob' [= <- <-].
    destruct (mapM fetch (url :: urls)) as [buffers|] eqn:Hfetch.
    + exists script, buffers. split; [done|]. split; [done|]. split; [done|].
      by rewrite <- (mergeAudioSegments_run _ _ _ Hfetch).
    + unfold mergeAudioSegments in Hmerge. by rewrite Hfetch in Hmerge.
  - split; [split; [done | by intros [?|?]]|].
    split.
    { split; [|done]. intros _. split; [by eexists|]. by apply mergeAudioSegments_None. }
    split; [done|]. split; [done|]. by intros ? ? [=].
Qed.

(** On a string of units below 128, [toLowerCase] turns the letters A to Z
    into a to z and leaves every other unit as it is. *)
Hypothesis toLowerCase_ascii : forall s,
  forallb is_ascii s = true -> toLowerCase s = map lower_ascii s.

Lemma download_stem (title : list Z) :
  toLowerCase (replace_non_alphanumeric title) = map name_unit title.
Proof.
  rewrite toLowerCase_ascii.
  - unfold replace_non_alphanumeric. rewrite map_map.
    apply map_ext. intros c. apply lower_replaced.
  - unfold replace_non_alphanumeric. apply forallb_forall. intros c Hc.
    apply in_map_iff in Hc as (c0 & <- & _). apply replaced_ascii.
Qed.

(** X19.  Whatever the title, as a sequence of 16-bit code units, the name
    under which an episode is saved is a stem followed by [.wav]; the stem
    has one unit for each unit of the title: the unit itself if it is one of
    [a-z], [0-9] and [_], the lower-case letter for one of [A-Z], and [_] for
    any other, the units from 128 on and the halves of a surrogate pair
    included.  So the stem holds nothing but [a-z], [0-9] and [_], and is the
    title itself when the title is made of these.  Of [toLowerCase] this
    takes what is assumed above, its effect on strings of units below 128. *)
Theorem download_name_plain (title : list Z) :
  exists stem,
    download_name title = stem ++ codes ".wav" /\
    stem = map name_unit title /\
    length stem = length title /\
    forallb plain stem = true /\
    (forallb plain title = true -> stem = title).
Proof.
  exists (map name_unit title). unfold download_name. rewrite download_stem.
  split; [done|]. split; [done|]. split; [by rewrite length_map|]. split.
  - apply forallb_forall. intros c Hc. apply in_map_iff in Hc as (c0 & <- & _).
    apply name_unit_plain.
  - intros Hplain. rewrite <- (map_id title) at 2. apply map_ext_in.
    intros c Hc. unfold name_unit.
    by rewrite (proj1 (forallb_forall plain title) Hplain c Hc).
Qed.

End HandleDownloadEpisode.

(** A title with an accent, a dash, two ideographs and a surrogate pair, for
    examples. *)
Definition demo_title : list Z :=
  [67; 97; 102; 233; 32; 8211; 32; 26481; 20140; 32; 55357; 56832; 95; 50; 52]%Z.

Lemma download_name_plain_witness :
  exists stem,
    download_name (map lower_ascii) demo_title = stem ++ codes ".wav" /\
    stem = [99; 97; 102; 95; 95; 95; 95; 95; 95; 95; 95; 95; 95; 50; 52]%Z.
Proof.
  destruct (download_name_plain (map lower_ascii) (fun s _ => eq_refl) demo_title)
    as (stem & Hname & Hstem & _).
  exists stem. split; [exact Hname|]. rewrite Hstem. vm_compute. reflexivity.
Defined.

(** ** App.tsx: handleGenerateNews *)

Module NewsFlow.

(** What the call of [generateNewsFallback] settles with: the text of the
    response, if there is one; or a rejection, with the message of the error
    if it is an [Error]. *)
Inductive FallbackAnswer :=
| FallbackText (text : option string)
| FallbackRejected (message : option string).

(** [response.text || ""] *)
Definition generateNewsFallback (text : option string) : string :=
  if truthy text then default "" text else "".

Definition dquote : string := String (Ascii.ascii_of_nat 34) "".

(** The template literal [contextPayload]. *)
Definition contextPayload (topic : NewsTopic) (newsSummary : string) : string :=
  newline
  +:+ "STRICT INSTRUCTION: Generate a podcast ONLY about the specific focus described below. "
  +:+ newline
  +:+ "You must filter the provided news data. If a news item does not match the "
  +:+ dquote +:+ "SPECIFIC FOCUS" +:+ dquote +:+ ", discard it."
  +:+ newline +:+ newline
  +:+ "TARGET TOPIC: " +:+ Topic.name topic
  +:+ newline
  +:+ "SPECIFIC FOCUS: "
  +:+ (if truthy (Topic.description topic)
       then default "" (Topic.description topic) else Topic.name topic)
  +:+ newline +:+ newline
  +:+ "AVAILABLE NEWS DATA (Select only what matches the focus):"
  +:+ newline
  +:+ newsSummary
  +:+ newline
  +:+ "              ".

(** The first [setState] of the handler. *)
Definition news_preamble (topic : NewsTopic) (prev : AppState) : AppState :=
  {| App.script := None;
     App.audioSegments := [];
     App.isGeneratingAudio := App.isGeneratingAudio prev;
     App.status := Status.scripting;
     App.error := None;
     App.notification := App.notification prev;
     App.currentEpisodeId := None;
     App.activeCategory := Some (Topic.name topic);
     App.customCoverUrl := Topic.customImage topic;
     App.library := App.library prev;
     App.topics := App.topics prev |}.

(** [{ ...prev, status: 'error', error }] *)
Definition news_error (message : string) (prev : AppState) : AppState :=
  {| App.script := App.script prev;
     App.audioSegments := App.audioSegments prev;
     App.isGeneratingAudio := App.isGeneratingAudio prev;
     App.status := Status.error;
     App.error := Some message;
     App.notification := App.notification prev;
     App.currentEpisodeId := App.currentEpisodeId prev;
     App.activeCategory := App.activeCategory prev;
     App.customCoverUrl := App.customCoverUrl prev;
     App.library := App.library prev;
     App.topics := App.topics prev |}.

(** How the handler ends: with the call of [handleGenerationFlow], or in its
    [catch] block. *)
Inductive NewsOutcome :=
| StartFlow (input category : string) (customImage : option string)
    (shouldGenerateImage : bool)
| NewsFailed (message : string).

(** A run of the handler: how it ends, whether it asked the fallback, and
    the store it leaves (before [handleGenerationFlow] takes over, when it
    gets there) if nothing else writes the store meanwhile. *)
Record NewsRun := {
  outcome : NewsOutcome;
  askedFallback : bool;
  store : AppState
}.

Section HandleGenerateNews.

Variable fetchFeed : nat -> string -> list RssItem.
Variable sevenDaysAgo : Z.
Variable isoDate : Z -> string.
Variable trim : string -> string.
Variable collapse_whitespace : string -> string.
Variable fallback : FallbackAnswer.

(** [state] is the store the handler was rendered with: the [state.status]
    read in the [catch] block is the status at the time of the click. *)
Definition handleGenerateNews (state : AppState) (topic : NewsTopic) : NewsRun :=
  let store0 := news_preamble topic state in
  (* the inner [try]: the feeds, then the fallback *)
  let rss : string + string :=
    if 0 <? length (Topic.rssUrls topic)
    then fetchNewsForTopic fetchFeed sevenDaysAgo isoDate trim collapse_whitespace
           (Topic.rssUrls topic)
    else inl "No RSS URLs available for this topic." in
  let asked := match rss with inl _ => true | inr _ => false end in
  let gathered : string + string :=
    match rss with
    | inr newsSummary => inr newsSummary
    | inl _ =>
        match fallback with
        | FallbackText text => inr (generateNewsFallback text)
        | FallbackRejected message => inl (default "Failed to fetch news." message)
        end
    end in
  (* [if (newsSummary) ... else throw ...] *)
  let result : string + string :=
    match gathered with
    | inr newsSummary =>
        if truthy (Some newsSummary) then inr newsSummary
        else inl "Could not gather news from RSS or AI Fallback."
    | inl message => inl message
    end in
  match result with
  | inr newsSummary =>
      {| outcome := StartFlow (contextPayload topic newsSummary) (Topic.name topic)
                      (Topic.customImage topic) (Topic.isCustom topic);
         askedFallback := asked;
         store := store0 |}
  | inl message =>
      {| outcome := NewsFailed message;
         askedFallback := asked;
         store := match App.status state with
                  | Status.idle => store0
                  | _ => news_error message store0
                  end |}
  end.

End HandleGenerateNews.

(** X21.  [handleGenerateNews] asks the fallback exactly when the topic has
    no feed or none of its feeds gave an item of the last seven days.  When
    the feeds gave such items it always goes on to [handleGenerationFlow],
    with the printed items in the payload, the topic's name as category, its
    image and its custom flag; when it asked the fallback it goes on in the
    same way exactly when the fallback answered with a text that is not
    empty, and fails otherwise. *)
Theorem handleGenerateNews_outcome (fetchFeed : nat -> string -> list RssItem)
    (sevenDaysAgo : Z) (isoDate : Z -> string) (trim collapse_whitespace : string -> string)
    (fallback : FallbackAnswer) (state : AppState) (topic : NewsTopic) :
  let run :=
    handleGenerateNews fetchFeed sevenDaysAgo isoDate trim collapse_whitespace fallback
      state topic in
  let started newsSummary :=
    StartFlow (contextPayload topic newsSummary) (Topic.name topic)
      (Topic.customImage topic) (Topic.isCustom topic) in
  (askedFallback run = true <->
   Topic.rssUrls topic = [] \/
   forall item, fetched fetchFeed (Topic.rssUrls topic) item -> ~ recent sevenDaysAgo item) /\
  (askedFallback run = false ->
   exists newsSummary,
     fetchNewsForTopic fetchFeed sevenDaysAgo isoDate trim collapse_whitespace
       (Topic.rssUrls topic) = inr newsSummary /\
     outcome run = started newsSummary) /\
  (askedFallback run = true ->
   outcome run
   = match fallback with
     | FallbackText text =>
         if truthy text then started (default "" text)
         else NewsFailed "Could not gather news from RSS or AI Fallback."
     | FallbackRejected message => NewsFailed (default "Failed to fetch news." message)
     end).
Proof.
  intros run started. subst run started. unfold handleGenerateNews.
  pose proof (fetchNewsForTopic_inl_iff fetchFeed sevenDaysAgo isoDate trim
                collapse_whitespace (Topic.rssUrls topic)) as Hinl.
  pose proof (fetchNewsForTopic_inr fetchFeed sevenDaysAgo isoDate trim
                collapse_whitespace (Topic.rssUrls topic)) as Hinr.
  assert (forall text, truthy (Some (generateNewsFallback text)) = truthy text) as Htruthy.
  { intros [text|]; unfold generateNewsFallback; simpl; [|done].
    by destruct (String.eqb text "") eqn:Heq; simpl; rewrite ?Heq. }
  assert (forall text, truthy text = true -> generateNewsFallback text = default "" text)
    as Htext.
  { intros text Ht. unfold generateNewsFallback. by rewrite Ht. }
  destruct (Topic.rssUrls topic) as [|url urls] eqn:Hurls.
  - cbn [length Nat.ltb Nat.leb].
    split; [|split].
    + destruct fallback as [text|message]; [|simpl; tauto].
      destruct (truthy (Some (generateNewsFallback text))); simpl; tauto.
    + destruct fallback as [text|message]; [|done].
      by destruct (truthy (Some (generateNewsFallback text))).
    + intros _. destruct fallback as [text|message]; [|done].
      rewrite Htruthy. destruct (truthy text) eqn:Ht; [|done]. by rewrite Htext.
  - cbn [length Nat.ltb Nat.leb].
    destruct (fetchNewsForTopic _ _ _ _ _ (url :: urls)) as [message|newsSummary] eqn:Hfetch.
    + assert (forall item, fetched fetchFeed (url :: urls) item -> ~ recent sevenDaysAgo item)
        as Hnone by (apply Hinl; eauto).
      split; [|split].
      * destruct fallback as [text|e]; [|simpl; tauto].
        destruct (truthy (Some (generateNewsFallback text))); simpl; tauto.
      * destruct fallback as [text|e]; [|done].
        by destruct (truthy (Some (generateNewsFallback text))).
      * intros _. destruct fallback as [text|e]; [|done].
        rewrite Htruthy. destruct (truthy text) eqn:Ht; [|done]. by rewrite Htext.
    + destruct (Hinr newsSummary eq_refl) as (_ & _ & Hnonempty).
      assert (truthy (Some newsSummary) = true) as ->.
      { simpl. by destruct (String.eqb_spec newsSummary ""). }
      simpl. split; [|split; [eauto | done]].
      split; [done|]. intros [?|Hnone]; [done|].
      assert (exists message, @inr string string newsSummary = inl message) as [? ?];
        [by apply Hinl | done].
Qed.

(** X22.  [handleGenerateNews] clears the script, the segment queue and the
    current episode, sets the category and the cover of the topic, and leaves
    the progress flag, the library and the topics as they were.  The store
    ends with the status [error] and the message of the failure only when
    the gathering failed and the status the handler was called with was not
    [idle]; otherwise, and so after a failure from [idle], with the status
    [scripting] and no error. *)
Theorem handleGenerateNews_store (fetchFeed : nat -> string -> list RssItem)
    (sevenDaysAgo : Z) (isoDate : Z -> string) (trim collapse_whitespace : string -> string)
    (fallback : FallbackAnswer) (state : AppState) (topic : NewsTopic) :
  let run :=
    handleGenerateNews fetchFeed sevenDaysAgo isoDate trim collapse_whitespace fallback
      state topic in
  App.script (store run) = None /\
  App.audioSegments (store run) = [] /\
  App.currentEpisodeId (store run) = None /\
  App.activeCategory (store run) = Some (Topic.name topic) /\
  App.customCoverUrl (store run) = Topic.customImage topic /\
  App.isGeneratingAudio (store run) = App.isGeneratingAudio state /\
  App.library (store run) = App.library state /\
  App.topics (store run) = App.topics state /\
  match outcome run with
  | StartFlow _ _ _ _ =>
      App.status (store run) = Status.scripting /\ App.error (store run) = None
  | NewsFailed message =>
      match App.status state with
      | Status.idle =>
          App.status (store run) = Status.scripting /\ App.error (store run) = None
      | _ =>
          App.status (store run) = Status.error /\ App.error (store run) = Some message
      end
  end.
Proof.
  intros run. subst run. unfold handleGenerateNews.
  repeat match goal with
         | |- context [match ?x with _ => _ end] =>
             lazymatch x with
             | App.status _ => fail
             | _ => destruct x eqn:?
             end
         end; simpl in *; simplify_eq; try done;
    destruct (App.status state); done.
Qed.

End NewsFlow.

(** ** App.tsx: opening an episode and going back *)

Module Nav.
Import Session SessionFacts SessionStore.

Inductive AppView := custom | news | library | details | profile | events.

(** The store together with the view fields of [AppState] and the
    [isScriptMinimized] flag of the component. *)
Record Shell := {
  store : AppState;
  view : AppView;
  previousView : option AppView;
  isScriptMinimized : bool
}.

(** The store fields written by [handleSelectEpisode]. *)
Definition select_episode (episode : PodcastEpisode) (prev : AppState) : AppState :=
  {| App.script := Some (Episode.script episode);
     App.audioSegments := Episode.audioSegments episode;
     App.isGeneratingAudio := false;
     App.status := Status.complete;
     App.error := App.error prev;
     App.notification := App.notification prev;
     App.currentEpisodeId := Some (Episode.id episode);
     App.activeCategory := Some (Episode.category episode);
     App.customCoverUrl := Episode.customImage episode;
     App.library := App.library prev;
     App.topics := App.topics prev |}.


(** The [onViewDetails] callback of the player. *)
Definition onViewDetails (sh : Shell) : Shell :=
  {| store := store sh;
     view := details;
     previousView := Some (view sh);
     isScriptMinimized := isScriptMinimized sh |}.


Definition setView (v : AppView) (sh : Shell) : Shell :=
  {| store := set_error None (store sh); view := v; previousView := previousView sh;
     isScriptMinimized := isScriptMinimized sh |}.




(** Outside that scope the store need not show the committed episode: an
    episode opened while a generation runs puts its script into the store,
    the commit of the generation leaves it there, and opening the committed
    episode then does change the store. *)
Lemma select_while_generating :
  exists w1 ep1 w2 w3 ep2,
    run step (boot empty_state)
      [StartGeneration "custom" None false; ScriptDone 1 (inr (demo_script 7));
       AudioDone 1 (Some "blob:a0"); AudioDone 1 (Some "blob:a1")] = Some w1 /\
    commits (trace w1) = [ep1] /\
    run step w1 [StartGeneration "custom" None false; ScriptDone 2 (inr (demo_script 3))]
    = Some w2 /\
    run step (setState (select_episode ep1) w2) [AudioDone 2 (Some "blob:b0")] = Some w3 /\
    commits (trace w3) = [ep1; ep2] /\
    App.script (state w3) = Some (Episode.script ep1) /\
    App.script (select_episode ep2 (state w3)) = Some (Episode.script ep2) /\
    Episode.script ep2 <> Episode.script ep1.
Proof.
  eexists _, _, _, _, _.
  split; [vm_compute; reflexivity|]. split; [vm_compute; reflexivity|].
  split; [vm_compute; reflexivity|]. split; [vm_compute; reflexivity|].
  split; [vm_compute; reflexivity|]. split; [vm_compute; reflexivity|].
  split; [vm_compute; reflexivity|]. vm_compute. discriminate.
Qed.

End Nav.
